(** * A shallow embedding of the block handlers of the text preprocessor

    The development follows [preprocessor/blocks.py] (the built-in blocks
    [void], [block], [verbatim], [repeat], [atlabel], [for], [cut], [if] and
    the finalisation of [atlabel]) and the option handling of
    [preproc/__main__.py].

    Python values are modelled as follows.
    - [str] is [string]; a character is a code point below 256.
    - [int] is [Z]; offsets into strings are [Z] as well, because the code
      uses [-1] as a sentinel and slices with computed bounds.
    - The preprocessor object is the record [Preprocessor]; every handler is
      a function in the monad [M], which threads the object and carries the
      ways a call can end: a value, a fatal [send_error], an uncaught Python
      exception, a process exit, or exhausted fuel (for the recursive
      interpreter only). *)

From Stdlib Require Import ZArith String Ascii List Bool Lia DecimalString.
From stdpp Require Import base option list gmap strings.

Local Open Scope string_scope.
Local Open Scope Z_scope.
Local Open Scope list_scope.

(* ===================================================================== *)
(** ** Python strings and integers *)
(* ===================================================================== *)

Module Py.

Definition ord (c : ascii) : Z := Z.of_N (N_of_ascii c).

Definition between (lo hi : Z) (c : ascii) : bool :=
  (lo <=? ord c) && (ord c <=? hi).

(** [str.isspace] on one character (also the class [\s] of [re]). *)
Definition isspace (c : ascii) : bool :=
  between 9 13 c || between 28 32 c || (ord c =? 133) || (ord c =? 160).

Definition isdecimal (c : ascii) : bool := between 48 57 c.

(** Characters with a numeric value: the digits, the superscripts
    two, three and one, and the three vulgar fractions. *)
Definition isnumeric_char (c : ascii) : bool :=
  isdecimal c || (ord c =? 178) || (ord c =? 179) || (ord c =? 185)
  || between 188 190 c.

Fixpoint forallb_str (p : ascii -> bool) (s : string) : bool :=
  match s with
  | EmptyString => true
  | String c s' => p c && forallb_str p s'
  end.

Definition is_empty (s : string) : bool :=
  match s with EmptyString => true | _ => false end.

(** [s.isnumeric()] *)
Definition isnumeric (s : string) : bool :=
  negb (is_empty s) && forallb_str isnumeric_char s.

Fixpoint lstrip (s : string) : string :=
  match s with
  | EmptyString => EmptyString
  | String c s' => if isspace c then lstrip s' else s
  end.

Fixpoint rstrip (s : string) : string :=
  match s with
  | EmptyString => EmptyString
  | String c s' =>
      let r := rstrip s' in
      if isspace c && is_empty r then EmptyString else String c r
  end.

(** [s.strip()] *)
Definition strip (s : string) : string := rstrip (lstrip s).

Definition len (s : string) : Z := Z.of_nat (String.length s).

Fixpoint drop (n : nat) (s : string) : string :=
  match n, s with
  | O, _ => s
  | S n', String _ s' => drop n' s'
  | S _, EmptyString => EmptyString
  end.

Fixpoint take (n : nat) (s : string) : string :=
  match n, s with
  | S n', String c s' => String c (take n' s')
  | _, _ => EmptyString
  end.

(** A slice bound as Python normalises it: a negative index counts from
    the end, and the result is clamped to [0, len]. *)
Definition clamp (n : Z) (i : Z) : Z :=
  if i <? 0 then Z.max (i + n) 0 else Z.min i n.

(** [s[a:b]] *)
Definition slice (s : string) (a b : Z) : string :=
  let n := len s in
  let a' := clamp n a in
  let b' := clamp n b in
  take (Z.to_nat (b' - a')) (drop (Z.to_nat a') s).

(** [s[a:]] *)
Definition slice_from (s : string) (a : Z) : string :=
  drop (Z.to_nat (clamp (len s) a)) s.

(** [s[:b]] *)
Definition slice_to (s : string) (b : Z) : string :=
  take (Z.to_nat (clamp (len s) b)) s.

(** [s * n] *)
Fixpoint repeat_nat (s : string) (n : nat) : string :=
  match n with
  | O => EmptyString
  | S n' => s +:+ repeat_nat s n'
  end.

(** [sys.maxsize], the largest index and the largest length of a
    string. *)
Definition maxsize : Z := 2 ^ 63 - 1.

(** [s * n] is [OverflowError] ([None]) when [n] does not fit an index
    or when the product of the lengths exceeds [sys.maxsize]; a count of
    zero or less gives the empty string.  The memory of the machine is
    not modelled. *)
Definition mul (s : string) (n : Z) : option string :=
  if (n <? - maxsize - 1) || (maxsize <? n) then None
  else if maxsize <? len s * n then None
  else Some (repeat_nat s (Z.to_nat n)).

(** The most digits [int] converts ([sys.get_int_max_str_digits()]). *)
Definition int_max_str_digits : nat := 4300.

(** [int(s)] for a string that passed [isnumeric]: the decimal value when
    every character is a decimal digit, [ValueError] ([None]) when one of
    the other numeric characters occurs or when the digits are more than
    the limit of the conversion. *)
Fixpoint int_acc (acc : Z) (s : string) : option Z :=
  match s with
  | EmptyString => Some acc
  | String c s' =>
      if isdecimal c then int_acc (10 * acc + (ord c - 48)) s' else None
  end.

Definition int (s : string) : option Z :=
  if is_empty s then None
  else if (int_max_str_digits <? String.length s)%nat then None
  else int_acc 0 s.

(** [str(n)] for an integer *)
Definition str (n : Z) : string := NilZero.string_of_int (Z.to_int n).

(** [range(start, stop, step)] as the list of its values; [None] is the
    [ValueError] raised for a zero step. *)
Fixpoint range_up (n : nat) (start step : Z) : list Z :=
  match n with
  | O => []
  | S n' => start :: range_up n' (start + step) step
  end.

Definition range_len (start stop step : Z) : Z :=
  if 0 <? step then
    if start <? stop then (stop - start - 1) / step + 1 else 0
  else
    if stop <? start then (start - stop - 1) / (- step) + 1 else 0.

Definition range (start stop step : Z) : option (list Z) :=
  if step =? 0 then None
  else Some (range_up (Z.to_nat (range_len start stop step)) start step).

(** [sub in s] for strings *)
Fixpoint contains (sub s : string) : bool :=
  String.prefix sub s ||
  match s with
  | EmptyString => false
  | String _ s' => contains sub s'
  end.

(** [s.find(sub)]: the lowest index of an occurrence, or [-1]. *)
Fixpoint find_from (sub s : string) (i : Z) : Z :=
  if String.prefix sub s then i
  else match s with
       | EmptyString => -1
       | String _ s' => find_from sub s' (i + 1)
       end.

Definition find (s sub : string) : Z := find_from sub s 0.

End Py.

(* ===================================================================== *)
(** ** Regular expressions as [re.match] runs them *)
(* ===================================================================== *)

Module Re.

(** The fragment of [re] syntax the source uses.  [Group n r] is the
    capturing group number [n]; a non-capturing group is its body. *)
Inductive regex : Type :=
| Eps
| Cls (p : ascii -> bool)
| Lit (s : string)
| Seq (r1 r2 : regex)
| Alt (r1 r2 : regex)
| Star (r : regex)
| Group (n : nat) (r : regex)
| Bol
| Eol.

Definition Plus (r : regex) : regex := Seq r (Star r).
Definition Opt (r : regex) : regex := Alt r Eps.
Definition space : regex := Cls Py.isspace.

Record flags : Type := { MULTILINE : bool }.

(** Spans of the groups matched so far, most recent first. *)
Definition spans : Type := list (nat * (Z * Z)).

Record Match : Type := { m_end : Z; m_spans : spans }.

Fixpoint span (g : spans) (n : nat) : option (Z * Z) :=
  match g with
  | [] => None
  | (k, se) :: g' => if Nat.eqb k n then Some se else span g' n
  end.

(** The matcher is a backtracking one, in continuation-passing style:
    alternatives are tried left to right and a star takes as many
    iterations as it can before it gives some back.  [prev] is the
    character before the current position, for [^] under MULTILINE. *)
Definition K : Type := option ascii -> string -> Z -> spans -> option Match.

Definition newline : ascii := ascii_of_nat 10.

Definition is_newline (c : ascii) : bool := Ascii.eqb c newline.

Fixpoint last_char (d : option ascii) (s : string) : option ascii :=
  match s with
  | EmptyString => d
  | String c s' => last_char (Some c) s'
  end.

Fixpoint run (f : flags) (r : regex) (k : K) {struct r} : K :=
  match r with
  | Eps => k
  | Cls p => fun prev s pos g =>
      match s with
      | String c s' => if p c then k (Some c) s' (pos + 1) g else None
      | EmptyString => None
      end
  | Lit l => fun prev s pos g =>
      if String.prefix l s
      then k (last_char prev l) (Py.drop (String.length l) s) (pos + Py.len l) g
      else None
  | Seq r1 r2 => run f r1 (run f r2 k)
  | Alt r1 r2 => fun prev s pos g =>
      match run f r1 k prev s pos g with
      | Some m => Some m
      | None => run f r2 k prev s pos g
      end
  | Star r' => fun prev s pos g =>
      (fix loop (n : nat) (prev : option ascii) (s : string) (pos : Z)
                (g : spans) {struct n} : option Match :=
         match n with
         | O => k prev s pos g
         | S n' =>
             match run f r'
                     (fun prev' s' pos' g' =>
                        if pos <? pos' then loop n' prev' s' pos' g' else None)
                     prev s pos g with
             | Some m => Some m
             | None => k prev s pos g
             end
         end) (S (String.length s)) prev s pos g
  | Group n r' => fun prev s pos g =>
      run f r' (fun prev' s' pos' g' => k prev' s' pos' ((n, (pos, pos')) :: g'))
          prev s pos g
  | Bol => fun prev s pos g =>
      match prev with
      | None => k prev s pos g
      | Some c => if MULTILINE f && is_newline c then k prev s pos g else None
      end
  | Eol => fun prev s pos g =>
      match s with
      | EmptyString => k prev s pos g
      | String c s' =>
          if is_newline c && (MULTILINE f || Py.is_empty s')
          then k prev s pos g else None
      end
  end.

Definition accept : K := fun _ _ pos g => Some {| m_end := pos; m_spans := g |}.

(** [re.match(r, s, flags)] *)
Definition match_ (f : flags) (r : regex) (s : string) : option Match :=
  run f r accept None s 0 [].

Definition no_flags : flags := {| MULTILINE := false |}.

(** [m.end(n)] and [m.group(n)] for a match [m] against [s] *)
Definition end_ (m : Match) (n : nat) : option Z :=
  snd <$> span (m_spans m) n.

Definition group (s : string) (m : Match) (n : nat) : option string :=
  (fun se : Z * Z => Py.slice s (fst se) (snd se)) <$> span (m_spans m) n.

End Re.


(* ===================================================================== *)
(** ** The preprocessor object *)
(* ===================================================================== *)

(** [TokenMatch]: an occurrence of the begin or of the end delimiter. *)
Inductive TokenMatch : Type := OPEN | CLOSE.

(** A token is the tuple [(begin, end, kind)] that [_find_tokens] yields. *)
Abbreviation Token := (Z * Z * TokenMatch)%type.

Definition tok_begin (t : Token) : Z := fst (fst t).
Definition tok_end (t : Token) : Z := snd (fst t).
Definition tok_kind (t : Token) : TokenMatch := snd t.

Definition is_open (k : TokenMatch) : bool :=
  match k with OPEN => true | CLOSE => false end.

Record ContextFrame : Type := {
  source_name : string;
  base_offset : Z;
  description : string
}.

(** [current_position], the span of the directive being run. *)
Record Position : Type := { begin_ : Z; end_ : Z }.

Inductive WarningMode : Type := PRINT | HIDE | AS_ERROR.

(** The registry maps an identifier to a handler.  Python stores closures;
    each closure the sources build is a constructor here, together with the
    values it captured.
    - [cmd_lambda value doc]: [lambda *args: value] of [__main__.py], with
      its [doc] attribute;
    - [for_cmd ident value]: [defined_value] of [blck_for], for the loop
      identifier [ident] and the current [str(value)];
    - [cmd_macro text]: a command defined in the document, which expands to
      the nested parse of [text]; the command that defines it is not among
      the sources, the constructor follows the specification. *)
Inductive Command : Type :=
| cmd_lambda (value doc : string)
| for_cmd (ident value : string)
| cmd_macro (text : string).

(** [command_vars], with the two keys [blocks.py] uses.  A key that is not
    in the dictionary is [None].  The at-label dictionary keeps insertion
    order, which is the order [fnl_atlabel] iterates in. *)
Record CommandVars : Type := {
  atlabel : option (list (string * string));
  clipboard : option (gmap string (ContextFrame * string))
}.

Inductive Severity : Type := warning | error.

(** A diagnostic as it is reported: severity, message, context trace. *)
Record Event : Type := {
  severity : Severity;
  message : string;
  trace : list ContextFrame
}.

Record Preprocessor : Type := {
  commands : gmap string Command;
  command_vars : CommandVars;
  labels : gmap string (list Z);
  context : list ContextFrame;
  current_position : Position;
  max_recursion_depth : Z;
  recursion_depth : Z;
  token_begin : string;
  token_end : string;
  token_endblock : string;
  re_flags : Re.flags;
  warning_mode : WarningMode;
  silent_warnings : list string;
  include_path : list (string + list string);
  log : list Event
}.

(** Attribute assignment, one setter per attribute that is assigned. *)
Definition set_commands (f : gmap string Command -> gmap string Command)
    (p : Preprocessor) : Preprocessor :=
  {| commands := f (commands p); command_vars := command_vars p;
     labels := labels p; context := context p;
     current_position := current_position p;
     max_recursion_depth := max_recursion_depth p;
     recursion_depth := recursion_depth p;
     token_begin := token_begin p; token_end := token_end p;
     token_endblock := token_endblock p; re_flags := re_flags p;
     warning_mode := warning_mode p; silent_warnings := silent_warnings p;
     include_path := include_path p; log := log p |}.

Definition set_command_vars (f : CommandVars -> CommandVars)
    (p : Preprocessor) : Preprocessor :=
  {| commands := commands p; command_vars := f (command_vars p);
     labels := labels p; context := context p;
     current_position := current_position p;
     max_recursion_depth := max_recursion_depth p;
     recursion_depth := recursion_depth p;
     token_begin := token_begin p; token_end := token_end p;
     token_endblock := token_endblock p; re_flags := re_flags p;
     warning_mode := warning_mode p; silent_warnings := silent_warnings p;
     include_path := include_path p; log := log p |}.

Definition set_labels (f : gmap string (list Z) -> gmap string (list Z))
    (p : Preprocessor) : Preprocessor :=
  {| commands := commands p; command_vars := command_vars p;
     labels := f (labels p); context := context p;
     current_position := current_position p;
     max_recursion_depth := max_recursion_depth p;
     recursion_depth := recursion_depth p;
     token_begin := token_begin p; token_end := token_end p;
     token_endblock := token_endblock p; re_flags := re_flags p;
     warning_mode := warning_mode p; silent_warnings := silent_warnings p;
     include_path := include_path p; log := log p |}.

Definition set_context (f : list ContextFrame -> list ContextFrame)
    (p : Preprocessor) : Preprocessor :=
  {| commands := commands p; command_vars := command_vars p;
     labels := labels p; context := f (context p);
     current_position := current_position p;
     max_recursion_depth := max_recursion_depth p;
     recursion_depth := recursion_depth p;
     token_begin := token_begin p; token_end := token_end p;
     token_endblock := token_endblock p; re_flags := re_flags p;
     warning_mode := warning_mode p; silent_warnings := silent_warnings p;
     include_path := include_path p; log := log p |}.

Definition set_current_position (x : Position)
    (p : Preprocessor) : Preprocessor :=
  {| commands := commands p; command_vars := command_vars p;
     labels := labels p; context := context p;
     current_position := x;
     max_recursion_depth := max_recursion_depth p;
     recursion_depth := recursion_depth p;
     token_begin := token_begin p; token_end := token_end p;
     token_endblock := token_endblock p; re_flags := re_flags p;
     warning_mode := warning_mode p; silent_warnings := silent_warnings p;
     include_path := include_path p; log := log p |}.

Definition set_max_recursion_depth (x : Z)
    (p : Preprocessor) : Preprocessor :=
  {| commands := commands p; command_vars := command_vars p;
     labels := labels p; context := context p;
     current_position := current_position p;
     max_recursion_depth := x;
     recursion_depth := recursion_depth p;
     token_begin := token_begin p; token_end := token_end p;
     token_endblock := token_endblock p; re_flags := re_flags p;
     warning_mode := warning_mode p; silent_warnings := silent_warnings p;
     include_path := include_path p; log := log p |}.

Definition set_recursion_depth (f : Z -> Z)
    (p : Preprocessor) : Preprocessor :=
  {| commands := commands p; command_vars := command_vars p;
     labels := labels p; context := context p;
     current_position := current_position p;
     max_recursion_depth := max_recursion_depth p;
     recursion_depth := f (recursion_depth p);
     token_begin := token_begin p; token_end := token_end p;
     token_endblock := token_endblock p; re_flags := re_flags p;
     warning_mode := warning_mode p; silent_warnings := silent_warnings p;
     include_path := include_path p; log := log p |}.

Definition set_token_begin (x : string) (p : Preprocessor) : Preprocessor :=
  {| commands := commands p; command_vars := command_vars p;
     labels := labels p; context := context p;
     current_position := current_position p;
     max_recursion_depth := max_recursion_depth p;
     recursion_depth := recursion_depth p;
     token_begin := x; token_end := token_end p;
     token_endblock := token_endblock p; re_flags := re_flags p;
     warning_mode := warning_mode p; silent_warnings := silent_warnings p;
     include_path := include_path p; log := log p |}.

Definition set_token_end (x : string) (p : Preprocessor) : Preprocessor :=
  {| commands := commands p; command_vars := command_vars p;
     labels := labels p; context := context p;
     current_position := current_position p;
     max_recursion_depth := max_recursion_depth p;
     recursion_depth := recursion_depth p;
     token_begin := token_begin p; token_end := x;
     token_endblock := token_endblock p; re_flags := re_flags p;
     warning_mode := warning_mode p; silent_warnings := silent_warnings p;
     include_path := include_path p; log := log p |}.

Definition set_warning_mode (x : WarningMode)
    (p : Preprocessor) : Preprocessor :=
  {| commands := commands p; command_vars := command_vars p;
     labels := labels p; context := context p;
     current_position := current_position p;
     max_recursion_depth := max_recursion_depth p;
     recursion_depth := recursion_depth p;
     token_begin := token_begin p; token_end := token_end p;
     token_endblock := token_endblock p; re_flags := re_flags p;
     warning_mode := x; silent_warnings := silent_warnings p;
     include_path := include_path p; log := log p |}.

Definition set_silent_warnings (f : list string -> list string)
    (p : Preprocessor) : Preprocessor :=
  {| commands := commands p; command_vars := command_vars p;
     labels := labels p; context := context p;
     current_position := current_position p;
     max_recursion_depth := max_recursion_depth p;
     recursion_depth := recursion_depth p;
     token_begin := token_begin p; token_end := token_end p;
     token_endblock := token_endblock p; re_flags := re_flags p;
     warning_mode := warning_mode p; silent_warnings := f (silent_warnings p);
     include_path := include_path p; log := log p |}.

Definition set_include_path (x : list (string + list string))
    (p : Preprocessor) : Preprocessor :=
  {| commands := commands p; command_vars := command_vars p;
     labels := labels p; context := context p;
     current_position := current_position p;
     max_recursion_depth := max_recursion_depth p;
     recursion_depth := recursion_depth p;
     token_begin := token_begin p; token_end := token_end p;
     token_endblock := token_endblock p; re_flags := re_flags p;
     warning_mode := warning_mode p; silent_warnings := silent_warnings p;
     include_path := x; log := log p |}.

Definition set_log (f : list Event -> list Event)
    (p : Preprocessor) : Preprocessor :=
  {| commands := commands p; command_vars := command_vars p;
     labels := labels p; context := context p;
     current_position := current_position p;
     max_recursion_depth := max_recursion_depth p;
     recursion_depth := recursion_depth p;
     token_begin := token_begin p; token_end := token_end p;
     token_endblock := token_endblock p; re_flags := re_flags p;
     warning_mode := warning_mode p; silent_warnings := silent_warnings p;
     include_path := include_path p; log := f (log p) |}.

Definition set_atlabel (x : option (list (string * string)))
    (v : CommandVars) : CommandVars :=
  {| atlabel := x; clipboard := clipboard v |}.

Definition set_clipboard (x : option (gmap string (ContextFrame * string)))
    (v : CommandVars) : CommandVars :=
  {| atlabel := atlabel v; clipboard := x |}.

(* ===================================================================== *)
(** ** How a call ends, and the monad of handlers *)
(* ===================================================================== *)

Inductive Outcome (A : Type) : Type :=
| Ok (a : A) (p : Preprocessor)           (* the call returned [a] *)
| Fatal (msg : string) (p : Preprocessor) (* [send_error] aborted the run *)
| Raised (exn : string) (p : Preprocessor)(* an uncaught Python exception *)
| Exited (status : Z) (out : string) (p : Preprocessor) (* [exit] *)
| OutOfFuel.                              (* the model gave up *)

Arguments Ok {A} a p.
Arguments Fatal {A} msg p.
Arguments Raised {A} exn p.
Arguments Exited {A} status out p.
Arguments OutOfFuel {A}.

Definition M (A : Type) : Type := Preprocessor -> Outcome A.

Definition ret {A : Type} (a : A) : M A := fun p => Ok a p.

Definition bind {A B : Type} (c : M A) (k : A -> M B) : M B := fun p =>
  match c p with
  | Ok a p' => k a p'
  | Fatal msg p' => Fatal msg p'
  | Raised exn p' => Raised exn p'
  | Exited st out p' => Exited st out p'
  | OutOfFuel => OutOfFuel
  end.

Declare Scope py_scope.
Delimit Scope py_scope with py.
Notation "'let*' x ':=' c 'in' k" := (bind c (fun x => k))
  (at level 10, x pattern, c at level 100, k at level 200) : py_scope.
Notation "c ';;;' k" := (bind c (fun _ => k))
  (at level 100, k at level 200, right associativity) : py_scope.
Local Open Scope py_scope.

Definition get {A : Type} (f : Preprocessor -> A) : M A := fun p => Ok (f p) p.
Definition modify (f : Preprocessor -> Preprocessor) : M unit :=
  fun p => Ok tt (f p).
Definition raise {A : Type} (exn : string) : M A := fun p => Raised exn p.
Definition out_of_fuel {A : Type} : M A := fun _ => OutOfFuel.
Definition when (b : bool) (c : M unit) : M unit := if b then c else ret tt.

Definition mk_event (s : Severity) (msg : string) (p : Preprocessor) : Event :=
  {| severity := s; message := msg; trace := context p |}.

(** Modelled from the spec: [Preprocessor.send_error] is not among the
    sources.  An error is fatal: it is reported with the context trace and
    aborts the whole run. *)
Definition send_error {A : Type} (msg : string) : M A := fun p =>
  Fatal msg (set_log (fun l => l ++ [mk_event error msg p]) p).

(** Modelled from the spec: [Preprocessor.send_warning] is not among the
    sources.  The warning mode decides whether a warning is reported and
    the run continues, is dropped, or is promoted to a fatal error. *)
Definition send_warning (msg : string) : M unit := fun p =>
  match warning_mode p with
  | PRINT => Ok tt (set_log (fun l => l ++ [mk_event warning msg p]) p)
  | HIDE => Ok tt p
  | AS_ERROR => send_error msg p
  end.

(** Modelled from the spec: the context stack of [context.py] is not among
    the sources.  [update] pushes a frame for the same source at a new
    offset, [pop] removes the innermost frame and is an error on an empty
    stack, [top.copy] is a snapshot of the innermost frame at another offset
    and with another description; it does not change the stack. *)
Definition frame_copy (fr : ContextFrame) (pos : Z) (desc : string)
    : ContextFrame :=
  {| source_name := source_name fr; base_offset := pos; description := desc |}.

Definition top_source (p : Preprocessor) : string :=
  match context p with
  | fr :: _ => source_name fr
  | [] => ""
  end.

Definition context_update (pos : Z) (desc : string) : M unit :=
  modify (fun p =>
    set_context (cons {| source_name := top_source p; base_offset := pos;
                         description := desc |}) p).

Definition context_pop : M unit := fun p =>
  match context p with
  | _ :: rest => Ok tt (set_context (fun _ => rest) p)
  | [] => Raised "IndexError" p
  end.

Definition context_top_copy (pos : Z) (desc : string) : M ContextFrame :=
  fun p =>
    match context p with
    | fr :: _ => Ok (frame_copy fr pos desc) p
    | [] => Raised "IndexError" p
    end.

(** Modelled from the spec: the label store of the preprocessor is not among
    the sources.  [labels.get_label(lbl)] is the list of the offsets recorded
    under [lbl], in the order they were recorded. *)
Definition get_label (p : Preprocessor) (lbl : string) : list Z :=
  default [] (labels p !! lbl).

(** A Python [dict] that is iterated: keys in insertion order. *)
Module Dict.
Fixpoint mem {V : Type} (k : string) (d : list (string * V)) : bool :=
  match d with
  | [] => false
  | (k', _) :: d' => String.eqb k' k || mem k d'
  end.

Fixpoint get {V : Type} (k : string) (d : list (string * V)) : option V :=
  match d with
  | [] => None
  | (k', v) :: d' => if String.eqb k' k then Some v else get k d'
  end.

(** [d[k] = v]: in place for a key that is there, at the end otherwise. *)
Fixpoint set {V : Type} (k : string) (v : V) (d : list (string * V))
    : list (string * V) :=
  match d with
  | [] => [(k, v)]
  | (k', v') :: d' =>
      if String.eqb k' k then (k', v) :: d' else (k', v') :: set k v d'
  end.

(** [del d[k]]; [None] is the [KeyError]. *)
Fixpoint del {V : Type} (k : string) (d : list (string * V))
    : option (list (string * V)) :=
  match d with
  | [] => None
  | (k', v') :: d' =>
      if String.eqb k' k then Some d'
      else cons (k', v') <$> del k d'
  end.

Definition keys {V : Type} (d : list (string * V)) : list string := d.*1.
End Dict.

(* ===================================================================== *)
(** ** What [blocks.py] imports *)
(* ===================================================================== *)

(** The arguments [cut_parser] produces. *)
Record CutArguments : Type := { pre_render : bool; clipboard_name : string }.

(** The functions and constants that [blocks.py] uses and that are defined
    in modules outside the sources at hand ([preprocessor.py],
    [conditions.py], [defs.py]) or in [argparse].  The handlers are stated
    over any implementation of them. *)
Class Externals : Type := {
  (** [Preprocessor._find_tokens], from the two delimiters and the text *)
  _find_tokens : string -> string -> string -> list Token;
  (** [conditions.find_matching_close_parenthese]: the index of the close
      matching the open at the given index, the length of the list if none *)
  find_matching_close_parenthese : list string -> nat -> nat;
  (** [conditions.condition_eval] *)
  condition_eval : string -> M bool;
  (** [Preprocessor.split_args] *)
  split_args : string -> M (list string);
  (** [Preprocessor.replace_string] *)
  replace_string : Z -> Z -> string -> string -> list Token -> M string;
  (** [defs.REGEX_IDENTIFIER], [defs.REGEX_IDENTIFIER_END],
      [defs.REGEX_INTEGER] *)
  REGEX_IDENTIFIER : Re.regex;
  REGEX_IDENTIFIER_END : Re.regex;
  REGEX_INTEGER : Re.regex;
  (** [defs.to_integer] *)
  to_integer : string -> Z;
  (** [cut_parser.parse_args]; [None] is [argparse.ArgumentError] *)
  cut_parser_parse_args : list string -> option CutArguments
}.

Definition nl : string := String (ascii_of_nat 10) EmptyString.
Definition dq : string := String (ascii_of_nat 34) EmptyString.

Definition str_eqb (a b : string) : bool := String.eqb a b.

(** [defined_value], the command [blck_for] registers for its identifier. *)
Definition defined_value (ident value : string) (args : string) : M string :=
  when (negb (str_eqb (Py.strip args) ""))
    (send_warning
       ("Extra arguments." +:+ nl +:+ "The command " +:+ ident
        +:+ " defined in for loop takes no arguments"));;;
  ret value.

Section Blocks.

Context {ext : Externals}.

(** [Preprocessor.parse], which most handlers call on their body. *)
Variable parse : string -> M string.

Definition current_end : M Z := get (fun p => end_ (current_position p)).

(* ------------------------------------------------------------------- *)
(** *** simple blocks (void, block, verbatim) *)

Definition blck_void (args contents : string) : M string :=
  when (negb (str_eqb (Py.strip args) ""))
    (send_warning "the void block takes no arguments");;;
  let* pos := current_end in
  context_update pos "in void block";;;
  let* contents := parse contents in
  context_pop;;;
  ret "".

Definition blck_block (args contents : string) : M string :=
  when (negb (str_eqb (Py.strip args) ""))
    (send_warning "the block block takes no arguments");;;
  let* pos := current_end in
  context_update pos "in block block";;;
  let* contents := parse contents in
  context_pop;;;
  ret contents.

Definition blck_verbatim (args contents : string) : M string :=
  when (negb (str_eqb (Py.strip args) ""))
    (send_warning "the verbatim block takes no arguments");;;
  ret contents.

(* ------------------------------------------------------------------- *)
(** *** repeat block *)

Definition blck_repeat (args contents : string) : M string :=
  let args := Py.strip args in
  when (negb (Py.isnumeric args))
    (send_error "invalid argument. Usage: repeat [uint > 0]");;;
  let* nb := match Py.int args with
             | Some n => ret n
             | None => raise "ValueError"
             end in
  when (nb <=? 0)
    (send_error "invalid argument. Usage: repeat [uint > 0]");;;
  let* pos := current_end in
  context_update pos "in block repeat";;;
  let* contents := parse contents in
  context_pop;;;
  match Py.mul contents nb with
  | Some copies => ret copies
  | None => raise "OverflowError"
  end.

(* ------------------------------------------------------------------- *)
(** *** atlabel block *)

Definition get_atlabel : M (list (string * string)) := fun p =>
  match atlabel (command_vars p) with
  | Some d => Ok d p
  | None => Raised "KeyError" p
  end.

Definition blck_atlabel (args contents : string) : M string :=
  let lbl := Py.strip args in
  when (str_eqb lbl "") (send_error "empty label name");;;
  let* vars := get (fun p => atlabel (command_vars p)) in
  match vars with
  | Some d =>
      when (Dict.mem lbl d)
        (send_error ("Multiple atlabel blocks with same label " +:+ dq
                     +:+ lbl +:+ dq))
  | None => modify (set_command_vars (set_atlabel (Some [])))
  end;;;
  let* pos := current_end in
  context_update pos "in block atlabel";;;
  let* rendered := parse contents in
  let* d := get_atlabel in
  modify (set_command_vars (set_atlabel (Some (Dict.set lbl rendered d))));;;
  context_pop;;;
  ret "".

(** One pass of the loop [for i in range(nb_labels)] of [fnl_atlabel]. *)
Fixpoint fnl_atlabel_places (lbl : string) (idxs : list nat) (string_ : string)
    : M string :=
  match idxs with
  | [] => ret string_
  | i :: idxs' =>
      let* occ := get (fun p => get_label p lbl) in
      let* index := match occ !! i with
                    | Some index => ret index
                    | None => raise "IndexError"
                    end in
      let* d := get_atlabel in
      let* content := match Dict.get lbl d with
                      | Some c => ret c
                      | None => raise "KeyError"
                      end in
      let* string_ := replace_string index index string_ content [] in
      fnl_atlabel_places lbl idxs' string_
  end.

(** The loop [for lbl in pre.command_vars["atlabel"]] of [fnl_atlabel];
    it returns the string and the list [deletions]. *)
Fixpoint fnl_atlabel_labels (lbls : list string) (string_ : string)
    (deletions : list string) : M (string * list string) :=
  match lbls with
  | [] => ret (string_, deletions)
  | lbl :: lbls' =>
      let* nb_labels := get (fun p => length (get_label p lbl)) in
      when (Nat.eqb nb_labels 0)
        (send_warning ("No matching label for atlabel block " +:+ dq
                       +:+ lbl +:+ dq));;;
      let* string_ := fnl_atlabel_places lbl (seq 0 nb_labels) string_ in
      fnl_atlabel_labels lbls' string_ (deletions ++ [lbl])
  end.

(** The loop [for lbl in deletions: del ...] of [fnl_atlabel]. *)
Fixpoint fnl_atlabel_deletions (deletions : list string) : M unit :=
  match deletions with
  | [] => ret tt
  | lbl :: rest =>
      let* d := get_atlabel in
      match Dict.del lbl d with
      | Some d' => modify (set_command_vars (set_atlabel (Some d')))
      | None => raise "KeyError"
      end;;;
      fnl_atlabel_deletions rest
  end.

Definition fnl_atlabel (string_ : string) : M string :=
  let* vars := get (fun p => atlabel (command_vars p)) in
  match vars with
  | Some d =>
      let* (string_, deletions) := fnl_atlabel_labels (Dict.keys d) string_ [] in
      fnl_atlabel_deletions deletions;;;
      ret string_
  | None => ret string_
  end.

(* ------------------------------------------------------------------- *)
(** *** for block *)

Definition for_usage : string :=
  "Invalid syntax." +:+ nl +:+
  "usage: for <ident> in range(stop)" +:+ nl +:+
  "                      range(start, stop)" +:+ nl +:+
  "                      range(start, stop, step)" +:+ nl +:+
  "       for <ident> in space separated list " +:+ dq
  +:+ " argument with spaces" +:+ dq.

Definition range_usage : string :=
  "Invalid range syntax in for." +:+ nl +:+
  "usage: range(stop) or range(start, stop) or range(start, stop, step)"
  +:+ nl +:+
  "  start, stop and step, should be integers (contain only 0-9 or _, with an optional leading -)".

(** The header pattern: start of string, spaces, group 1 (the
    identifier), at least one space, the word in, at least one space. *)
Definition for_regex : Re.regex :=
  Re.Seq Re.Bol
    (Re.Seq (Re.Star Re.space)
       (Re.Seq (Re.Group 1 REGEX_IDENTIFIER)
          (Re.Seq (Re.Plus Re.space)
             (Re.Seq (Re.Lit "in") (Re.Plus Re.space))))).

(** The range pattern: the word range and an open parenthesis; an
    optional first argument (spaces, group 1, spaces, a comma); spaces,
    group 2, spaces; an optional third argument (a comma, spaces, group 3,
    spaces); a close parenthesis.  Each group is [REGEX_INTEGER]. *)
Definition range_regex : Re.regex :=
  let nb := REGEX_INTEGER in
  let ws := Re.Star Re.space in
  Re.Seq (Re.Lit "range(")
    (Re.Seq (Re.Opt (Re.Seq ws (Re.Seq (Re.Group 1 nb) (Re.Seq ws (Re.Lit ",")))))
       (Re.Seq ws
          (Re.Seq (Re.Group 2 nb)
             (Re.Seq ws
                (Re.Seq (Re.Opt (Re.Seq (Re.Lit ",")
                                   (Re.Seq ws (Re.Seq (Re.Group 3 nb) ws))))
                   (Re.Lit ")")))))).

(** The loop [for value in iterator]; [values] holds [str(value)] for
    each value of the iterator, [result] is the accumulator. *)
Fixpoint blck_for_loop (ident : string) (values : list string)
    (contents result : string) : M string :=
  match values with
  | [] => ret result
  | value :: values' =>
      modify (set_commands (insert ident (for_cmd ident value)));;;
      let* pos := current_end in
      context_update pos "in for block";;;
      let* r := parse contents in
      context_pop;;;
      blck_for_loop ident values' contents (result +:+ r)
  end.

(** The iterator [blck_for] builds from what follows [in]. *)
Definition blck_for_iterator (args : string) : M (list string) :=
  if str_eqb (Py.slice args 0 5) "range" then
    match Re.match_ Re.no_flags range_regex args with
    | None => send_error range_usage
    | Some m =>
        let groups := fun n => Re.group args m n in
        let start := 0 in
        let step := 1 in
        let* stop := match groups 2%nat with
                     | Some g => ret (to_integer g)
                     | None => raise "TypeError"
                     end in
        let '(start, step) :=
          match groups 1%nat with
          | Some g0 =>
              (to_integer g0,
               match groups 3%nat with
               | Some g2 => to_integer g2
               | None => step
               end)
          | None => (start, step)
          end in
        match Py.range start stop step with
        | Some vs => ret (Py.str <$> vs)
        | None => raise "ValueError"
        end
    end
  else split_args args.

Definition blck_for (args contents : string) : M string :=
  match Re.match_ Re.no_flags for_regex args with
  | None => send_error for_usage
  | Some m =>
      let ident := default "" (Re.group args m 1) in
      let args := Py.strip (Py.slice_from args (Re.m_end m)) in
      let* iterator := blck_for_iterator args in
      blck_for_loop ident iterator contents ""
  end.

(* ------------------------------------------------------------------- *)
(** *** cut block *)

Definition blck_cut (args contents : string) : M string :=
  let* split := split_args args in
  let* arguments :=
    match cut_parser_parse_args split with
    | Some a => ret a
    | None =>
        send_error ("invalid argument." +:+ nl +:+
                    "usage: cut [--pre-render|-p] [<clipboard_name>]")
    end in
  let clipboard_ := clipboard_name arguments in
  let* pos := current_end in
  let* context_ := context_top_copy pos "in pasted block" in
  let* contents :=
    if pre_render arguments then
      context_update pos "in cut block";;;
      let* contents := parse contents in
      context_pop;;;
      ret contents
    else ret contents in
  modify (set_command_vars (fun v =>
    match clipboard v with
    | None => set_clipboard (Some {[ clipboard_ := (context_, contents) ]}) v
    | Some c => set_clipboard (Some (<[ clipboard_ := (context_, contents) ]> c)) v
    end));;;
  ret "".

End Blocks.

(* ===================================================================== *)
(** ** if block *)
(* ===================================================================== *)

(** The four patterns of [find_elifs_and_else], from the delimiters. *)
Section IfRegex.

Context {ext : Externals}.
Variables (tok_endblock tok_end_ : string).

(** spaces, the end-of-block word, if, spaces, the end delimiter *)
Definition endif_regex : Re.regex :=
  Re.Seq (Re.Star Re.space)
    (Re.Seq (Re.Lit tok_endblock)
       (Re.Seq (Re.Lit "if") (Re.Seq (Re.Star Re.space) (Re.Lit tok_end_)))).

(** spaces, if, then the end delimiter or the end of an identifier *)
Definition if_regex : Re.regex :=
  Re.Seq (Re.Star Re.space)
    (Re.Seq (Re.Lit "if") (Re.Alt (Re.Lit tok_end_) REGEX_IDENTIFIER_END)).

(** spaces, group 1 (elif), then the end delimiter or the end of an
    identifier *)
Definition elif_regex : Re.regex :=
  Re.Seq (Re.Star Re.space)
    (Re.Seq (Re.Group 1 (Re.Lit "elif"))
       (Re.Alt (Re.Lit tok_end_) REGEX_IDENTIFIER_END)).

(** spaces, else, spaces, the end delimiter *)
Definition else_regex : Re.regex :=
  Re.Seq (Re.Star Re.space)
    (Re.Seq (Re.Lit "else") (Re.Seq (Re.Star Re.space) (Re.Lit tok_end_))).

End IfRegex.

Definition matches (f : Re.flags) (r : Re.regex) (s : string) : bool :=
  match Re.match_ f r s with Some _ => true | None => false end.

Definition parenthese_of (tokens : list Token) : list string :=
  (fun x : Token => if is_open (tok_kind x) then "(" else ")") <$> tokens.

Definition unmatched_elif_message (p : Preprocessor) : string :=
  "Unmatched " +:+ dq +:+ token_begin p +:+ dq +:+ " token in endif." +:+ nl
  +:+ "Add matching " +:+ dq +:+ token_end p +:+ dq +:+ " or use " +:+ dq
  +:+ token_begin p +:+ "begin" +:+ token_end p +:+ dq +:+ " to place it.".

Section IfBlock.

Context {ext : Externals}.
Variable parse : string -> M string.

(** The loop [for i, (begin, end, token) in enumerate(tokens)]: [rest] is
    what remains of [tokens], [i] the index of its head. *)
Fixpoint find_elifs_and_else_loop (preproc : Preprocessor) (string_ : string)
    (tokens rest : list Token) (i : nat) (depth : Z)
    : M (Z * Z * option string) :=
  match rest with
  | [] => ret (-1, -1, None)
  | (begin, end', token) :: rest' =>
      let fl := re_flags preproc in
      let tail := Py.slice_from string_ end' in
      let next := find_elifs_and_else_loop preproc string_ tokens rest' (S i) in
      match token with
      | OPEN =>
          if matches fl (if_regex (token_end preproc)) tail then
            next (depth + 1)
          else if matches fl
                    (endif_regex (token_endblock preproc) (token_end preproc))
                    tail then
            next (depth - 1)
          else if depth =? 0 then
            let match_else :=
              Re.match_ fl (else_regex (token_end preproc)) tail in
            let match_elif :=
              Re.match_ fl (elif_regex (token_end preproc)) tail in
            match match_else, match_elif with
            | Some m, _ => ret (begin, end' + Re.m_end m, None)
            | None, Some m =>
                let parenthese := parenthese_of tokens in
                let j := find_matching_close_parenthese parenthese i in
                when (Nat.eqb j (length tokens))
                  (let* cur := get (fun p => end_ (current_position p)) in
                   context_update (begin + cur) "in elif";;;
                   send_error (A := unit) (unmatched_elif_message preproc);;;
                   context_pop);;;
                let end'' := end' + default (-1) (Re.end_ m 1) in
                match tokens !! j with
                | Some tj =>
                    ret (begin, tok_end tj,
                         Some (Py.slice string_ end'' (tok_begin tj)))
                | None => raise "IndexError"
                end
            | None, None => next depth
            end
          else next depth
      | CLOSE => next depth
      end
  end.

Definition find_elifs_and_else (string_ : string)
    : M (Z * Z * option string) :=
  let* preproc := get (fun p => p) in
  let tokens :=
    _find_tokens (token_begin preproc) (token_end preproc) string_ in
  find_elifs_and_else_loop preproc string_ tokens tokens 0 0.

(** The loop [while True] of [blck_if]; [fuel] bounds its iterations. *)
Fixpoint blck_if_loop (fuel : nat) (contents : string) (value : bool)
    (pos_0 : Z) (desc : string) : M string :=
  match fuel with
  | O => out_of_fuel
  | S fuel' =>
      let* else_info := find_elifs_and_else (Py.slice_from contents pos_0) in
      let '(else_begin, else_end, else_args) := else_info in
      if value then
        let endelse := if negb (else_begin =? -1) then pos_0 + else_begin
                       else Py.len contents in
        let* cur := get (fun p => end_ (current_position p)) in
        context_update (pos_0 + cur) desc;;;
        let* parsed := parse (Py.slice contents pos_0 endelse) in
        context_pop;;;
        ret parsed
      else if else_begin =? -1 then
        ret ""
      else
        match else_args with
        | None =>
            blck_if_loop fuel' contents (negb value) (pos_0 + else_end)
              "in else"
        | Some a =>
            let* cur := get (fun p => end_ (current_position p)) in
            context_update (pos_0 + else_begin + cur) "in elif evaluation";;;
            let* args := parse a in
            context_pop;;;
            let* value := condition_eval args in
            blck_if_loop fuel' contents value (pos_0 + else_end) "in elif"
        end
  end.

Definition blck_if (fuel : nat) (args contents : string) : M string :=
  let* value := condition_eval args in
  blck_if_loop fuel contents value 0 "in if block".

End IfBlock.

(* ===================================================================== *)
(** ** The token scanner and the other imports, from the specification *)
(* ===================================================================== *)

Module Model.

(** Modelled from the spec: the escape marker.  The specification leaves
    the marker to the configuration; the model fixes a backslash. *)
Definition escape_marker : string := "\".

Definition starts (pre s : string) : bool :=
  negb (Py.is_empty pre) && String.prefix pre s.

(** Modelled from the spec: [Preprocessor._find_tokens] is not among the
    sources.  Every occurrence of a delimiter that the escape marker does
    not precede is a token, in order of offset; occurrences do not
    overlap.  [skip] counts the characters of the occurrence being
    passed over. *)
Fixpoint find_tokens_from (tb te : string) (skip : nat) (s : string) (i : Z)
    : list Token :=
  match s with
  | EmptyString => []
  | String _ s' =>
      match skip with
      | S k => find_tokens_from tb te k s' (i + 1)
      | O =>
          if negb (Py.is_empty tb) && String.prefix (escape_marker +:+ tb) s then
            find_tokens_from tb te
              (Nat.pred (String.length (escape_marker +:+ tb))) s' (i + 1)
          else if negb (Py.is_empty te) && String.prefix (escape_marker +:+ te) s then
            find_tokens_from tb te
              (Nat.pred (String.length (escape_marker +:+ te))) s' (i + 1)
          else if starts tb s then
            (i, i + Py.len tb, OPEN)
            :: find_tokens_from tb te (Nat.pred (String.length tb)) s' (i + 1)
          else if starts te s then
            (i, i + Py.len te, CLOSE)
            :: find_tokens_from tb te (Nat.pred (String.length te)) s' (i + 1)
          else find_tokens_from tb te 0 s' (i + 1)
      end
  end.

Definition find_tokens (tb te s : string) : list Token :=
  find_tokens_from tb te 0 s 0.

(** Modelled from the spec: the stripping of escape markers from literal
    text.  A marker that immediately precedes a delimiter is removed; the
    delimiter stays. *)
Fixpoint unescape_from (tb te : string) (skip : nat) (s : string) : string :=
  match s with
  | EmptyString => EmptyString
  | String c s' =>
      match skip with
      | S k => unescape_from tb te k s'
      | O =>
          if (negb (Py.is_empty tb) && String.prefix (escape_marker +:+ tb) s)
             || (negb (Py.is_empty te) && String.prefix (escape_marker +:+ te) s)
          then unescape_from tb te (Nat.pred (String.length escape_marker)) s'
          else String c (unescape_from tb te 0 s')
      end
  end.

Definition unescape (tb te s : string) : string := unescape_from tb te 0 s.

(** Modelled from the spec: [find_matching_close_parenthese] of
    [conditions.py] is not among the sources.  From the open parenthesis
    at index [i] it counts nesting and returns the index where the count
    comes back to zero, or the length of the list. *)
Fixpoint matching_close_from (l : list string) (j : nat) (depth : Z) : nat :=
  match l with
  | [] => j
  | x :: l' =>
      let depth' := if str_eqb x "(" then depth + 1 else depth - 1 in
      if depth' =? 0 then j else matching_close_from l' (S j) depth'
  end.

Definition matching_close (l : list string) (i : nat) : nat :=
  matching_close_from (drop i l) i 0.

(** Modelled from the spec: [REGEX_IDENTIFIER], [REGEX_IDENTIFIER_END] and
    [REGEX_INTEGER] of [defs.py] are not among the sources.  An identifier
    is a bare identifier; it ends at the end of the text or before a
    character that cannot continue it; an integer contains only digits or
    underscores, with an optional leading minus sign. *)
Definition ident_start (c : ascii) : bool :=
  Py.between 65 90 c || Py.between 97 122 c || (Py.ord c =? 95).

Definition ident_char (c : ascii) : bool := ident_start c || Py.isdecimal c.

Definition regex_identifier : Re.regex :=
  Re.Seq (Re.Cls ident_start) (Re.Star (Re.Cls ident_char)).

Definition regex_identifier_end : Re.regex :=
  Re.Alt Re.Eol (Re.Cls (fun c => negb (ident_char c))).

Definition digit_or_underscore (c : ascii) : bool :=
  Py.isdecimal c || (Py.ord c =? 95).

Definition regex_integer : Re.regex :=
  Re.Seq (Re.Opt (Re.Lit "-"))
    (Re.Seq (Re.Cls Py.isdecimal) (Re.Star (Re.Cls digit_or_underscore))).

(** Modelled from the spec: [to_integer] of [defs.py] is not among the
    sources.  The value of the digits, underscores apart, negated after a
    leading minus sign. *)
Fixpoint digits_value (acc : Z) (s : string) : Z :=
  match s with
  | EmptyString => acc
  | String c s' =>
      if Py.isdecimal c then digits_value (10 * acc + (Py.ord c - 48)) s'
      else digits_value acc s'
  end.

Definition to_integer_ (s : string) : Z :=
  match s with
  | String c s' =>
      if Ascii.eqb c "-" then - digits_value 0 s' else digits_value 0 s
  | EmptyString => 0
  end.

(** Modelled from the spec: [Preprocessor.split_args] is not among the
    sources.  The arguments are the white-space separated items; an item
    between double quotes may contain white space.  [cur] is the item
    being read, [quoted] tells whether a quote is open. *)
Definition is_dq (c : ascii) : bool := Py.ord c =? 34.

Fixpoint split_args_from (cur : option string) (quoted : bool) (s : string)
    : list string :=
  match s with
  | EmptyString =>
      match cur with Some w => [String.rev w] | None => [] end
  | String c s' =>
      if quoted then
        if is_dq c then split_args_from cur false s'
        else split_args_from (Some (String c (default "" cur))) true s'
      else if is_dq c then split_args_from (Some (default "" cur)) true s'
      else if Py.isspace c then
        match cur with
        | Some w => String.rev w :: split_args_from None false s'
        | None => split_args_from None false s'
        end
      else split_args_from (Some (String c (default "" cur))) false s'
  end.

Definition split_args_ (s : string) : M (list string) :=
  ret (split_args_from None false s).

(** Modelled from the spec: [cut_parser.parse_args], an [argparse]
    parser with the flag [--pre-render], [-p] and one optional positional
    argument, the clipboard name, whose default is the empty name; every
    error of the parser is [None].  An item is read as [argparse] reads
    it:
    - the empty item, an item that does not start with [-], and [-]
      alone are positional;
    - [--pre-render], each of its abbreviations of at least three
      characters, [-p] and [-p] repeated in one item set the flag; these
      followed by [=] or, for [-p], by another character are errors;
    - [--] makes every later item positional, and is itself dropped;
    - of the other items, a negative number and an item with a space
      are positional, the rest are unknown options. *)
Inductive CutItem : Type := ItemFlag | ItemName | ItemSeparator | ItemError.

Definition is_char (n : Z) (c : ascii) : bool := Py.ord c =? n.

Definition is_negative_number (x : string) : bool :=
  match x with
  | String _ r =>
      let i := Py.find r "." in
      if i =? -1 then negb (Py.is_empty r) && Py.forallb_str Py.isdecimal r
      else Py.forallb_str Py.isdecimal (Py.slice_to r i)
           && negb (Py.is_empty (Py.slice_from r (i + 1)))
           && Py.forallb_str Py.isdecimal (Py.slice_from r (i + 1))
  | EmptyString => false
  end.

Definition cut_item (x : string) : CutItem :=
  if Py.is_empty x || negb (String.prefix "-" x) || str_eqb x "-" then ItemName
  else if str_eqb x "--" then ItemSeparator
  else if str_eqb x "--pre-render" || str_eqb x "-p" then ItemFlag
  else if String.prefix "--" x then
    let i := Py.find x "=" in
    if i =? -1 then
      if String.prefix x "--pre-render" then ItemFlag
      else if Py.contains " " x then ItemName
      else ItemError
    else if String.prefix (Py.slice_to x i) "--pre-render" then ItemError
    else if Py.contains " " x then ItemName
    else ItemError
  else if String.prefix "-p" x then
    if Py.forallb_str (is_char 112) (Py.drop 1 x) then ItemFlag else ItemError
  else if is_negative_number x || Py.contains " " x then ItemName
  else ItemError.

Fixpoint cut_parse (l : list string) (positional flag : bool)
    (name : option string) : option CutArguments :=
  match l with
  | [] => Some {| pre_render := flag; clipboard_name := default "" name |}
  | x :: l' =>
      match (if positional then ItemName else cut_item x) with
      | ItemFlag => cut_parse l' positional true name
      | ItemSeparator => cut_parse l' true flag name
      | ItemName =>
          match name with
          | None => cut_parse l' positional flag (Some x)
          | Some _ => None
          end
      | ItemError => None
      end
  end.

Definition cut_parse_args (l : list string) : option CutArguments :=
  cut_parse l false false None.

(** Modelled from the spec: [Preprocessor.replace_string] is not among
    the sources.  It replaces [string[start:end]] by the replacement and
    moves every recorded label offset at or after [end] by the change of
    length, so that later substitutions still hit their place. *)
Definition shift_offset (from delta : Z) (o : Z) : Z :=
  if from <=? o then o + delta else o.

Definition replace_string_ (start stop : Z) (string_ replacement : string)
    (tokens : list Token) : M string :=
  let delta := Py.len replacement - (stop - start) in
  modify (set_labels (fun ls : gmap string (list Z) =>
    (fun os : list Z => shift_offset stop delta <$> os) <$> ls));;;
  ret (Py.slice_to string_ start +:+ replacement +:+ Py.slice_from string_ stop).

(* ------------------------------------------------------------------- *)
(** *** Conditions *)

Definition is_paren (c : ascii) : bool := (Py.ord c =? 40) || (Py.ord c =? 41).

Definition flush (cur : string) (acc : list string) : list string :=
  if Py.is_empty cur then acc else String.rev cur :: acc.

Definition second_is_eq (s : string) : bool :=
  match s with
  | String _ (String c' _) => Ascii.eqb c' "="
  | _ => false
  end.

(** The lexemes of a condition: parentheses, [==], [!=], and the maximal
    runs of other characters without white space.  [cur] is the run being
    read, reversed; the result is reversed; [skip] passes over the second
    character of an operator. *)
Fixpoint cond_lex (skip : bool) (cur : string) (acc : list string)
    (s : string) : list string :=
  match s with
  | EmptyString => flush cur acc
  | String c s' =>
      if skip then cond_lex false cur acc s'
      else if Py.isspace c then cond_lex false "" (flush cur acc) s'
      else if is_paren c then
        cond_lex false "" (String c "" :: flush cur acc) s'
      else if (Ascii.eqb c "=" || Ascii.eqb c "!") && second_is_eq s then
        cond_lex true "" (String c "=" :: flush cur acc) s'
      else cond_lex false (String c cur) acc s'
  end.

Definition lexemes (s : string) : list string :=
  rev (cond_lex false "" [] s).

Definition is_connective (w : string) : bool :=
  str_eqb w "and" || str_eqb w "or" || str_eqb w ")".

Fixpoint atom_words (ls : list string) : list string * list string :=
  match ls with
  | [] => ([], [])
  | w :: ls' =>
      if is_connective w then ([], ls)
      else let '(ws, rest) := atom_words ls' in (w :: ws, rest)
  end.

Fixpoint split_at (op : string) (ws : list string)
    : option (list string * list string) :=
  match ws with
  | [] => None
  | w :: ws' =>
      if str_eqb w op then Some ([], ws')
      else '(l, r) ← split_at op ws'; Some (w :: l, r)
  end.

Definition join (ws : list string) : string := String.concat " " ws.

(** An atom: [true], [false], [1], [0], [def x], [ndef x], a comparison,
    or a bare string, which holds when it is not empty.  [None] is a
    malformed atom. *)
Definition atom_value (defined : string -> bool) (ws : list string)
    : option bool :=
  match ws with
  | [w] =>
      if str_eqb w "true" || str_eqb w "1" then Some true
      else if str_eqb w "false" || str_eqb w "0" then Some false
      else if str_eqb w "def" || str_eqb w "ndef" then None
      else Some true
  | [k; x] =>
      if str_eqb k "def" then Some (defined x)
      else if str_eqb k "ndef" then Some (negb (defined x))
      else match split_at "==" ws, split_at "!=" ws with
           | Some (l, r), _ => Some (str_eqb (join l) (join r))
           | None, Some (l, r) => Some (negb (str_eqb (join l) (join r)))
           | None, None => Some true
           end
  | _ =>
      match split_at "==" ws, split_at "!=" ws with
      | Some (l, r), _ => Some (str_eqb (join l) (join r))
      | None, Some (l, r) => Some (negb (str_eqb (join l) (join r)))
      | None, None => Some (negb (Py.is_empty (join ws)))
      end
  end.

(** The grammar, lowest precedence first: [or], [and], prefix [not],
    atom.  [lvl] is the level being read. *)
Fixpoint cond (fuel : nat) (defined : string -> bool) (lvl : nat)
    (ls : list string) : option (bool * list string) :=
  match fuel with
  | O => None
  | S f =>
      match lvl with
      | O =>
          '(v, rest) ← cond f defined 1%nat ls;
          match rest with
          | w :: rest' =>
              if str_eqb w "or" then
                '(v', rest'') ← cond f defined 0%nat rest'; Some (v || v', rest'')
              else Some (v, rest)
          | [] => Some (v, rest)
          end
      | S O =>
          '(v, rest) ← cond f defined 2%nat ls;
          match rest with
          | w :: rest' =>
              if str_eqb w "and" then
                '(v', rest'') ← cond f defined 1%nat rest'; Some (v && v', rest'')
              else Some (v, rest)
          | [] => Some (v, rest)
          end
      | _ =>
          match ls with
          | w :: ls' =>
              if str_eqb w "not" then
                '(v, rest) ← cond f defined 2%nat ls'; Some (negb v, rest)
              else if str_eqb w "(" then
                '(v, rest) ← cond f defined 0%nat ls';
                match rest with
                | w' :: rest' => if str_eqb w' ")" then Some (v, rest') else None
                | [] => None
                end
              else
                let '(ws, rest) := atom_words ls in
                v ← atom_value defined ws; Some (v, rest)
          | [] => Some (false, [])
          end
      end
  end.

(** Modelled from the spec: [condition_eval] of [conditions.py] is not
    among the sources.  [def] and [ndef] read the command registry; a
    malformed condition is a fatal error naming the condition. *)
Definition condition_eval_ (s : string) : M bool := fun p =>
  let ls := lexemes s in
  match cond (3 * S (length ls)) (fun x => bool_decide (is_Some (commands p !! x)))
             0%nat ls with
  | Some (v, []) => Ok v p
  | _ => send_error ("Invalid condition: " +:+ s) p
  end.

#[export] Instance externals : Externals := {|
  _find_tokens := find_tokens;
  find_matching_close_parenthese := matching_close;
  condition_eval := condition_eval_;
  split_args := split_args_;
  replace_string := replace_string_;
  REGEX_IDENTIFIER := regex_identifier;
  REGEX_IDENTIFIER_END := regex_identifier_end;
  REGEX_INTEGER := regex_integer;
  to_integer := to_integer_;
  cut_parser_parse_args := cut_parse_args
|}.

End Model.


(* ===================================================================== *)
(** ** The recursive interpreter, from the specification *)
(* ===================================================================== *)

(** Modelled from the spec: the block registry is not among the sources.
    It maps the identifiers of the built-in blocks to the handlers of
    [blocks.py]. *)
Inductive Block : Type :=
| blk_void | blk_block | blk_verbatim | blk_repeat
| blk_atlabel | blk_for | blk_cut | blk_if.

Definition block_table : list (string * Block) :=
  [("void", blk_void); ("block", blk_block); ("verbatim", blk_verbatim);
   ("repeat", blk_repeat); ("atlabel", blk_atlabel); ("for", blk_for);
   ("cut", blk_cut); ("if", blk_if)].

Definition lookup_block (ident : string) : option Block :=
  Dict.get ident block_table.

Module Interp.

Import Model.

(** spaces, then group 1: the identifier of the directive *)
Definition directive_regex : Re.regex :=
  Re.Seq (Re.Star Re.space) (Re.Group 1 regex_identifier).

(** Modelled from the spec: step 2 of the interpreter.  The identifier
    that follows an open token and the argument text after it. *)
Definition directive_ident (s : string) : option (string * string) :=
  match Re.match_ Re.no_flags directive_regex s with
  | Some m => Some (default "" (Re.group s m 1), Py.slice_from s (Re.m_end m))
  | None => None
  end.

(** Modelled from the spec: the search for the close directive of a block
    (step 3 of the interpreter).  Among the open tokens after the opening
    directive, one whose identifier is the block's adds a level and one
    whose identifier is its close directive removes one; the close
    directive met at level zero is the match.  [k] is the index of the
    head of [rest]. *)
Fixpoint find_block_end (text ident endident : string) (rest : list Token)
    (k : nat) (depth : Z) : option nat :=
  match rest with
  | [] => None
  | t :: rest' =>
      let next := find_block_end text ident endident rest' (S k) in
      match tok_kind t with
      | OPEN =>
          match directive_ident (Py.slice_from text (tok_end t)) with
          | Some (id, _) =>
              if str_eqb id ident then next (depth + 1)
              else if str_eqb id endident then
                if depth =? 0 then Some k else next (depth - 1)
              else next depth
          | None => next depth
          end
      | CLOSE => next depth
      end
  end.

Section Step.

(** The nested [parse] the handlers call. *)
Variable parse : string -> M string.

(** Modelled from the spec: step 4 of the interpreter, the call of the
    handler of a block with its raw arguments and its raw body. *)
Definition run_block (fuel : nat) (b : Block) (args contents : string)
    : M string :=
  match b with
  | blk_void => blck_void parse args contents
  | blk_block => blck_block parse args contents
  | blk_verbatim => blck_verbatim args contents
  | blk_repeat => blck_repeat parse args contents
  | blk_atlabel => blck_atlabel parse args contents
  | blk_for => blck_for parse args contents
  | blk_cut => blck_cut parse args contents
  | blk_if => blck_if parse fuel args contents
  end.

(** Modelled from the spec: step 5 of the interpreter, the call of the
    handler of a command.  A command defined in the document expands to
    the nested parse of its text. *)
Definition run_command (c : Command) (args : string) : M string :=
  match c with
  | cmd_lambda value _ => ret value
  | for_cmd ident value => defined_value ident value args
  | cmd_macro text => parse text
  end.

(** Modelled from the spec: step 8 of the interpreter.  The directive
    becomes the current position and its frame is pushed before the handler
    runs; the frame is popped after the handler returns. *)
Definition in_directive (start stop : Z) (desc : string) (c : M string)
    : M string :=
  modify (set_current_position {| begin_ := start; end_ := stop |});;;
  context_update start desc;;;
  let* r := c in
  context_pop;;;
  ret r.

(** Modelled from the spec: step 7 of the interpreter, the literal text
    as it is copied to the output. *)
Definition literal (p : Preprocessor) (s : string) : string :=
  unescape (token_begin p) (token_end p) s.

(** Modelled from the spec: steps 2 to 7 of the interpreter.  [k] is the
    index of the next token of [text], [cursor] the offset where the
    literal text not yet copied starts; [fuel] bounds the number of
    directives run in a row. *)
Fixpoint walk (fuel : nat) (text : string) (tokens : list Token)
    (k : nat) (cursor : Z) : M string :=
  match tokens !! k with
  | None =>
      let* p := get (fun p => p) in
      ret (literal p (Py.slice_from text cursor))
  | Some (b, e, CLOSE) =>
      let* p := get (fun p => p) in
      send_error ("Unmatched " +:+ token_end p)
  | Some (b, e, OPEN) =>
      match fuel with
      | O => out_of_fuel
      | S fuel' =>
          let* p := get (fun p => p) in
          let parens := parenthese_of tokens in
          let j := matching_close parens k in
          match tokens !! j with
          | None => send_error ("Unmatched " +:+ token_begin p)
          | Some tj =>
              match directive_ident (Py.slice text e (tok_begin tj)) with
              | None => send_error "Invalid directive identifier"
              | Some (ident, args) =>
                  let before := literal p (Py.slice text cursor b) in
                  let stop := tok_end tj in
                  let block_end :=
                    b' ← lookup_block ident;
                    k2 ← find_block_end text ident (token_endblock p +:+ ident)
                           (drop (S j) tokens) (S j) 0;
                    tk2 ← tokens !! k2;
                    tj2 ← tokens !! matching_close parens k2;
                    Some (b', tk2, matching_close parens k2, tj2) in
                  match block_end with
                  | Some (blk, tk2, j2, tj2) =>
                      let contents := Py.slice text stop (tok_begin tk2) in
                      let* out :=
                        in_directive b stop ("in " +:+ ident +:+ " block")
                          (run_block fuel' blk args contents) in
                      let* rest := walk fuel' text tokens (S j2) (tok_end tj2) in
                      ret (before +:+ out +:+ rest)
                  | None =>
                      match commands p !! ident with
                      | Some c =>
                          let* out :=
                            in_directive b stop ("in " +:+ ident)
                              (run_command c args) in
                          let* rest := walk fuel' text tokens (S j) stop in
                          ret (before +:+ out +:+ rest)
                      | None =>
                          match lookup_block ident with
                          | Some _ =>
                              send_error ("Unmatched block " +:+ ident)
                          | None =>
                              send_error ("Unknown identifier " +:+ ident)
                          end
                      end
                  end
              end
          end
      end
  end.

End Step.

(** Modelled from the spec: step 9 of the interpreter, the test of the
    recursion counter against the configured maximum. *)
Definition recursion_exceeded (p : Preprocessor) : bool :=
  negb (max_recursion_depth p =? -1)
  && (max_recursion_depth p <? recursion_depth p).

(** Modelled from the spec: [Preprocessor.parse] is not among the
    sources.  Step 9: the recursion counter goes up on entry and down on
    return; a count above the configured maximum is a fatal error, and a
    maximum of [-1] disables the check.  Step 1: the text is scanned for
    tokens once.  A nested call has one unit of fuel less. *)
Fixpoint parse (fuel : nat) (text : string) : M string :=
  match fuel with
  | O => out_of_fuel
  | S fuel' =>
      modify (set_recursion_depth Z.succ);;;
      let* p := get (fun p => p) in
      if recursion_exceeded p then
        send_error "maximum recursion depth exceeded"
      else
        let tokens := find_tokens (token_begin p) (token_end p) text in
        let* r := walk (parse fuel') fuel' text tokens 0 0 in
        modify (set_recursion_depth Z.pred);;;
        modify (set_current_position (current_position p));;;
        ret r
  end.

End Interp.

(** Modelled from the spec: the constructor of [Preprocessor] is not among
    the sources.  A fresh preprocessor has the default delimiters, no
    command, no stored state and one context frame, for the source. *)
Definition initial (name : string) (max_depth : Z) : Preprocessor :=
  {| commands := ∅;
     command_vars := {| atlabel := None; clipboard := None |};
     labels := ∅;
     context := [{| source_name := name; base_offset := 0; description := "" |}];
     current_position := {| begin_ := 0; end_ := 0 |};
     max_recursion_depth := max_depth;
     recursion_depth := 0;
     token_begin := "{%"; token_end := "%}"; token_endblock := "end";
     re_flags := {| Re.MULTILINE := true |};
     warning_mode := PRINT; silent_warnings := []; include_path := [];
     log := [] |}.

Definition value_of {A : Type} (o : Outcome A) : option A :=
  match o with Ok a _ => Some a | _ => None end.

Definition state_of {A : Type} (o : Outcome A) : option Preprocessor :=
  match o with
  | Ok _ p | Fatal _ p | Raised _ p | Exited _ _ p => Some p
  | OutOfFuel => None
  end.


(* ===================================================================== *)
(** ** The command line: [preproc/__main__.py] *)
(* ===================================================================== *)

Module Main.

(** The namespace [parser.parse_args] returns.  A file argument is kept
    by its name: [arg_input] and [arg_output] are the names of the files
    the parser opened, the standard streams when the option is absent.
    [--define] appends the string it is given, and [None] when it is
    given without one; [--include] and [--silent] append one-element
    lists; [--recursion-depth] holds a one-element list of integers when
    it is given. *)
Record Namespace : Type := {
  arg_begin : option string;
  arg_end : option string;
  arg_warnings : option string;
  arg_version : bool;
  arg_output : string;
  arg_help : option string;
  arg_define : list (option string);
  arg_include : list (list string);
  arg_silent : list (list string);
  arg_recursion_depth : option (list Z);
  arg_input : string
}.

(** [str.isidentifier] for code points below 256. *)
Definition xid_start (c : ascii) : bool :=
  Py.between 65 90 c || Py.between 97 122 c || (Py.ord c =? 95)
  || (Py.ord c =? 170) || (Py.ord c =? 181) || (Py.ord c =? 186)
  || Py.between 192 214 c || Py.between 216 246 c || Py.between 248 255 c.

Definition xid_continue (c : ascii) : bool :=
  xid_start c || Py.isdecimal c || (Py.ord c =? 183).

Definition isidentifier (s : string) : bool :=
  match s with
  | EmptyString => false
  | String c s' => xid_start c && Py.forallb_str xid_continue s'
  end.

(** [parser.error]: the message goes to the error stream and the process
    exits with status 2. *)
Definition parser_error {A : Type} (msg : string) : M A :=
  fun p => Exited 2 msg p.

(** [print(text); exit(0)] *)
Definition print_and_exit {A : Type} (text : string) : M A :=
  fun p => Exited 0 text p.

Section Options.

(** [os.path.abspath], [os.path.dirname], [Preprocessor.get_help] and
    the two constants of [defs.py]. *)
Variables (abspath dirname : string -> string).
Variable get_help : Preprocessor -> string -> string.
Variables (PREPROCESSOR_NAME PREPROCESSOR_VERSION : string).

(** The lambdas [process_defines] registers close over the variable
    [value] of the call, not over its content: an assignment to [value]
    changes what every command registered earlier in the call returns.
    [defined] lists those commands, by name and [doc]. *)
Definition rebind (defined : list (string * string)) (value : string)
    (cs : gmap string Command) : gmap string Command :=
  foldl (fun cs nd => <[ fst nd := cmd_lambda value (snd nd) ]> cs)
        cs defined.

(** The loop of [process_defines], with the commands it has registered
    so far. *)
Fixpoint process_defines_loop (defines : list (option string))
    (defined : list (string * string)) : M unit :=
  match defines with
  | [] => ret tt
  | define :: defines' =>
      let* define := match define with
                     | None => raise "TypeError"
                     | Some (String c _) => ret (String c EmptyString)
                     | Some EmptyString => raise "IndexError"
                     end in
      let i := Py.find define "=" in
      let '(name, value) :=
        if i =? -1 then (define, "")
        else (Py.slice_to define i, Py.slice_from define (i + 1)) in
      modify (set_commands (rebind defined value));;;
      if negb (isidentifier name) then
        parser_error ("argument --define/-d/-D: invalid define name "
                      +:+ dq +:+ name +:+ dq)
      else
        let doc := "Command line defined command " +:+ name +:+ "="
                   +:+ value in
        modify (set_commands (<[ name := cmd_lambda value doc ]>));;;
        process_defines_loop defines' (defined ++ [(name, doc)])
  end.

Definition process_defines (defines : list (option string)) : M unit :=
  process_defines_loop defines [].

Definition head_or_raise {A : Type} (l : list A) : M A :=
  match l with
  | x :: _ => ret x
  | [] => raise "IndexError"
  end.

Fixpoint firsts (l : list (list string)) : M (list string) :=
  match l with
  | [] => ret []
  | x :: l' =>
      let* h := head_or_raise x in
      let* t := firsts l' in
      ret (h :: t)
  end.

Definition process_options (arguments : Namespace) : M unit :=
  (* adding input/output commands *)
  modify (set_commands
    (<[ "input" := cmd_lambda (arg_input arguments)
                     "Prints name of input file" ]>));;;
  modify (set_commands
    (<[ "output" := cmd_lambda (arg_output arguments)
                      "Prints name of output file" ]>));;;
  (* adding defined commands *)
  process_defines (arg_define arguments);;;
  (* include path *)
  modify (set_include_path
    ([inl (abspath ""); inl (dirname (abspath (arg_input arguments)));
      inl (dirname (abspath (arg_output arguments)))]
     ++ (inr <$> arg_include arguments)));;;
  (* recursion depth *)
  match arg_recursion_depth arguments with
  | Some l =>
      let* rec_depth := head_or_raise l in
      if rec_depth <? -1 then
        parser_error
          "argument --recusion-depth/-r: number must be greater than -1"
      else modify (set_max_recursion_depth rec_depth)
  | None => ret tt
  end;;;
  (* tokens *)
  match arg_begin arguments with
  | Some b => modify (set_token_begin b)
  | None => ret tt
  end;;;
  match arg_end arguments with
  | Some e => modify (set_token_end e)
  | None => ret tt
  end;;;
  (* warning mode *)
  modify (set_warning_mode
    (match arg_warnings arguments with
     | Some w => if str_eqb w "hide" then HIDE
                 else if str_eqb w "error" then AS_ERROR else PRINT
     | None => PRINT
     end));;;
  (* silent warnings *)
  let* silent := firsts (arg_silent arguments) in
  modify (set_silent_warnings (fun l => l ++ silent));;;
  (* version and help *)
  when (arg_version arguments)
    (print_and_exit (PREPROCESSOR_NAME +:+ " version "
                     +:+ PREPROCESSOR_VERSION));;;
  match arg_help arguments with
  | Some h => let* p := get (fun p => p) in print_and_exit (get_help p h)
  | None => ret tt
  end.

End Options.

End Main.

(* ===================================================================== *)
(** ** Notions the statements use *)
(* ===================================================================== *)

(** The value of a string of decimal digits, by position. *)
Fixpoint dec_value (s : string) : Z :=
  match s with
  | EmptyString => 0
  | String c s' => (Py.ord c - 48) * 10 ^ Py.len s' + dec_value s'
  end.

(** A positive integer in decimal notation, and its value. *)
Definition positive_integer (s : string) : option Z :=
  if negb (Py.is_empty s) && Py.forallb_str Py.isdecimal s && (0 <? dec_value s)
  then Some (dec_value s) else None.

(** The concatenation of a list of strings, in order. *)
Definition concat_all (l : list string) : string := foldr String.append "" l.

(** The state a handler hands to the nested parse of its body: the frame
    of the body is on the context stack. *)
Definition body_state (desc : string) (p : Preprocessor) : Preprocessor :=
  set_context
    (cons {| source_name := top_source p;
             base_offset := end_ (current_position p);
             description := desc |}) p.

Definition repeat_usage : string := "invalid argument. Usage: repeat [uint > 0]".

(** The state in which [send_error] leaves the preprocessor: the error
    is in the log, with the trace of the moment. *)
Definition errored (msg : string) (p : Preprocessor) : Preprocessor :=
  set_log (fun l => l ++ [mk_event error msg p]) p.

(** A string of decimal digits, at least one. *)
Definition decimal (s : string) : bool :=
  negb (Py.is_empty s) && Py.forallb_str Py.isdecimal s.

(** The character SUPERSCRIPT TWO, which [isnumeric] accepts and [int]
    refuses. *)
Definition superscript_two : string := String (ascii_of_nat 178) EmptyString.

(** The identifier and the source text that the header of a for block
    gives, from the match of the header pattern. *)
Definition for_ident (args : string) (m : Re.Match) : string :=
  default "" (Re.group args m 1).

Definition for_source (args : string) (m : Re.Match) : string :=
  Py.strip (Py.slice_from args (Re.m_end m)).

(** One iteration of a for block as it ran: the state the body was parsed
    in, what the parse returned, and the state it left. *)
Record Iteration : Type := {
  iteration_pre : Preprocessor;
  iteration_output : string;
  iteration_post : Preprocessor
}.

(** The state in which the body is parsed for the value [v]: the loop
    identifier is registered for [v] and the frame of the body is pushed. *)
Definition iteration_state (ident v : string) (p : Preprocessor)
    : Preprocessor :=
  body_state "in for block" (set_commands (insert ident (for_cmd ident v)) p).

(** A run of the loop over [values] in which every parse of the body
    returned: the iterations in order, from the state [p] to the state [p']. *)
Inductive for_run (parse : string -> M string) (ident contents : string)
    : list string -> Preprocessor -> list Iteration -> Preprocessor -> Prop :=
| for_run_nil p : for_run parse ident contents [] p [] p
| for_run_cons v vs p r p1 p2 tr p' :
    parse contents (iteration_state ident v p) = Ok r p1 ->
    context_pop p1 = Ok tt p2 ->
    for_run parse ident contents vs p2 tr p' ->
    for_run parse ident contents (v :: vs) p
      ({| iteration_pre := iteration_state ident v p;
          iteration_output := r; iteration_post := p1 |} :: tr) p'.

(** The warning [fnl_atlabel] sends for a label without occurrence. *)
Definition no_matching_label (lbl : string) : string :=
  "No matching label for atlabel block " +:+ dq +:+ lbl +:+ dq.

(** The state after one warning was reported for each label of [lbls], in
    order, and nothing else happened. *)
Definition warned (lbls : list string) (p : Preprocessor) : Preprocessor :=
  set_log (fun l => l ++ ((fun lbl => mk_event warning (no_matching_label lbl) p)
                          <$> lbls)) p.

(** The labels of [lbls] that have no recorded occurrence, in order, and
    the warning that the finalisation reports for one of them. *)
Definition unmatched_labels (p : Preprocessor) (lbls : list string)
    : list string :=
  List.filter (fun lbl => Nat.eqb (length (get_label p lbl)) 0) lbls.

Definition no_label_warning (p : Preprocessor) (lbl : string) : Event :=
  {| severity := warning; message := no_matching_label lbl;
     trace := context p |}.

(** What the finalisation needs of [replace_string], which is not among
    the sources: when it returns, it has left the log, the context stack,
    the warning mode and the command variables alone, and every label has
    as many recorded occurrences as before; and it returns. *)
Definition keeps_counts (p p' : Preprocessor) : Prop :=
  log p' = log p
  /\ context p' = context p
  /\ warning_mode p' = warning_mode p
  /\ command_vars p' = command_vars p
  /\ forall lbl, length (get_label p' lbl) = length (get_label p lbl).

Definition replacement_frame {ext : Externals} : Prop :=
  forall a b s r t p s' p',
    replace_string a b s r t p = Ok s' p' -> keeps_counts p p'.

Definition replacement_returns {ext : Externals} : Prop :=
  forall a b s r t p, exists s' p', replace_string a b s r t p = Ok s' p'.

(** The snapshot of the context that a cut block takes. *)
Definition cut_frame (p : Preprocessor) : option ContextFrame :=
  match context p with
  | fr :: _ => Some (frame_copy fr (end_ (current_position p)) "in pasted block")
  | [] => None
  end.

(** What a cut block stores for its body, and the state after that: the
    body as it is, or, with [--pre-render], what the nested parse returned. *)
Inductive cut_rendered (parse : string -> M string) (a : CutArguments)
    (contents : string) (p : Preprocessor) : string -> Preprocessor -> Prop :=
| cut_raw :
    pre_render a = false -> cut_rendered parse a contents p contents p
| cut_pre_rendered r p1 p2 :
    pre_render a = true ->
    parse contents (body_state "in cut block" p) = Ok r p1 ->
    context_pop p1 = Ok tt p2 ->
    cut_rendered parse a contents p r p2.

(** The assignment to the clipboard entry [name]. *)
Definition store_cut (name : string) (entry : ContextFrame * string)
    (v : CommandVars) : CommandVars :=
  match clipboard v with
  | None => set_clipboard (Some {[ name := entry ]}) v
  | Some c => set_clipboard (Some (<[ name := entry ]> c)) v
  end.

(** The clipboard entry under [name], if any. *)
Definition clipboard_entry (p : Preprocessor) (name : string)
    : option (ContextFrame * string) :=
  c ← clipboard (command_vars p); c !! name.

(** The error of a second atlabel block for a label. *)
Definition multiple_atlabel (lbl : string) : string :=
  "Multiple atlabel blocks with same label " +:+ dq +:+ lbl +:+ dq.

(** The state after the check of [blck_atlabel]: the at-label dictionary
    exists. *)
Definition with_atlabel_dict (p : Preprocessor) : Preprocessor :=
  match atlabel (command_vars p) with
  | Some _ => p
  | None => set_command_vars (set_atlabel (Some [])) p
  end.

(** The label is free in the at-label store. *)
Definition label_free (p : Preprocessor) (lbl : string) : Prop :=
  match atlabel (command_vars p) with
  | Some d => Dict.mem lbl d = false
  | None => True
  end.

(** *** Nesting of if blocks among the tokens of a text *)

Section IfNesting.

Context {ext : Externals}.
Variables (p : Preprocessor) (string_ : string).

Definition tail_of (t : Token) : string := Py.slice_from string_ (tok_end t).

(** An open token that starts an if directive. *)
Definition opens_if (t : Token) : bool :=
  is_open (tok_kind t)
  && matches (re_flags p) (if_regex (token_end p)) (tail_of t).

(** An open token that starts an endif directive. *)
Definition closes_if (t : Token) : bool :=
  is_open (tok_kind t) && negb (opens_if t)
  && matches (re_flags p) (endif_regex (token_endblock p) (token_end p))
       (tail_of t).

(** An open token that starts an else, or an elif, directive. *)
Definition starts_else (t : Token) : bool :=
  is_open (tok_kind t) && negb (opens_if t) && negb (closes_if t)
  && matches (re_flags p) (else_regex (token_end p)) (tail_of t).

Definition starts_elif (t : Token) : bool :=
  is_open (tok_kind t) && negb (opens_if t) && negb (closes_if t)
  && negb (starts_else t)
  && matches (re_flags p) (elif_regex (token_end p)) (tail_of t).

(** The nesting depth after the tokens [ts]: the number of if directives
    opened minus the number of endif directives. *)
Fixpoint if_depth (ts : list Token) : Z :=
  match ts with
  | [] => 0
  | t :: ts' =>
      (if opens_if t then 1 else if closes_if t then -1 else 0) + if_depth ts'
  end.

(** The token of index [i] is an else or an elif at nesting depth zero. *)
Definition boundary_at (tokens : list Token) (i : nat) : Prop :=
  exists t, tokens !! i = Some t
            /\ (starts_else t || starts_elif t) = true
            /\ if_depth (take i tokens) = 0.

End IfNesting.

(** What a call of [find_elifs_and_else] that returned has found, among
    [tokens]: either the sentinel, and then no token is a boundary; or the
    first boundary, with [begin] the offset of its token, and arguments
    exactly when it is an elif.  The call leaves the preprocessor as it
    was. *)
Definition found_boundary {ext : Externals} (preproc : Preprocessor)
    (string_ : string) (tokens : list Token) (p : Preprocessor)
    (r : Z * Z * option string) (p' : Preprocessor) : Prop :=
  p' = p
  /\ ((r = (-1, -1, None)
       /\ forall j, ~ boundary_at preproc string_ tokens j)
      \/ exists i t,
           tokens !! i = Some t /\ tok_begin t = fst (fst r)
           /\ boundary_at preproc string_ tokens i
           /\ (forall j, (j < i)%nat -> ~ boundary_at preproc string_ tokens j)
           /\ (snd r = None <-> starts_else preproc string_ t = true)).

(** The branch that the open token [t], of index [i] among [tokens],
    starts in the text.  An else directive: the branch starts with the
    token and its body starts where the directive ends.  An elif
    directive: the branch starts with the token, its body starts after the
    close token that matches [t], and its argument text is the text
    between the end of the word [elif] and the start of that close
    token.  [None] when [t] starts neither, or when no close token
    matches. *)
Definition branch_of {ext : Externals} (preproc : Preprocessor)
    (string_ : string) (tokens : list Token) (i : nat) (t : Token)
    : option (Z * Z * option string) :=
  let tail := Py.slice_from string_ (tok_end t) in
  match Re.match_ (re_flags preproc) (else_regex (token_end preproc)) tail with
  | Some m => Some (tok_begin t, tok_end t + Re.m_end m, None)
  | None =>
      match Re.match_ (re_flags preproc) (elif_regex (token_end preproc)) tail
      with
      | Some m =>
          match tokens
                !! find_matching_close_parenthese (parenthese_of tokens) i with
          | Some tj =>
              Some (tok_begin t, tok_end tj,
                    Some (Py.slice string_
                            (tok_end t + default (-1) (Re.end_ m 1))
                            (tok_begin tj)))
          | None => None
          end
      | None => None
      end
  end.

(** *** The chain of branches of an if block *)

(** Two preprocessors with the same delimiters and the same flags: they
    read the same tokens and the same directives in a text. *)
Definition same_lexer (p q : Preprocessor) : Prop :=
  token_begin p = token_begin q /\ token_end p = token_end q
  /\ token_endblock p = token_endblock q /\ re_flags p = re_flags q.

(** A branch after the first: the offset in the contents where its elif or
    else directive starts, the offset where its body starts, and the
    argument text of the elif ([None] for an else). *)
Record Branch : Type := {
  br_begin : Z;
  br_body : Z;
  br_args : option string
}.

(** The branches that follow the offset [pos] of the contents, in order, as
    [find_elifs_and_else] finds them one after the other with the
    delimiters of [p0]. *)
Inductive if_chain {ext : Externals} (p0 : Preprocessor) (contents : string)
    : Z -> list Branch -> Prop :=
| if_chain_end pos e a :
    find_elifs_and_else (Py.slice_from contents pos) p0 = Ok (-1, e, a) p0 ->
    if_chain p0 contents pos []
| if_chain_next pos b e a rest :
    find_elifs_and_else (Py.slice_from contents pos) p0 = Ok (b, e, a) p0 ->
    b <> -1 ->
    if_chain p0 contents (pos + e) rest ->
    if_chain p0 contents pos
      ({| br_begin := pos + b; br_body := pos + e; br_args := a |} :: rest).

(** The branches [brs] read in the text: from the offset [pos], the
    first else or elif at nesting depth zero among the tokens of the rest
    of the contents starts the first branch, with the extent and the
    argument text that [branch_of] reads there, and the branches after it
    are read from the start of its body; after the last branch no token
    is an else or an elif at depth zero (or the first one is a token
    whose offset is [-1], which the block takes for the sentinel). *)
Fixpoint chain_in_text {ext : Externals} (p0 : Preprocessor)
    (contents : string) (pos : Z) (brs : list Branch) : Prop :=
  let string_ := Py.slice_from contents pos in
  let tokens := _find_tokens (token_begin p0) (token_end p0) string_ in
  match brs with
  | [] =>
      (forall j, ~ boundary_at p0 string_ tokens j)
      \/ exists i t,
           tokens !! i = Some t
           /\ boundary_at p0 string_ tokens i
           /\ (forall j, (j < i)%nat -> ~ boundary_at p0 string_ tokens j)
           /\ tok_begin t = -1
  | br :: rest =>
      (exists i t,
         tokens !! i = Some t
         /\ boundary_at p0 string_ tokens i
         /\ (forall j, (j < i)%nat -> ~ boundary_at p0 string_ tokens j)
         /\ branch_of p0 string_ tokens i t
            = Some (br_begin br - pos, br_body br - pos, br_args br))
      /\ chain_in_text p0 contents (br_body br) rest
  end.

(** Where the body of a branch ends: at the next branch, or with the
    contents. *)
Definition branch_end (contents : string) (rest : list Branch) : Z :=
  match rest with
  | br :: _ => br_begin br
  | [] => Py.len contents
  end.

Section IfSelect.

Context {ext : Externals}.
Variable parse : string -> M string.

(** The parse of the body of the branch that was chosen. *)
Definition parse_branch (contents : string) (pos_0 : Z) (desc : string)
    (rest : list Branch) : M string :=
  let* cur := get (fun p => end_ (current_position p)) in
  context_update (pos_0 + cur) desc;;;
  let* parsed := parse (Py.slice contents pos_0 (branch_end contents rest)) in
  context_pop;;;
  ret parsed.

(** The condition of an elif: its argument text is parsed, then what the
    parse returned is evaluated. *)
Definition elif_condition (br : Branch) (a : string) : M bool :=
  let* cur := get (fun p => end_ (current_position p)) in
  context_update (br_begin br + cur) "in elif evaluation";;;
  let* args := parse a in
  context_pop;;;
  condition_eval args.

(** The choice among the branches, left to right.  [value] is the
    condition of the branch whose body starts at [pos_0]; [rest] holds the
    branches after it.  The first branch whose condition holds has its body
    parsed and returned; an else holds; when [rest] is exhausted the result
    is the empty string. *)
Fixpoint select_branch (contents : string) (value : bool) (pos_0 : Z)
    (desc : string) (rest : list Branch) : M string :=
  if value then parse_branch contents pos_0 desc rest
  else
    match rest with
    | [] => ret ""
    | br :: rest' =>
        match br_args br with
        | None => select_branch contents true (br_body br) "in else" rest'
        | Some a =>
            let* value := elif_condition br a in
            select_branch contents value (br_body br) "in elif" rest'
        end
    end.

End IfSelect.

(** A computation that, when it returns, leaves the delimiters and the
    flags as they were. *)
Definition keeps_lexer {A : Type} (c : M A) : Prop :=
  forall p a p', c p = Ok a p' -> same_lexer p' p.

(** The description of the frame of a branch body. *)
Definition branch_desc (br : Branch) : string :=
  match br_args br with
  | None => "in else"
  | Some _ => "in elif"
  end.

(** The conditions of the branches [brs] are evaluated in order from the
    state [p]; [chooses] stops at the first branch that holds, an elif
    whose condition is true or an else, with the branches after it and the
    state reached; [conditions_fail] says that every branch is an elif whose
    condition is false. *)
Inductive chooses {ext : Externals} (parse : string -> M string)
    : list Branch -> Preprocessor -> Branch -> list Branch -> Preprocessor
      -> Prop :=
| chooses_else br rest p :
    br_args br = None -> chooses parse (br :: rest) p br rest p
| chooses_elif br a rest p q :
    br_args br = Some a ->
    elif_condition parse br a p = Ok true q ->
    chooses parse (br :: rest) p br rest q
| chooses_later br a rest p q br' rest' q' :
    br_args br = Some a ->
    elif_condition parse br a p = Ok false q ->
    chooses parse rest q br' rest' q' ->
    chooses parse (br :: rest) p br' rest' q'.

Inductive conditions_fail {ext : Externals} (parse : string -> M string)
    : list Branch -> Preprocessor -> Preprocessor -> Prop :=
| conditions_fail_nil p : conditions_fail parse [] p p
| conditions_fail_cons br a rest p q p' :
    br_args br = Some a ->
    elif_condition parse br a p = Ok false q ->
    conditions_fail parse rest q p' ->
    conditions_fail parse (br :: rest) p p'.

(** *** A command that expands to itself *)

Definition self_text : string := "{%foo%}".

Definition recursion_message : string := "maximum recursion depth exceeded".

(** The preprocessor has the default delimiters and [foo] is registered as
    a command that expands to the directive [foo]. *)
Definition self_expanding (p : Preprocessor) : Prop :=
  token_begin p = "{%" /\ token_end p = "%}"
  /\ commands p !! "foo" = Some (cmd_macro self_text).

(** The state in which the handler of the directive [foo] of [self_text]
    runs. *)
Definition in_foo (p : Preprocessor) : Preprocessor :=
  set_context
    (cons {| source_name :=
               top_source (set_current_position {| begin_ := 0; end_ := 7 |} p);
             base_offset := 0;
             description := "in foo" |})
    (set_current_position {| begin_ := 0; end_ := 7 |} p).

(** The call was not accepted: it did not return. *)
Definition rejected {A : Type} (o : Outcome A) : Prop :=
  match o with
  | Ok _ _ => False
  | _ => True
  end.

(** The message of [process_options] for a recursion depth below [-1]. *)
Definition recursion_option_message : string :=
  "argument --recusion-depth/-r: number must be greater than -1".

(** The states of [process_options] around [process_defines]: the
    preprocessor with the commands [input] and [output], and, from the state
    [q] the defines left, the preprocessor with its include path. *)
Definition with_io_commands (arguments : Main.Namespace) (p : Preprocessor)
    : Preprocessor :=
  set_commands
    (<[ "output" := cmd_lambda (Main.arg_output arguments)
                      "Prints name of output file" ]>)
    (set_commands
       (<[ "input" := cmd_lambda (Main.arg_input arguments)
                        "Prints name of input file" ]>) p).

Definition with_include_path (abspath dirname : string -> string)
    (arguments : Main.Namespace) (q : Preprocessor) : Preprocessor :=
  set_include_path
    ([inl (abspath ""); inl (dirname (abspath (Main.arg_input arguments)));
      inl (dirname (abspath (Main.arg_output arguments)))]
     ++ (inr <$> Main.arg_include arguments)) q.

(** A preprocessor in which [foo] expands to itself, for the maximum depth
    [d], and the command line that asks for the recursion depth [r]. *)
Definition self_state (d : Z) : Preprocessor :=
  set_commands (insert "foo" (cmd_macro self_text)) (initial "f" d).

Definition depth_arguments (r : Z) : Main.Namespace :=
  {| Main.arg_begin := None; Main.arg_end := None;
     Main.arg_warnings := None; Main.arg_version := false;
     Main.arg_output := "out"; Main.arg_help := None;
     Main.arg_define := []; Main.arg_include := []; Main.arg_silent := [];
     Main.arg_recursion_depth := Some [r]; Main.arg_input := "in" |}.

(** *** What a handler leaves alone *)

(** However the computation ends, the state it ends in is related by [R]
    to the state it started in. *)
Definition ends_related {A : Type} (R : Preprocessor -> Preprocessor -> Prop)
    (c : M A) : Prop :=
  forall p p', state_of (c p) = Some p' -> R p p'.

(** The two states agree on [f], an attribute of the preprocessor or a
    combination of attributes. *)
Definition same_on {B : Type} (f : Preprocessor -> B) (p p' : Preprocessor)
    : Prop :=
  f p' = f p.

(** A computation that returns with the context stack it was started
    with.  [returns_with c Q s] says more generally that [c], started with
    the stack [s], returns with a stack that satisfies [Q]. *)
Definition balanced {A : Type} (c : M A) : Prop :=
  forall p a p', c p = Ok a p' -> context p' = context p.

Definition returns_with {A : Type} (c : M A)
    (Q : list ContextFrame -> Prop) (s : list ContextFrame) : Prop :=
  forall p a p', context p = s -> c p = Ok a p' -> Q (context p').

(** The configuration of a run: the delimiters, the flags, the recursion
    limit, the warning mode and the search path. *)
Definition settings (p : Preprocessor)
    : string * string * string * Re.flags * Z * WarningMode * list string
      * list (string + list string) :=
  (token_begin p, token_end p, token_endblock p, re_flags p,
   max_recursion_depth p, warning_mode p, silent_warnings p, include_path p).

(** *** The simple blocks *)

(** The check of the arguments of a block that takes none, from the state
    [p]: the state in which the block goes on, or [None] when the warning
    is promoted to an error.  Arguments that are blank cost nothing. *)
Definition argument_check (msg args : string) (p : Preprocessor)
    : option Preprocessor :=
  if str_eqb (Py.strip args) "" then Some p
  else match warning_mode p with
       | PRINT => Some (set_log (fun l => l ++ [mk_event warning msg p]) p)
       | HIDE => Some p
       | AS_ERROR => None
       end.

(** The state in which a warning that is printed leaves the
    preprocessor. *)
Definition warned_with (msg : string) (p : Preprocessor) : Preprocessor :=
  set_log (fun l => l ++ [mk_event warning msg p]) p.

(** The warning of a loop identifier that is given arguments. *)
Definition extra_arguments (ident : string) : string :=
  "Extra arguments." +:+ nl +:+ "The command " +:+ ident
  +:+ " defined in for loop takes no arguments".

(** The parse of a body in its frame: the frame is pushed at the end of the
    current directive, the body is parsed, the frame is popped, and [k]
    makes the result of the block from what the parse returned. *)
Definition in_body (parse : string -> M string) (desc contents : string)
    (k : string -> string) : M string :=
  let* pos := get (fun p => end_ (current_position p)) in
  context_update pos desc;;;
  let* r := parse contents in
  context_pop;;;
  ret (k r).

(** *** The search for the next branch: how it ends *)

(** A continuation of the matcher that, when it accepts, accepts at or
    after the position it was called at. *)
Definition advances (k : Re.K) : Prop :=
  forall prev s pos g m, k prev s pos g = Some m -> pos <= Re.m_end m.

(** The state in which [find_elifs_and_else] reports an elif whose
    directive is not closed: the frame of the elif, at the offset [b] of its
    open token, is on the stack [q] had, and the error is in the log with
    that stack as its trace.  [preproc] is the preprocessor the delimiters
    of the message are read from. *)
Definition elif_error_state (preproc q : Preprocessor) (b : Z) : Preprocessor :=
  let q' := set_context
              (cons {| source_name := top_source q;
                       base_offset := b + end_ (current_position q);
                       description := "in elif" |}) q in
  set_log (fun l => l ++ [mk_event error (unmatched_elif_message preproc) q']) q'.

(** The tokens of a text lie in the text and are not empty at its start:
    what the termination of the if block needs of the scanner. *)
Definition tokens_in_text {ext : Externals} : Prop :=
  forall tb te s t,
    t ∈ _find_tokens tb te s -> 0 < tok_end t /\ tok_end t <= Py.len s.

(** The index that [find_matching_close_parenthese] returns for an index
    of the list is an index of the list or its length. *)
Definition close_in_range {ext : Externals} : Prop :=
  forall l i, (i < length l)%nat ->
              (find_matching_close_parenthese l i <= length l)%nat.

(** *** The command line *)

(** What [process_defines] makes of one define: the name it registers,
    which is the first character of the define, the text of its [doc], and
    whether the define is accepted.  A define without a string, and the
    empty define, have no first character. *)
Definition define_name (d : option string) : string :=
  match d with
  | Some (String c _) => String c EmptyString
  | _ => EmptyString
  end.

Definition define_doc (name : string) : string :=
  "Command line defined command " +:+ name +:+ "=".

Definition valid_define (d : option string) : bool :=
  match d with
  | Some (String c _) => Main.xid_start c
  | _ => false
  end.

(** The registry after the defines [defines] were registered, in order. *)
Definition register_defines (defines : list (option string))
    (cs : gmap string Command) : gmap string Command :=
  foldl (fun cs d =>
           <[ define_name d := cmd_lambda "" (define_doc (define_name d)) ]> cs)
        cs defines.

(** The defines before the first one that is not accepted, and that
    one. *)
Fixpoint accepted_defines (defines : list (option string))
    : list (option string) :=
  match defines with
  | [] => []
  | d :: defines' =>
      if valid_define d then d :: accepted_defines defines' else []
  end.

Fixpoint first_refused (defines : list (option string))
    : option (option string) :=
  match defines with
  | [] => None
  | d :: defines' => if valid_define d then first_refused defines' else Some d
  end.

(** The name that the loop reads in the first character [c] of a
    define. *)
Definition name_read (c : ascii) : string :=
  if Ascii.eqb c "=" then "" else String c "".

Definition invalid_define_message (name : string) : string :=
  "argument --define/-d/-D: invalid define name " +:+ dq +:+ name +:+ dq.

(** How [process_defines] ends in the state [q], from the first define
    that is not accepted: without one it returns; a define without a
    string and the empty define raise at the subscript; the others are
    reported by the parser, and the process exits with status 2. *)
Definition defines_end (defines : list (option string)) (q : Preprocessor)
    : Outcome unit :=
  match first_refused defines with
  | None => Ok tt q
  | Some None => Raised "TypeError" q
  | Some (Some EmptyString) => Raised "IndexError" q
  | Some (Some (String c _)) =>
      Exited 2 (invalid_define_message (name_read c)) q
  end.

(** The warning mode that the option [--warnings] selects. *)
Definition warning_mode_of (w : option string) : WarningMode :=
  match w with
  | Some w => if str_eqb w "hide" then HIDE
              else if str_eqb w "error" then AS_ERROR else PRINT
  | None => PRINT
  end.

(** The text that [--version] prints. *)
Definition version_text (name version : string) : string :=
  name +:+ " version " +:+ version.

(** A computation of the command line that sends no error of the
    preprocessor: it returns, it exits with a status and an output that
    satisfy [P], or it ends in an exception that satisfies [E]. *)
Definition ends_as {A : Type} (P : Z -> string -> Prop) (E : string -> Prop)
    (c : M A) : Prop :=
  forall p,
    match c p with
    | Ok _ _ => True
    | Exited st out _ => P st out
    | Raised e _ => E e
    | Fatal _ _ => False
    | OutOfFuel => False
    end.

(** The exits of [process_options]: status 2 for a define or a recursion
    depth that is refused, status 0 for the version, or else for the help. *)
Definition options_exit (get_help : Preprocessor -> string -> string)
    (name version : string) (arguments : Main.Namespace)
    (st : Z) (out : string) : Prop :=
  (st = 2 /\ (out = recursion_option_message
              \/ exists n, out = invalid_define_message n))
  \/ (st = 0
      /\ ((Main.arg_version arguments = true
           /\ out = version_text name version)
          \/ (Main.arg_version arguments = false
              /\ exists h q, Main.arg_help arguments = Some h
                             /\ out = get_help q h))).

(** The exceptions of [process_options], for a namespace with the names
    of its two files: the subscript of a define without a string, and the
    subscript of an empty define or of an empty list. *)
Definition options_exception (arguments : Main.Namespace) (e : string)
    : Prop :=
  (e = "TypeError" /\ In None (Main.arg_define arguments))
  \/ (e = "IndexError"
      /\ (In (Some "") (Main.arg_define arguments)
          \/ In [] (Main.arg_silent arguments)
          \/ Main.arg_recursion_depth arguments = Some [])).

(** The states of [process_options] after the recursion depth and after
    the delimiters were read. *)
Definition with_recursion_depth (arguments : Main.Namespace) (q : Preprocessor)
    : Preprocessor :=
  match Main.arg_recursion_depth arguments with
  | Some (r :: _) => set_max_recursion_depth r q
  | _ => q
  end.

Definition with_delimiters (arguments : Main.Namespace) (q : Preprocessor)
    : Preprocessor :=
  let q := match Main.arg_begin arguments with
           | Some b => set_token_begin b q
           | None => q
           end in
  match Main.arg_end arguments with
  | Some e => set_token_end e q
  | None => q
  end.

(** *** The placement of an atlabel content *)

(** The string [s] with [c] inserted at the offset [o]. *)
Definition insert_at (o : Z) (c s : string) : string :=
  Py.slice_to s o +:+ c +:+ Py.slice_from s o.

(** What [fnl_atlabel] needs of [replace_string] for an insertion: the
    replacement is inserted at the offset, and every recorded label offset
    at or after it moves by the length of the replacement. *)
Definition inserts_and_shifts {ext : Externals} : Prop :=
  forall a s r p,
    replace_string a a s r [] p
    = Ok (insert_at a r s)
        (set_labels (fun ls : gmap string (list Z) =>
           (fun os : list Z =>
              (fun o => if a <=? o then o + Py.len r else o) <$> os) <$> ls) p).

(** Offsets in ascending order, equal offsets allowed. *)
Fixpoint ascending (l : list Z) : Prop :=
  match l with
  | [] => True
  | o :: l' => Forall (Z.le o) l' /\ ascending l'
  end.

(* ===================================================================== *)
(** ** Basic facts *)
(* ===================================================================== *)

Lemma len_String c s : Py.len (String c s) = Py.len s + 1.
Proof. unfold Py.len. simpl String.length. lia. Qed.

Lemma len_nonneg s : 0 <= Py.len s.
Proof. unfold Py.len. lia. Qed.

Lemma int_acc_value s : forall acc,
  Py.forallb_str Py.isdecimal s = true ->
  Py.int_acc acc s = Some (acc * 10 ^ Py.len s + dec_value s).
Proof.
  induction s as [|c s IH]; intros acc H; simpl in *.
  - f_equal. unfold Py.len. simpl. lia.
  - apply andb_true_iff in H as [Hc Hs]. rewrite Hc, (IH _ Hs).
    f_equal. rewrite len_String, Z.pow_add_r by (pose proof (len_nonneg s); lia).
    ring.
Qed.

Lemma int_acc_not_decimal s : forall acc,
  Py.forallb_str Py.isdecimal s = false -> Py.int_acc acc s = None.
Proof.
  induction s as [|c s IH]; intros acc H; simpl in *; [discriminate|].
  destruct (Py.isdecimal c); simpl in H; [auto|reflexivity].
Qed.

Lemma isnumeric_of_decimal s :
  Py.forallb_str Py.isdecimal s = true ->
  Py.forallb_str Py.isnumeric_char s = true.
Proof.
  induction s as [|c s IH]; simpl; [reflexivity|].
  intros H. apply andb_true_iff in H as [Hc Hs].
  rewrite (IH Hs). unfold Py.isnumeric_char. rewrite Hc. reflexivity.
Qed.

Lemma app_empty_r_str s : s +:+ "" = s.
Proof.
  induction s as [|c s IH]; [reflexivity|].
  change (String c (s +:+ "") = String c s). f_equal. exact IH.
Qed.

Lemma app_assoc_str a b c : (a +:+ b) +:+ c = a +:+ (b +:+ c).
Proof.
  induction a as [|x a IH]; [reflexivity|].
  change (String x ((a +:+ b) +:+ c) = String x (a +:+ b +:+ c)).
  f_equal. exact IH.
Qed.

Lemma Forall2_last {A B : Type} (P : A -> B -> Prop) (l : list A) (k : list B) t :
  Forall2 P l k -> last k = Some t -> exists v, last l = Some v /\ P v t.
Proof.
  induction 1 as [|x y l k Hxy Hlk IH]; intros Ht; [discriminate|].
  destruct k as [|y' k].
  - inversion Hlk; subst. simpl in Ht. injection Ht as <-.
    exists x. split; [reflexivity | exact Hxy].
  - destruct l as [|x' l]; [inversion Hlk|].
    destruct (IH Ht) as (v & Hv & HP). exists v. split; [exact Hv | exact HP].
Qed.

Lemma repeat_nat_copies r k : Py.repeat_nat r k = concat_all (replicate k r).
Proof.
  induction k as [|k IH]; [reflexivity|]. simpl. rewrite IH. reflexivity.
Qed.

Lemma mul_copies r n :
  - Py.maxsize - 1 <= n <= Py.maxsize ->
  Py.len r * n <= Py.maxsize ->
  Py.mul r n = Some (concat_all (replicate (Z.to_nat n) r)).
Proof.
  intros Hn Hlen. unfold Py.mul.
  replace (n <? - Py.maxsize - 1) with false by lia.
  replace (Py.maxsize <? n) with false by lia.
  replace (Py.maxsize <? Py.len r * n) with false by lia.
  cbn [orb]. rewrite repeat_nat_copies. reflexivity.
Qed.

Lemma mul_overflow r n :
  Py.maxsize < n \/ Py.maxsize < Py.len r * n ->
  Py.mul r n = None.
Proof.
  intros H. unfold Py.mul.
  destruct (n <? - Py.maxsize - 1); [reflexivity|].
  destruct (Py.maxsize <? n) eqn:E; [reflexivity|]. cbn [orb].
  destruct H as [H | H]; [apply Z.ltb_ge in E; lia|].
  replace (Py.maxsize <? Py.len r * n) with true by lia. reflexivity.
Qed.

Lemma argument_check_run msg args p :
  when (negb (str_eqb (Py.strip args) "")) (send_warning msg) p
  = match argument_check msg args p with
    | Some p0 => Ok tt p0
    | None => Fatal msg (set_log (fun l => l ++ [mk_event error msg p]) p)
    end.
Proof.
  unfold argument_check, when, send_warning, send_error.
  destruct (str_eqb (Py.strip args) ""); simpl; [reflexivity|].
  destruct (warning_mode p); reflexivity.
Qed.

Lemma checked_block_returns msg args (c : M string) p r p' :
  bind (when (negb (str_eqb (Py.strip args) "")) (send_warning msg))
       (fun _ => c) p = Ok r p'
  <-> exists p0, argument_check msg args p = Some p0 /\ c p0 = Ok r p'.
Proof.
  unfold bind. rewrite argument_check_run.
  destruct (argument_check msg args p) as [p0|].
  - split; [intros H; exists p0; auto|].
    intros (p1 & H1 & H2). inversion H1; subst. exact H2.
  - split; [discriminate | intros (p1 & H1 & _); discriminate H1].
Qed.

Lemma defined_value_run ident value args p :
  defined_value ident value args p
  = match argument_check (extra_arguments ident) args p with
    | Some p0 => Ok value p0
    | None => Fatal (extra_arguments ident) (errored (extra_arguments ident) p)
    end.
Proof.
  unfold defined_value, bind. fold (extra_arguments ident).
  rewrite argument_check_run.
  destruct (argument_check (extra_arguments ident) args p); reflexivity.
Qed.

(* ===================================================================== *)
(** ** Evaluations of the model *)
(* ===================================================================== *)

Example re_ws_lit :
  Re.match_ Re.no_flags (Re.Seq (Re.Star Re.space) (Re.Lit "else")) "  else %}"
  = Some {| Re.m_end := 6; Re.m_spans := [] |}.
Proof. reflexivity. Qed.

Example lexemes_ex :
  Model.lexemes "def foo and not (a==b)" = ["def"; "foo"; "and"; "not"; "("; "a"; "=="; "b"; ")"].
Proof. reflexivity. Qed.

Example find_tokens_ex :
  Model.find_tokens "{%" "%}" "a{% x %}b\{%c" = [(1, 3, OPEN); (6, 8, CLOSE)].
Proof. reflexivity. Qed.

Example split_args_ex :
  Model.split_args_from None false (" a  " +:+ dq +:+ "b c" +:+ dq +:+ " d") = ["a"; "b c"; "d"].
Proof. reflexivity. Qed.

Example cut_parse_ex :
  Model.cut_parse_args ["--pre"; "clip"]
  = Some {| pre_render := true; clipboard_name := "clip" |}
  /\ Model.cut_parse_args ["clip"; "-pp"]
     = Some {| pre_render := true; clipboard_name := "clip" |}
  /\ Model.cut_parse_args ["--"; "-x"]
     = Some {| pre_render := false; clipboard_name := "-x" |}
  /\ Model.cut_parse_args ["-1"]
     = Some {| pre_render := false; clipboard_name := "-1" |}
  /\ Model.cut_parse_args ["-x"] = None
  /\ Model.cut_parse_args ["--pre=x"] = None
  /\ Model.cut_parse_args ["a"; "b"] = None.
Proof. repeat split. Qed.

Example parse_repeat_ex :
  value_of (Interp.parse 5 "{% repeat 3 %}a{% endrepeat %}" (initial "f" 20))
  = Some "aaa".
Proof. vm_compute. reflexivity. Qed.

Example parse_for_ex :
  value_of (Interp.parse 5 "{% for x in range(3) %}{% x %},{% endfor %}" (initial "f" 20))
  = Some "0,1,2,".
Proof. vm_compute. reflexivity. Qed.

Example parse_if_ex :
  value_of (Interp.parse 5 "{% if def foo %}A{% elif 1 %}C{% else %}B{% endif %}{% if a == a %}x{% if 0 %}y{% else %}z{% endif %}{% else %}w{% endif %}" (initial "f" 20))
  = Some "Cxz".
Proof. vm_compute. reflexivity. Qed.

(* ===================================================================== *)
(** ** The repeat block *)
(* ===================================================================== *)

Lemma decimal_isnumeric s : decimal s = true -> Py.isnumeric s = true.
Proof.
  unfold decimal, Py.isnumeric. intros H. apply andb_true_iff in H as [He Hd].
  rewrite He, (isnumeric_of_decimal _ Hd). reflexivity.
Qed.

Lemma int_decimal s :
  decimal s = true ->
  (String.length s <= Py.int_max_str_digits)%nat ->
  Py.int s = Some (dec_value s).
Proof.
  unfold decimal, Py.int. intros H Hlen. apply andb_true_iff in H as [He Hd].
  apply negb_true_iff in He. rewrite He.
  destruct (Py.int_max_str_digits <? String.length s)%nat eqn:E;
    [apply Nat.ltb_lt in E; lia|].
  rewrite (int_acc_value _ _ Hd). reflexivity.
Qed.

Lemma int_not_decimal s : decimal s = false -> Py.int s = None.
Proof.
  unfold decimal, Py.int. intros H.
  destruct (Py.is_empty s); [reflexivity|].
  destruct (Py.int_max_str_digits <? String.length s)%nat; [reflexivity|].
  apply int_acc_not_decimal. exact H.
Qed.

Lemma int_too_long s :
  (Py.int_max_str_digits < String.length s)%nat -> Py.int s = None.
Proof.
  unfold Py.int. intros H. destruct (Py.is_empty s); [reflexivity|].
  apply Nat.ltb_lt in H. rewrite H. reflexivity.
Qed.

Lemma positive_integer_Some s n :
  positive_integer s = Some n ->
  decimal s = true /\ n = dec_value s /\ 0 < n.
Proof.
  unfold positive_integer, decimal.
  destruct (Py.is_empty s) eqn:He; simpl; [discriminate|].
  destruct (Py.forallb_str Py.isdecimal s) eqn:Hd; simpl; [|discriminate].
  destruct (0 <? dec_value s) eqn:Hv; [|discriminate].
  intros H. inversion H. split; [reflexivity|]. split; [reflexivity | lia].
Qed.

Section RepeatBlock.

Context {ext : Externals}.
Variable parse : string -> M string.

(** The block once its argument is read as the integer [n] above zero:
    one parse of the body, then the copies. *)
Lemma blck_repeat_positive args contents p n :
  positive_integer (Py.strip args) = Some n ->
  (String.length (Py.strip args) <= Py.int_max_str_digits)%nat ->
  blck_repeat parse args contents p =
  match parse contents (body_state "in block repeat" p) with
  | Ok r p1 =>
      match context_pop p1 with
      | Ok _ p2 =>
          match Py.mul r n with
          | Some copies => Ok copies p2
          | None => Raised "OverflowError" p2
          end
      | Fatal m p2 => Fatal m p2
      | Raised e p2 => Raised e p2
      | Exited st out p2 => Exited st out p2
      | OutOfFuel => OutOfFuel
      end
  | Fatal m p1 => Fatal m p1
  | Raised e p1 => Raised e p1
  | Exited st out p1 => Exited st out p1
  | OutOfFuel => OutOfFuel
  end.
Proof.
  intros H Hlen. apply positive_integer_Some in H as (Hd & -> & Hpos).
  unfold blck_repeat, bind, when.
  rewrite (decimal_isnumeric _ Hd), (int_decimal _ Hd Hlen). simpl.
  replace (dec_value (Py.strip args) <=? 0) with false by lia. simpl.
  fold (body_state "in block repeat" p).
  destruct (parse contents _) as [r p1| | | |]; try reflexivity.
  destruct (context_pop p1) as [[] p2| | | |]; try reflexivity.
  destruct (Py.mul r (dec_value (Py.strip args))); reflexivity.
Qed.

Lemma blck_repeat_not_numeric args contents p :
  Py.isnumeric (Py.strip args) = false ->
  blck_repeat parse args contents p
  = Fatal repeat_usage (errored repeat_usage p).
Proof.
  intros Hn. unfold blck_repeat, bind, when. rewrite Hn. reflexivity.
Qed.

Lemma blck_repeat_zero args contents p :
  decimal (Py.strip args) = true ->
  (String.length (Py.strip args) <= Py.int_max_str_digits)%nat ->
  dec_value (Py.strip args) = 0 ->
  blck_repeat parse args contents p
  = Fatal repeat_usage (errored repeat_usage p).
Proof.
  intros Hd Hlen Hv. unfold blck_repeat, bind, when.
  rewrite (decimal_isnumeric _ Hd), (int_decimal _ Hd Hlen), Hv. reflexivity.
Qed.

Lemma blck_repeat_value_error args contents p :
  Py.isnumeric (Py.strip args) = true ->
  decimal (Py.strip args) = false
  \/ (Py.int_max_str_digits < String.length (Py.strip args))%nat ->
  blck_repeat parse args contents p = Raised "ValueError" p.
Proof.
  intros Hn H. unfold blck_repeat, bind, when. rewrite Hn.
  replace (Py.int (Py.strip args)) with (@None Z); [reflexivity|].
  symmetry. destruct H as [H | H];
    [apply int_not_decimal | apply int_too_long]; exact H.
Qed.

End RepeatBlock.

(** C5.  The repeat block and its argument, stripped of white space.
    - A positive integer in decimal notation of value [n], within the
      bounds of Python (at most 4300 digits, [n] copies no longer than
      [sys.maxsize]): the body is parsed once, in the state where the
      frame of the body is pushed, and the block returns [n] copies of
      the one rendered result, in the state that single parse left, with
      the frame popped.  Through the interpreter, the block [repeat 3]
      around [a] yields [aaa].
    - An argument [isnumeric] refuses, such as [-1], the empty argument
      or a word: the fatal error of the usage, and the body is not
      parsed.  So it is for decimal digits of value zero, such as [0].
    - An argument [isnumeric] accepts and [int] refuses is NOT a fatal
      error: the block ends in the exception [ValueError], with nothing
      in the log.  So it is for a numeric character that is no decimal
      digit, such as SUPERSCRIPT TWO, and for more than 4300 digits.
    - A positive integer whose copies would be longer than [sys.maxsize]:
      the body is parsed, then the block ends in [OverflowError].
    The memory of the machine, which may run out before these bounds
    are met, is not modelled. *)
Theorem repeat_block_argument_and_copies :
  (forall (ext : Externals) (parse : string -> M string)
          (args contents : string) (p : Preprocessor)
          (n : Z) (r : string) (p1 p2 : Preprocessor),
      positive_integer (Py.strip args) = Some n ->
      (String.length (Py.strip args) <= Py.int_max_str_digits)%nat ->
      parse contents (body_state "in block repeat" p) = Ok r p1 ->
      context_pop p1 = Ok tt p2 ->
      (n <= Py.maxsize ->
       Py.len r * n <= Py.maxsize ->
       blck_repeat parse args contents p
       = Ok (concat_all (replicate (Z.to_nat n) r)) p2)
      /\ (Py.maxsize < n \/ Py.maxsize < Py.len r * n ->
          blck_repeat parse args contents p = Raised "OverflowError" p2))
  /\ (forall (ext : Externals) (parse : string -> M string)
             (args contents : string) (p : Preprocessor),
         Py.isnumeric (Py.strip args) = false
         \/ (decimal (Py.strip args) = true
             /\ (String.length (Py.strip args) <= Py.int_max_str_digits)%nat
             /\ dec_value (Py.strip args) = 0) ->
         blck_repeat parse args contents p
         = Fatal repeat_usage (errored repeat_usage p))
  /\ (forall (ext : Externals) (parse : string -> M string)
             (contents : string) (p : Preprocessor),
         blck_repeat parse "0" contents p
         = Fatal repeat_usage (errored repeat_usage p)
         /\ blck_repeat parse "-1" contents p
            = Fatal repeat_usage (errored repeat_usage p))
  /\ (forall (ext : Externals) (parse : string -> M string)
             (args contents : string) (p : Preprocessor),
         Py.isnumeric (Py.strip args) = true ->
         decimal (Py.strip args) = false
         \/ (Py.int_max_str_digits < String.length (Py.strip args))%nat ->
         blck_repeat parse args contents p = Raised "ValueError" p)
  /\ (forall (ext : Externals) (parse : string -> M string)
             (contents : string) (p : Preprocessor),
         blck_repeat parse superscript_two contents p = Raised "ValueError" p)
  /\ (forall fuel : nat,
         (3 <= fuel)%nat ->
         value_of (Interp.parse fuel "{%repeat 3%}a{%endrepeat%}" (initial "f" 20))
         = Some "aaa")
  /\ (forall fuel : nat,
         (3 <= fuel)%nat ->
         exists q,
           Interp.parse fuel
             ("{%repeat " +:+ superscript_two +:+ "%}a{%endrepeat%}")
             (initial "f" 20)
           = Raised "ValueError" q
           /\ log q = []).
Proof.
  split; [|split; [|split; [|split; [|split; [|split]]]]].
  - intros ext parse args contents p n r p1 p2 Hn Hlen Hparse Hpop.
    rewrite (blck_repeat_positive parse _ _ _ _ Hn Hlen), Hparse, Hpop.
    apply positive_integer_Some in Hn as (_ & _ & Hpos). split.
    + intros Hmax Hprod. rewrite mul_copies; [reflexivity | | exact Hprod].
      unfold Py.maxsize in *. lia.
    + intros H. rewrite (mul_overflow _ _ H). reflexivity.
  - intros ext parse args contents p [Hn | (Hd & Hlen & Hv)].
    + apply blck_repeat_not_numeric. exact Hn.
    + apply blck_repeat_zero; assumption.
  - intros ext parse contents p. split.
    + apply blck_repeat_zero; [reflexivity | vm_compute; lia | reflexivity].
    + apply blck_repeat_not_numeric. reflexivity.
  - intros ext parse args contents p Hn H.
    apply blck_repeat_value_error; assumption.
  - intros ext parse contents p. apply blck_repeat_value_error.
    + reflexivity.
    + left. reflexivity.
  - intros [|[|[|fuel]]] Hfuel; [lia | lia | lia |]. vm_compute. reflexivity.
  - intros [|[|[|fuel]]] Hfuel; [lia | lia | lia |].
    eexists. split; [vm_compute; reflexivity | reflexivity].
Qed.

Lemma repeat_block_argument_and_copies_witness :
  blck_repeat (Interp.parse 3) " 3 " "a" (initial "f" 20)
  = Ok (concat_all (replicate 3 "a")) (initial "f" 20)
  /\ blck_repeat (Interp.parse 3) " 000 " "a" (initial "f" 20)
     = Fatal repeat_usage (errored repeat_usage (initial "f" 20))
  /\ blck_repeat (Interp.parse 3)
       (" 1" +:+ superscript_two +:+ " ") "a" (initial "f" 20)
     = Raised "ValueError" (initial "f" 20).
Proof.
  split; [|split].
  - refine (proj1 (proj1 repeat_block_argument_and_copies Model.externals
              (Interp.parse 3) " 3 " "a" (initial "f" 20) 3 "a" _ _ _ _ _ _)
              _ _).
    + vm_compute. reflexivity.
    + vm_compute. lia.
    + vm_compute. reflexivity.
    + vm_compute. reflexivity.
    + vm_compute. discriminate.
    + vm_compute. discriminate.
  - refine (proj1 (proj2 repeat_block_argument_and_copies) Model.externals
              (Interp.parse 3) " 000 " "a" (initial "f" 20) _).
    right. split; [reflexivity|]. split; [vm_compute; lia | reflexivity].
  - refine (proj1 (proj2 (proj2 (proj2 repeat_block_argument_and_copies)))
              Model.externals (Interp.parse 3)
              (" 1" +:+ superscript_two +:+ " ") "a" (initial "f" 20) _ _).
    + reflexivity.
    + left. reflexivity.
Defined.

(* ===================================================================== *)
(** ** The for block *)
(* ===================================================================== *)

Section ForBlock.

Context {ext : Externals}.
Variable parse : string -> M string.

Lemma blck_for_header args contents p m :
  Re.match_ Re.no_flags for_regex args = Some m ->
  blck_for parse args contents p =
  bind (blck_for_iterator (for_source args m))
       (fun iterator => blck_for_loop parse (for_ident args m) iterator contents "") p.
Proof. intros H. unfold blck_for. rewrite H. reflexivity. Qed.

Lemma blck_for_loop_run ident contents values p tr p' :
  for_run parse ident contents values p tr p' ->
  forall acc,
    blck_for_loop parse ident values contents acc p
    = Ok (acc +:+ concat_all (iteration_output <$> tr)) p'.
Proof.
  induction 1 as [p | v vs p r p1 p2 tr p' Hparse Hpop Hrun IH]; intros acc.
  - simpl. unfold ret. f_equal. rewrite app_empty_r_str. reflexivity.
  - simpl. unfold bind at 1. simpl.
    unfold bind at 1. simpl. unfold bind at 1. simpl.
    unfold bind at 1. unfold iteration_state, body_state in Hparse. simpl in Hparse.
    rewrite Hparse. unfold bind at 1. rewrite Hpop.
    rewrite IH. f_equal. rewrite app_assoc_str. reflexivity.
Qed.

Lemma for_run_registered ident contents values p tr p' :
  for_run parse ident contents values p tr p' ->
  Forall2 (fun v t => commands (iteration_pre t) !! ident = Some (for_cmd ident v))
          values tr.
Proof.
  induction 1; constructor; [|assumption].
  simpl. apply lookup_insert_eq.
Qed.

Lemma context_pop_commands p p' :
  context_pop p = Ok tt p' -> commands p' = commands p.
Proof.
  unfold context_pop. destruct (context p); [discriminate|].
  intros [= <-]. reflexivity.
Qed.

Lemma for_run_last ident contents values p tr p' :
  for_run parse ident contents values p tr p' ->
  forall t, last tr = Some t -> commands p' = commands (iteration_post t).
Proof.
  induction 1 as [p | v vs p r p1 p2 tr p' Hparse Hpop Hrun IH]; intros t Ht.
  - discriminate.
  - destruct tr as [|t' tr].
    + simpl in Ht. injection Ht as <-. inversion Hrun; subst. simpl.
      eapply context_pop_commands; eassumption.
    + apply IH. exact Ht.
Qed.

Lemma for_run_lengths ident contents values p tr p' :
  for_run parse ident contents values p tr p' -> length values = length tr.
Proof. induction 1; simpl; congruence. Qed.

End ForBlock.

Section ForSource.

Context {ext : Externals}.

(** What the iterator of a range source is: the values of Python's
    [range], in order, each as [str] prints it. *)
Lemma blck_for_iterator_range rest p m stop :
  str_eqb (Py.slice rest 0 5) "range" = true ->
  Re.match_ Re.no_flags range_regex rest = Some m ->
  Re.group rest m 2 = Some stop ->
  let start := match Re.group rest m 1 with
               | Some g => to_integer g | None => 0 end in
  let step := match Re.group rest m 1, Re.group rest m 3 with
              | Some _, Some g => to_integer g | _, _ => 1 end in
  blck_for_iterator rest p =
  match Py.range start (to_integer stop) step with
  | Some vs => Ok (Py.str <$> vs) p
  | None => Raised "ValueError" p
  end.
Proof.
  intros Hr Hm Hs start step. subst start step.
  unfold blck_for_iterator. rewrite Hr, Hm, Hs.
  unfold bind, ret.
  destruct (Re.group rest m 1); [destruct (Re.group rest m 3)|];
    cbv beta iota zeta;
    match goal with |- context [Py.range ?a ?b ?c] =>
      destruct (Py.range a b c) end; reflexivity.
Qed.

Lemma blck_for_no_values (parse : string -> M string) args contents p m :
  Re.match_ Re.no_flags for_regex args = Some m ->
  blck_for_iterator (for_source args m) p = Ok [] p ->
  blck_for parse args contents p = Ok "" p.
Proof.
  intros Hm Hit. rewrite (blck_for_header parse _ _ _ _ Hm).
  unfold bind. rewrite Hit. reflexivity.
Qed.

End ForSource.

(** C6.  A for block whose header matches, whose source yields [values]
    and whose parses of the body all return runs one iteration per value,
    in order: the result is the concatenation of what the parses returned;
    at each iteration the loop identifier is registered as the command of
    the current value; and when the last parse of the body leaves that
    registration alone, the identifier is still registered after the
    loop, for the last value.  The command of a value returns that value
    whatever its arguments are: arguments that are not blank only add the
    warning [Extra arguments], which the warning mode may hide or turn
    into a fatal error.  For a range source the values are those of
    Python's [range], in order, printed in decimal.  Through the
    interpreter, [for x in range(3)] over the body [{%x%},] yields
    [0,1,2,] and leaves [x] registered for [2]; so does the body
    [{% x %},], without a warning; the body [{%x y%},] yields the values
    with one warning per iteration. *)
Theorem for_block_range_iterations :
  (forall (ext : Externals) (parse : string -> M string)
          (args contents : string) (p : Preprocessor) (m : Re.Match)
          (values : list string) (tr : list Iteration) (p' : Preprocessor),
      Re.match_ Re.no_flags for_regex args = Some m ->
      blck_for_iterator (for_source args m) p = Ok values p ->
      for_run parse (for_ident args m) contents values p tr p' ->
      blck_for parse args contents p
      = Ok (concat_all (iteration_output <$> tr)) p'
      /\ Forall2 (fun v t =>
                    commands (iteration_pre t) !! for_ident args m
                    = Some (for_cmd (for_ident args m) v)
                    /\ forall (a : string) (q : Preprocessor),
                         Interp.run_command parse
                           (for_cmd (for_ident args m) v) a q
                         = defined_value (for_ident args m) v a q
                         /\ defined_value (for_ident args m) v a q
                            = match argument_check
                                      (extra_arguments (for_ident args m)) a q
                              with
                              | Some q' => Ok v q'
                              | None =>
                                  Fatal (extra_arguments (for_ident args m))
                                    (errored
                                       (extra_arguments (for_ident args m)) q)
                              end)
                 values tr
      /\ (forall t, last tr = Some t ->
            commands (iteration_post t) !! for_ident args m
            = commands (iteration_pre t) !! for_ident args m ->
            exists v, last values = Some v
                      /\ commands p' !! for_ident args m
                         = Some (for_cmd (for_ident args m) v)))
  /\ (forall (ext : Externals) (rest : string) (p : Preprocessor)
             (m : Re.Match) (stop : string) (vs : list Z),
         str_eqb (Py.slice rest 0 5) "range" = true ->
         Re.match_ Re.no_flags range_regex rest = Some m ->
         Re.group rest m 2 = Some stop ->
         Py.range
           (match Re.group rest m 1 with Some g => to_integer g | None => 0 end)
           (to_integer stop)
           (match Re.group rest m 1, Re.group rest m 3 with
            | Some _, Some g => to_integer g | _, _ => 1 end) = Some vs ->
         blck_for_iterator rest p = Ok (Py.str <$> vs) p)
  /\ (forall fuel : nat,
         (4 <= fuel)%nat ->
         exists p',
           Interp.parse fuel "{%for x in range(3)%}{%x%},{%endfor%}" (initial "f" 20)
           = Ok "0,1,2," p'
           /\ commands p' !! "x" = Some (for_cmd "x" "2"))
  /\ (forall fuel : nat,
         (4 <= fuel)%nat ->
         (exists p',
            Interp.parse fuel "{% for x in range(3) %}{% x %},{% endfor %}"
              (initial "f" 20)
            = Ok "0,1,2," p'
            /\ log p' = [])
         /\ (exists p',
               Interp.parse fuel "{%for x in range(2)%}{%x y%},{%endfor%}"
                 (initial "f" 20)
               = Ok "0,1," p'
               /\ message <$> log p'
                  = [extra_arguments "x"; extra_arguments "x"])
         /\ (exists p',
               Interp.parse fuel "{%for x in range(2)%}{%x y%},{%endfor%}"
                 (set_warning_mode AS_ERROR (initial "f" 20))
               = Fatal (extra_arguments "x") p')).
Proof.
  split; [|split; [|split]].
  - intros ext parse args contents p m values tr p' Hm Hit Hrun.
    split; [|split].
    + rewrite (blck_for_header parse _ _ _ _ Hm). unfold bind. rewrite Hit.
      rewrite (blck_for_loop_run parse _ _ _ _ _ _ Hrun). reflexivity.
    + eapply Forall2_impl; [exact (for_run_registered parse _ _ _ _ _ _ Hrun)|].
      intros v t Hv. split; [exact Hv|]. intros a q.
      split; [reflexivity | apply defined_value_run].
    + intros t Ht Hkeep.
      pose proof (for_run_registered parse _ _ _ _ _ _ Hrun) as Hreg.
      pose proof (for_run_last parse _ _ _ _ _ _ Hrun t Ht) as Hlast.
      destruct (Forall2_last _ _ _ _ Hreg Ht) as (v & Hv & Hcmd).
      exists v. split; [exact Hv|].
      rewrite Hlast, Hkeep. exact Hcmd.
  - intros ext rest p m stop vs Hr Hm Hs Hrange.
    rewrite (blck_for_iterator_range rest p m stop Hr Hm Hs). simpl.
    rewrite Hrange. reflexivity.
  - intros [|[|[|[|fuel]]]] Hfuel; [lia | lia | lia | lia |].
    eexists. split; vm_compute; reflexivity.
  - intros [|[|[|[|fuel]]]] Hfuel; [lia | lia | lia | lia |].
    split; [|split]; eexists; try split; vm_compute; reflexivity.
Qed.

Lemma for_block_range_iterations_witness :
  exists p',
    blck_for (ext := Model.externals) (Interp.parse 3) " x in range(3) " "{%x%}," (initial "f" 20)
    = Ok "0,1,2," p'
    /\ commands p' !! "x" = Some (for_cmd "x" "2")
    /\ defined_value "x" "0" " y " (initial "f" 20)
       = Ok "0" (warned_with (extra_arguments "x") (initial "f" 20)).
Proof.
  eexists.
  edestruct (proj1 for_block_range_iterations Model.externals (Interp.parse 3)
               " x in range(3) " "{%x%}," (initial "f" 20))
    as (Hres & Hreg & Hlast).
  - vm_compute. reflexivity.
  - vm_compute. reflexivity.
  - eapply for_run_cons; [vm_compute; reflexivity | vm_compute; reflexivity |].
    eapply for_run_cons; [vm_compute; reflexivity | vm_compute; reflexivity |].
    eapply for_run_cons; [vm_compute; reflexivity | vm_compute; reflexivity |].
    apply for_run_nil.
  - split; [exact Hres|]. split.
    + destruct (Hlast _ eq_refl) as (v & Hv & Hcmd); [vm_compute; reflexivity|].
      injection Hv as <-. exact Hcmd.
    + apply Forall2_cons_1 in Hreg as [[_ Hcmd] _].
      exact (proj2 (Hcmd " y " (initial "f" 20))).
Defined.

(** C10.  A for block whose header matches and whose source yields no
    value returns the empty string and leaves the whole preprocessor, its
    command registry included, as it was: an identifier that was not
    registered before the block is not registered after it.  The statement
    holds for every [parse], also for one that never returns a value, so
    the body is not parsed.  The sources [range(0)] and the empty argument
    list are instances. *)
Theorem for_block_without_values :
  (forall (ext : Externals) (parse : string -> M string)
          (args contents : string) (p : Preprocessor) (m : Re.Match),
      Re.match_ Re.no_flags for_regex args = Some m ->
      blck_for_iterator (for_source args m) p = Ok [] p ->
      blck_for parse args contents p = Ok "" p
      /\ (commands p !! for_ident args m = None ->
          forall p', state_of (blck_for parse args contents p) = Some p' ->
                     commands p' !! for_ident args m = None))
  /\ (forall (parse : string -> M string) (contents : string)
             (p : Preprocessor),
         blck_for (ext := Model.externals) parse " x in range(0) " contents p
         = Ok "" p
         /\ blck_for (ext := Model.externals) parse " x in  " contents p
            = Ok "" p).
Proof.
  split.
  - intros ext parse args contents p m Hm Hit.
    pose proof (blck_for_no_values parse args contents p m Hm Hit) as H.
    split; [exact H|]. intros Hnone p'. rewrite H. simpl.
    intros [= <-]. exact Hnone.
  - intros parse contents p. split.
    + apply (blck_for_no_values (ext := Model.externals) parse _ contents p
               {| Re.m_end := 6; Re.m_spans := [(1%nat, (1, 2))] |});
        vm_compute; reflexivity.
    + apply (blck_for_no_values (ext := Model.externals) parse _ contents p
               {| Re.m_end := 7; Re.m_spans := [(1%nat, (1, 2))] |});
        vm_compute; reflexivity.
Qed.

Lemma for_block_without_values_witness :
  blck_for (ext := Model.externals) (fun _ _ => OutOfFuel)
    " x in range(5, 5) " "{%x%}" (initial "f" 20)
  = Ok "" (initial "f" 20).
Proof.
  refine (proj1 (proj1 for_block_without_values Model.externals
                   (fun _ _ => OutOfFuel) " x in range(5, 5) " "{%x%}"
                   (initial "f" 20)
                   {| Re.m_end := 6; Re.m_spans := [(1%nat, (1, 2))] |} _ _)).
  - vm_compute. reflexivity.
  - vm_compute. reflexivity.
Defined.

(* ===================================================================== *)
(** ** The finalisation of atlabel *)
(* ===================================================================== *)

Section FnlAtlabel.

Context {ext : Externals}.

Lemma fnl_atlabel_labels_no_label lbl lbls string_ dels p :
  get_label p lbl = [] ->
  warning_mode p = PRINT ->
  fnl_atlabel_labels (lbl :: lbls) string_ dels p
  = fnl_atlabel_labels lbls string_ (dels ++ [lbl]) (warned [lbl] p).
Proof.
  intros Hl Hw. simpl. unfold bind at 1. unfold get at 1. rewrite Hl. simpl.
  unfold bind at 1. unfold send_warning at 1. rewrite Hw.
  unfold bind at 1. unfold ret at 1. reflexivity.
Qed.

Lemma warned_app l1 l2 p : warned l2 (warned l1 p) = warned (l1 ++ l2) p.
Proof.
  unfold warned, set_log. simpl. f_equal.
  rewrite fmap_app, app_assoc. reflexivity.
Qed.

Lemma fnl_atlabel_labels_no_labels lbls : forall string_ dels p,
  Forall (fun lbl => get_label p lbl = []) lbls ->
  warning_mode p = PRINT ->
  fnl_atlabel_labels lbls string_ dels p
  = Ok (string_, dels ++ lbls) (warned lbls p).
Proof.
  induction lbls as [|lbl lbls IH]; intros string_ dels p Hall Hw.
  - simpl. unfold ret, warned, set_log. rewrite !app_nil_r.
    destruct p; reflexivity.
  - inversion Hall as [|? ? Hl Hrest]; subst.
    rewrite (fnl_atlabel_labels_no_label _ _ _ _ _ Hl Hw).
    rewrite IH; [|exact Hrest|exact Hw].
    rewrite warned_app, <- app_assoc. reflexivity.
Qed.

Lemma dict_del_head {V : Type} (k : string) (v : V) (d : list (string * V)) :
  Dict.del k ((k, v) :: d) = Some d.
Proof.
  change (Dict.del k ((k, v) :: d))
    with (if String.eqb k k then Some d else cons (k, v) <$> Dict.del k d).
  rewrite String.eqb_refl. reflexivity.
Qed.

Lemma fnl_atlabel_deletions_all (d : list (string * string)) : forall p,
  atlabel (command_vars p) = Some d ->
  fnl_atlabel_deletions (Dict.keys d) p
  = Ok tt (set_command_vars (set_atlabel (Some [])) p).
Proof.
  induction d as [|[k v] d IH]; intros p Hd.
  - simpl. unfold ret. f_equal.
    destruct p as [? [? ?] ? ? ? ? ? ? ? ? ? ? ? ? ?]. simpl in *.
    subst. reflexivity.
  - change (Dict.keys ((k, v) :: d)) with (k :: Dict.keys d).
    cbn [fnl_atlabel_deletions]. unfold bind at 1. unfold get_atlabel at 1.
    rewrite Hd, dict_del_head. unfold bind at 1. unfold modify at 1.
    rewrite IH by reflexivity. f_equal.
Qed.

Lemma fnl_atlabel_no_labels string_ d p :
  atlabel (command_vars p) = Some d ->
  Forall (fun lbl => get_label p lbl = []) (Dict.keys d) ->
  warning_mode p = PRINT ->
  fnl_atlabel string_ p
  = Ok string_ (set_command_vars (set_atlabel (Some []))
                  (warned (Dict.keys d) p)).
Proof.
  intros Hd Hall Hw. unfold fnl_atlabel. unfold bind at 1, get at 1.
  rewrite Hd. unfold bind at 1.
  rewrite (fnl_atlabel_labels_no_labels _ _ _ _ Hall Hw). simpl.
  unfold bind at 1. rewrite (fnl_atlabel_deletions_all d) by exact Hd.
  reflexivity.
Qed.

Lemma fnl_atlabel_empty string_ p :
  atlabel (command_vars p) = Some [] ->
  fnl_atlabel string_ p = Ok string_ p.
Proof.
  intros Hd. unfold fnl_atlabel. unfold bind at 1, get at 1. rewrite Hd.
  simpl. unfold bind, ret. reflexivity.
Qed.

Lemma fnl_atlabel_labels_step lbl lbls string_ dels p :
  get_label p lbl = [] ->
  fnl_atlabel_labels (lbl :: lbls) string_ dels p
  = match warning_mode p with
    | PRINT => fnl_atlabel_labels lbls string_ (dels ++ [lbl]) (warned [lbl] p)
    | HIDE => fnl_atlabel_labels lbls string_ (dels ++ [lbl]) p
    | AS_ERROR =>
        Fatal (no_matching_label lbl) (errored (no_matching_label lbl) p)
    end.
Proof.
  intros Hl. simpl. unfold bind at 1. unfold get at 1. rewrite Hl. simpl.
  unfold bind at 1. unfold send_warning at 1.
  destruct (warning_mode p); reflexivity.
Qed.

Lemma keeps_counts_refl p : keeps_counts p p.
Proof. repeat split. Qed.

Lemma keeps_counts_trans p q r :
  keeps_counts p q -> keeps_counts q r -> keeps_counts p r.
Proof.
  intros (H1 & H2 & H3 & H4 & H5) (K1 & K2 & K3 & K4 & K5).
  unfold keeps_counts. split; [congruence|]. split; [congruence|].
  split; [congruence|]. split; [congruence|].
  intros lbl. rewrite K5. apply H5.
Qed.

Lemma unmatched_labels_counts p q lbls :
  (forall lbl, length (get_label q lbl) = length (get_label p lbl)) ->
  unmatched_labels q lbls = unmatched_labels p lbls.
Proof.
  intros H. unfold unmatched_labels.
  induction lbls as [|lbl lbls IH]; [reflexivity|].
  cbn [List.filter]. rewrite H, IH. reflexivity.
Qed.

Lemma dict_get_keys {V : Type} (k : string) (d : list (string * V)) :
  In k (Dict.keys d) -> exists v, Dict.get k d = Some v.
Proof.
  induction d as [|[k' v'] d IH]; [contradiction|].
  change (Dict.keys ((k', v') :: d)) with (k' :: Dict.keys d).
  change (Dict.get k ((k', v') :: d))
    with (if String.eqb k' k then Some v' else Dict.get k d).
  intros Hin. destruct (String.eqb k' k) eqn:E; [eexists; reflexivity|].
  destruct Hin as [-> | Hin]; [rewrite String.eqb_refl in E; discriminate|].
  apply IH. exact Hin.
Qed.

Section Replacement.

Hypothesis replace_string_frame : replacement_frame.

(** The loop over the occurrences of one label, when it returns. *)
Lemma fnl_atlabel_places_frame lbl : forall idxs string_ p s' p',
  fnl_atlabel_places lbl idxs string_ p = Ok s' p' -> keeps_counts p p'.
Proof.
  induction idxs as [|i idxs IH]; intros string_ p s' p' H.
  - inversion H; subst. apply keeps_counts_refl.
  - cbn [fnl_atlabel_places] in H. unfold bind at 1, get at 1 in H.
    destruct (get_label p lbl !! i) as [index|]; [|discriminate H].
    unfold bind at 1, ret at 1 in H. unfold bind at 1 in H.
    unfold get_atlabel at 1 in H.
    destruct (atlabel (command_vars p)) as [d|]; [|discriminate H].
    destruct (Dict.get lbl d) as [c|]; [|discriminate H].
    unfold bind at 1, ret at 1 in H. unfold bind at 1 in H.
    destruct (replace_string index index string_ c [] p) as [s1 p1| | | |]
      eqn:Hr; try discriminate H.
    apply replace_string_frame in Hr. apply IH in H.
    exact (keeps_counts_trans _ _ _ Hr H).
Qed.

(** The loop over the labels of the store, when it returns: every label
    is among the deletions, and the log has one warning more for each
    label without an occurrence. *)
Lemma fnl_atlabel_labels_run lbls : forall string_ dels p s' dels' p',
  warning_mode p = PRINT ->
  fnl_atlabel_labels lbls string_ dels p = Ok (s', dels') p' ->
  dels' = dels ++ lbls
  /\ log p' = log p ++ (no_label_warning p <$> unmatched_labels p lbls)
  /\ context p' = context p
  /\ warning_mode p' = PRINT
  /\ command_vars p' = command_vars p
  /\ (forall lbl, length (get_label p' lbl) = length (get_label p lbl))
  /\ (Forall (fun lbl => get_label p lbl = []) lbls -> s' = string_).
Proof.
  induction lbls as [|lbl lbls IH]; intros string_ dels p s' dels' p' Hw H.
  - inversion H; subst. rewrite !app_nil_r. repeat split; auto.
  - destruct (get_label p lbl) as [|o os] eqn:Hl.
    + rewrite (fnl_atlabel_labels_step _ _ _ _ _ Hl), Hw in H.
      apply IH in H; [|exact Hw].
      destruct H as (-> & Hlog & Hctx & Hmode & Hvars & Hcount & Hstr).
      split; [rewrite <- app_assoc; reflexivity|].
      split.
      { rewrite Hlog. unfold unmatched_labels at 2. cbn [List.filter].
        rewrite Hl. cbn [length Nat.eqb fmap list_fmap].
        change (log (warned [lbl] p)) with (log p ++ [no_label_warning p lbl]).
        rewrite <- app_assoc. reflexivity. }
      split; [exact Hctx|]. split; [exact Hmode|]. split; [exact Hvars|].
      split; [exact Hcount|].
      intros Hall. apply Hstr. apply Forall_cons in Hall as [_ Hall].
      exact Hall.
    + cbn [fnl_atlabel_labels] in H. unfold bind at 1, get at 1 in H.
      rewrite Hl in H. cbn [length Nat.eqb when] in H.
      unfold bind at 1, ret at 1 in H. unfold bind at 1 in H.
      destruct (fnl_atlabel_places lbl (seq 0 (S (length os))) string_ p)
        as [s1 p1| | | |] eqn:Hp; try discriminate H.
      apply fnl_atlabel_places_frame in Hp
        as (Hlog1 & Hctx1 & Hmode1 & Hvars1 & Hcount1).
      apply IH in H; [|congruence].
      destruct H as (-> & Hlog & Hctx & Hmode & Hvars & Hcount & _).
      split; [rewrite <- app_assoc; reflexivity|].
      split.
      { rewrite Hlog, Hlog1, (unmatched_labels_counts p p1 lbls Hcount1).
        unfold unmatched_labels at 2. cbn [List.filter]. rewrite Hl.
        cbn [length Nat.eqb]. unfold no_label_warning. rewrite Hctx1.
        reflexivity. }
      split; [congruence|]. split; [exact Hmode|]. split; [congruence|].
      split; [intros l; rewrite Hcount; apply Hcount1|].
      intros Hall. apply Forall_cons in Hall as [Hnone _].
      rewrite Hl in Hnone. discriminate Hnone.
Qed.

(** The pass over a store with matched and unmatched entries, when it
    returns. *)
Lemma fnl_atlabel_run string_ d p s' p' :
  atlabel (command_vars p) = Some d ->
  warning_mode p = PRINT ->
  fnl_atlabel string_ p = Ok s' p' ->
  atlabel (command_vars p') = Some []
  /\ log p' = log p ++ (no_label_warning p <$> unmatched_labels p (Dict.keys d))
  /\ fnl_atlabel s' p' = Ok s' p'
  /\ (Forall (fun lbl => get_label p lbl = []) (Dict.keys d) -> s' = string_).
Proof.
  intros Hd Hw H. unfold fnl_atlabel in H. unfold bind at 1, get at 1 in H.
  rewrite Hd in H. unfold bind at 1 in H.
  destruct (fnl_atlabel_labels (Dict.keys d) string_ [] p)
    as [[s1 dels] p1| | | |] eqn:Hl; try discriminate H.
  apply fnl_atlabel_labels_run in Hl; [|exact Hw].
  destruct Hl as (-> & Hlog & _ & _ & Hvars & _ & Hstr).
  cbn [app] in H. unfold bind at 1 in H.
  rewrite (fnl_atlabel_deletions_all d p1) in H by congruence.
  inversion H; subst. split; [reflexivity|]. split; [exact Hlog|].
  split; [apply fnl_atlabel_empty; reflexivity | exact Hstr].
Qed.

Hypothesis replace_string_returns : replacement_returns.

Lemma fnl_atlabel_places_returns lbl d c : forall idxs string_ p,
  atlabel (command_vars p) = Some d ->
  Dict.get lbl d = Some c ->
  Forall (fun i => (i < length (get_label p lbl))%nat) idxs ->
  exists s' p', fnl_atlabel_places lbl idxs string_ p = Ok s' p'.
Proof.
  induction idxs as [|i idxs IH]; intros string_ p Hd Hc Hall.
  - eexists. eexists. reflexivity.
  - apply Forall_cons in Hall as [Hi Hall].
    cbn [fnl_atlabel_places]. unfold bind at 1, get at 1.
    destruct (get_label p lbl !! i) as [index|] eqn:Hidx;
      [|apply lookup_ge_None in Hidx; lia].
    unfold bind at 1, ret at 1. unfold bind at 1. unfold get_atlabel at 1.
    rewrite Hd, Hc. unfold bind at 1, ret at 1. unfold bind at 1.
    destruct (replace_string_returns index index string_ c [] p)
      as (s1 & p1 & Hr).
    rewrite Hr. apply replace_string_frame in Hr as (_ & _ & _ & Hvars & Hcount).
    apply IH; [congruence | exact Hc |].
    rewrite Hcount. exact Hall.
Qed.

Lemma fnl_atlabel_labels_returns d lbls : forall string_ dels p,
  atlabel (command_vars p) = Some d ->
  (forall lbl, In lbl lbls -> In lbl (Dict.keys d)) ->
  warning_mode p = PRINT ->
  exists r p', fnl_atlabel_labels lbls string_ dels p = Ok r p'.
Proof.
  induction lbls as [|lbl lbls IH]; intros string_ dels p Hd Hin Hw.
  - eexists. eexists. reflexivity.
  - destruct (get_label p lbl) as [|o os] eqn:Hl.
    + rewrite (fnl_atlabel_labels_step _ _ _ _ _ Hl), Hw.
      apply IH; [exact Hd | | exact Hw].
      intros l Hl'. apply Hin. right. exact Hl'.
    + cbn [fnl_atlabel_labels]. unfold bind at 1, get at 1.
      rewrite Hl. cbn [length Nat.eqb when].
      unfold bind at 1, ret at 1. unfold bind at 1.
      destruct (dict_get_keys lbl d (Hin lbl (or_introl eq_refl))) as (c & Hc).
      destruct (fnl_atlabel_places_returns lbl d c (seq 0 (S (length os)))
                  string_ p Hd Hc) as (s1 & p1 & Hp).
      { apply Forall_forall. intros i Hi. apply elem_of_seq in Hi.
        rewrite Hl. cbn [length]. lia. }
      rewrite Hp. apply fnl_atlabel_places_frame in Hp
        as (_ & _ & Hmode & Hvars & _).
      apply IH; [congruence | | congruence].
      intros l Hl'. apply Hin. right. exact Hl'.
Qed.

Lemma fnl_atlabel_returns string_ d p :
  atlabel (command_vars p) = Some d ->
  warning_mode p = PRINT ->
  exists s' p', fnl_atlabel string_ p = Ok s' p'.
Proof.
  intros Hd Hw.
  destruct (fnl_atlabel_labels_returns d (Dict.keys d) string_ [] p Hd
              (fun _ H => H) Hw) as ([s1 dels] & p1 & Hl).
  unfold fnl_atlabel. unfold bind at 1, get at 1. rewrite Hd.
  unfold bind at 1. rewrite Hl.
  apply fnl_atlabel_labels_run in Hl as (-> & _ & _ & _ & Hvars & _);
    [|exact Hw].
  cbn [app]. unfold bind at 1.
  rewrite (fnl_atlabel_deletions_all d p1) by congruence.
  eexists. eexists. reflexivity.
Qed.

End Replacement.

End FnlAtlabel.

(** The replacement of the model shifts the recorded offsets and touches
    nothing else. *)
Lemma replacement_frame_model : replacement_frame (ext := Model.externals).
Proof.
  intros a b s r t p s' p' H. inversion H; subst.
  repeat split. intros lbl. unfold get_label. cbn [labels set_labels].
  rewrite lookup_fmap. destruct (labels p !! lbl); [|reflexivity].
  cbn [fmap option_fmap option_map default]. apply length_fmap.
Qed.

Lemma replacement_returns_model : replacement_returns (ext := Model.externals).
Proof. intros a b s r t p. eexists. eexists. reflexivity. Qed.

(** A warning is promoted to a fatal error when the warning mode says so:
    the same entry then aborts the pass. *)
Lemma fnl_atlabel_escalated {ext : Externals} string_ lbl content p :
  atlabel (command_vars p) = Some [(lbl, content)] ->
  get_label p lbl = [] ->
  warning_mode p = AS_ERROR ->
  fnl_atlabel string_ p
  = Fatal (no_matching_label lbl)
      (set_log (fun l => l ++ [mk_event error (no_matching_label lbl) p]) p).
Proof.
  intros Hd Hl Hw. unfold fnl_atlabel. unfold bind at 1, get at 1. rewrite Hd.
  unfold bind at 1. simpl. unfold bind at 1, get at 1. rewrite Hl. simpl.
  unfold bind at 1. unfold send_warning. rewrite Hw. reflexivity.
Qed.

(** The store of the example: the label [a] has one occurrence, at the
    offset 2, and the label [b] has none. *)
Lemma mixed_store_run :
  exists p',
    fnl_atlabel (ext := Model.externals) "abcd"
      (set_labels (insert "a" [2])
         (set_command_vars (set_atlabel (Some [("a", "X"); ("b", "Y")]))
            (initial "f" 20)))
    = Ok "abXcd" p'.
Proof. eexists. vm_compute. reflexivity. Qed.

(** C8.  An atlabel entry whose label has no recorded occurrence, in the
    finalisation pass.
    - Whatever the state and the other entries of the store are, the
      entry costs one warning, [No matching label for atlabel block], and
      nothing else: the loop goes on with the same string and with the
      label among the deletions.  The warning is reported when warnings
      are printed; it is dropped when they are hidden, and it is the
      fatal error that ends the pass when they are promoted to errors.
    - With warnings printed, a pass that returns over a store of matched
      and unmatched entries has emptied the store and has added to the
      log exactly one warning for each unmatched entry, in the order of
      the store, and no error; a second pass then changes neither the
      string nor the preprocessor.  This holds for every [replace_string]
      that leaves the log, the context stack, the warning mode, the
      command variables and the number of occurrences of each label
      alone; when it also returns, so does the pass.
    - When no label of the store has an occurrence the pass returns the
      string as it was, whatever [replace_string] is. *)
Theorem fnl_atlabel_unmatched_label_warns :
  (forall (ext : Externals) (lbl : string) (lbls : list string)
          (s : string) (dels : list string) (q : Preprocessor),
      get_label q lbl = [] ->
      fnl_atlabel_labels (lbl :: lbls) s dels q
      = match warning_mode q with
        | PRINT => fnl_atlabel_labels lbls s (dels ++ [lbl]) (warned [lbl] q)
        | HIDE => fnl_atlabel_labels lbls s (dels ++ [lbl]) q
        | AS_ERROR =>
            Fatal (no_matching_label lbl) (errored (no_matching_label lbl) q)
        end)
  /\ (forall (ext : Externals) (string_ : string)
             (d : list (string * string)) (p : Preprocessor),
         replacement_frame ->
         atlabel (command_vars p) = Some d ->
         warning_mode p = PRINT ->
         (forall s' p',
             fnl_atlabel string_ p = Ok s' p' ->
             atlabel (command_vars p') = Some []
             /\ log p' = log p ++
                         (no_label_warning p
                            <$> unmatched_labels p (Dict.keys d))
             /\ fnl_atlabel s' p' = Ok s' p')
         /\ (replacement_returns ->
             exists s' p', fnl_atlabel string_ p = Ok s' p'))
  /\ (forall (ext : Externals) (string_ : string)
             (d : list (string * string)) (p : Preprocessor),
         atlabel (command_vars p) = Some d ->
         Forall (fun lbl => get_label p lbl = []) (Dict.keys d) ->
         warning_mode p = PRINT ->
         exists p',
           fnl_atlabel string_ p = Ok string_ p'
           /\ atlabel (command_vars p') = Some []
           /\ log p' = log p ++ (no_label_warning p <$> Dict.keys d)
           /\ fnl_atlabel string_ p' = Ok string_ p').
Proof.
  split; [|split].
  - intros ext lbl lbls s dels q Hl. apply fnl_atlabel_labels_step. exact Hl.
  - intros ext string_ d p Hframe Hd Hw. split.
    + intros s' p' H.
      destruct (fnl_atlabel_run Hframe string_ d p s' p' Hd Hw H)
        as (Hstore & Hlog & Hagain & _).
      auto.
    + intros Hret. exact (fnl_atlabel_returns Hframe Hret string_ d p Hd Hw).
  - intros ext string_ d p Hd Hall Hw.
    eexists. split; [apply (fnl_atlabel_no_labels _ _ _ Hd Hall Hw)|].
    split; [reflexivity|]. split; [reflexivity|].
    apply fnl_atlabel_empty. reflexivity.
Qed.

Lemma fnl_atlabel_unmatched_label_warns_witness :
  exists p',
    fnl_atlabel (ext := Model.externals) "abcd"
      (set_labels (insert "a" [2])
         (set_command_vars (set_atlabel (Some [("a", "X"); ("b", "Y")]))
            (initial "f" 20)))
    = Ok "abXcd" p'
    /\ atlabel (command_vars p') = Some []
    /\ message <$> log p' = [no_matching_label "b"]
    /\ fnl_atlabel (ext := Model.externals) "abXcd" p' = Ok "abXcd" p'.
Proof.
  destruct mixed_store_run as (p' & Hrun). exists p'.
  destruct (proj1 (proj2 fnl_atlabel_unmatched_label_warns) Model.externals
              "abcd" [("a", "X"); ("b", "Y")]
              (set_labels (insert "a" [2])
                 (set_command_vars
                    (set_atlabel (Some [("a", "X"); ("b", "Y")]))
                    (initial "f" 20)))
              replacement_frame_model eq_refl eq_refl) as (Hok & _).
  destruct (Hok "abXcd" p' Hrun) as (Hstore & Hlog & Hagain).
  split; [exact Hrun|]. split; [exact Hstore|]. split; [|exact Hagain].
  rewrite Hlog. reflexivity.
Defined.

(* ===================================================================== *)
(** ** The cut block *)
(* ===================================================================== *)

Section CutBlock.

Context {ext : Externals}.
Variable parse : string -> M string.

Lemma blck_cut_run args contents p split p1 a fr stored p2 :
  split_args args p = Ok split p1 ->
  cut_parser_parse_args split = Some a ->
  cut_frame p1 = Some fr ->
  cut_rendered parse a contents p1 stored p2 ->
  blck_cut parse args contents p
  = Ok "" (set_command_vars (store_cut (clipboard_name a) (fr, stored)) p2).
Proof.
  intros Hsplit Ha Hfr Hr. unfold blck_cut. unfold bind at 1. rewrite Hsplit, Ha.
  unfold bind at 1. unfold ret at 1. unfold bind at 1. unfold current_end, get at 1.
  unfold bind at 1. unfold context_top_copy at 1. unfold cut_frame in Hfr.
  destruct (context p1) as [|top rest] eqn:Hctx; [discriminate|].
  injection Hfr as <-.
  destruct Hr as [Hraw | r p1' p2 Hpre Hparse Hpop].
  - rewrite Hraw. unfold bind at 1. unfold ret at 1. reflexivity.
  - rewrite Hpre. unfold bind at 1. unfold bind at 1.
    unfold context_update, modify at 1. unfold bind at 1.
    unfold body_state, top_source in Hparse. rewrite Hctx in Hparse.
    unfold top_source. rewrite Hctx. rewrite Hparse.
    unfold bind at 1. rewrite Hpop. reflexivity.
Qed.

Lemma clipboard_entry_store name entry p :
  clipboard_entry (set_command_vars (store_cut name entry) p) name = Some entry.
Proof.
  unfold clipboard_entry, store_cut. simpl.
  destruct (clipboard (command_vars p)); simpl.
  - apply lookup_insert_eq.
  - apply lookup_singleton_eq.
Qed.

Lemma clipboard_entry_store_ne name name' entry p :
  name <> name' ->
  clipboard_entry (set_command_vars (store_cut name entry) p) name'
  = clipboard_entry p name'.
Proof.
  intros Hne. unfold clipboard_entry, store_cut. simpl.
  destruct (clipboard (command_vars p)); simpl.
  - apply lookup_insert_ne. exact Hne.
  - rewrite lookup_singleton_ne by exact Hne. reflexivity.
Qed.

End CutBlock.

(** C9.  Two cut blocks in a row whose arguments name the same clipboard.
    Both return the empty string, none of them ends in an error, and the
    blocks themselves report nothing: the log after each is the log after
    the rendering of its body.  After the second, the clipboard maps the
    name to the context snapshot and the content of the second cut,
    whatever the first had stored. *)
Theorem cut_block_last_write_wins :
  forall (ext : Externals) (parse : string -> M string)
         (args1 contents1 args2 contents2 : string)
         (p q1 p1 q2 : Preprocessor) (split1 split2 : list string)
         (a1 a2 : CutArguments) (fr1 fr2 : ContextFrame)
         (stored1 stored2 : string) (r1 r2 : Preprocessor),
    split_args args1 p = Ok split1 q1 ->
    cut_parser_parse_args split1 = Some a1 ->
    cut_frame q1 = Some fr1 ->
    cut_rendered parse a1 contents1 q1 stored1 r1 ->
    p1 = set_command_vars (store_cut (clipboard_name a1) (fr1, stored1)) r1 ->
    split_args args2 p1 = Ok split2 q2 ->
    cut_parser_parse_args split2 = Some a2 ->
    cut_frame q2 = Some fr2 ->
    cut_rendered parse a2 contents2 q2 stored2 r2 ->
    clipboard_name a2 = clipboard_name a1 ->
    blck_cut parse args1 contents1 p = Ok "" p1
    /\ clipboard_entry p1 (clipboard_name a1) = Some (fr1, stored1)
    /\ log p1 = log r1
    /\ exists p2,
         blck_cut parse args2 contents2 p1 = Ok "" p2
         /\ clipboard_entry p2 (clipboard_name a1) = Some (fr2, stored2)
         /\ log p2 = log r2.
Proof.
  intros ext parse args1 contents1 args2 contents2 p q1 p1 q2 split1 split2
         a1 a2 fr1 fr2 stored1 stored2 r1 r2
         Hs1 Ha1 Hf1 Hr1 -> Hs2 Ha2 Hf2 Hr2 Hname.
  split; [exact (blck_cut_run parse _ _ _ _ _ _ _ _ _ Hs1 Ha1 Hf1 Hr1)|].
  split; [apply clipboard_entry_store|]. split; [reflexivity|].
  eexists. split; [exact (blck_cut_run parse _ _ _ _ _ _ _ _ _ Hs2 Ha2 Hf2 Hr2)|].
  split; [rewrite Hname; apply clipboard_entry_store | reflexivity].
Qed.

Lemma cut_block_last_write_wins_witness :
  exists p1 p2 fr2,
    blck_cut (ext := Model.externals) (Interp.parse 3) " clip " "one" (initial "f" 20)
    = Ok "" p1
    /\ blck_cut (ext := Model.externals) (Interp.parse 3) " -p clip " "two" p1
       = Ok "" p2
    /\ clipboard_entry p2 "clip" = Some (fr2, "two").
Proof.
  edestruct (cut_block_last_write_wins Model.externals (Interp.parse 3)
               " clip " "one" " -p clip " "two" (initial "f" 20))
    as (H1 & _ & _ & p2 & H2 & Hentry & _).
  - vm_compute. reflexivity.
  - vm_compute. reflexivity.
  - vm_compute. reflexivity.
  - apply cut_raw. reflexivity.
  - reflexivity.
  - vm_compute. reflexivity.
  - vm_compute. reflexivity.
  - vm_compute. reflexivity.
  - eapply cut_pre_rendered; [reflexivity | vm_compute; reflexivity
                             | vm_compute; reflexivity].
  - reflexivity.
  - eexists. exists p2. eexists. split; [exact H1|]. split; [exact H2|].
    exact Hentry.
Defined.

(* ===================================================================== *)
(** ** The atlabel block *)
(* ===================================================================== *)

Section AtlabelBlock.

Variable parse : string -> M string.

(** A block whose label is free when the block starts: the body is parsed
    at the block, and what the parse returned is stored under the label in
    the dictionary as the parse left it; the block returns the empty
    string.  Nothing is asked of that dictionary: the label may be in it. *)
Lemma blck_atlabel_stores args contents p r p1 d1 p2 :
  Py.strip args <> "" ->
  label_free p (Py.strip args) ->
  parse contents (body_state "in block atlabel" (with_atlabel_dict p)) = Ok r p1 ->
  atlabel (command_vars p1) = Some d1 ->
  context_pop
    (set_command_vars (set_atlabel (Some (Dict.set (Py.strip args) r d1))) p1)
  = Ok tt p2 ->
  blck_atlabel parse args contents p = Ok "" p2.
Proof.
  intros Hne Hfree Hparse Hd1 Hpop. unfold blck_atlabel.
  unfold bind at 1. unfold when at 1.
  destruct (str_eqb (Py.strip args) "") eqn:He.
  { apply String.eqb_eq in He. contradiction. }
  unfold ret at 1. unfold bind at 1. unfold get at 1. unfold bind at 1.
  unfold label_free in Hfree. unfold with_atlabel_dict in Hparse.
  destruct (atlabel (command_vars p)) as [d|] eqn:Hd.
  - rewrite Hfree. unfold when at 1, ret at 1.
    unfold bind at 1. unfold current_end, get at 1. unfold bind at 1.
    unfold context_update, modify at 1. unfold bind at 1.
    unfold body_state in Hparse. rewrite Hparse.
    unfold bind at 1. unfold get_atlabel at 1. rewrite Hd1.
    unfold bind at 1. unfold modify at 1. unfold bind at 1. rewrite Hpop.
    reflexivity.
  - unfold modify at 1.
    unfold bind at 1. unfold current_end, get at 1. unfold bind at 1.
    unfold context_update, modify at 1. unfold bind at 1.
    unfold body_state in Hparse. rewrite Hparse.
    unfold bind at 1. unfold get_atlabel at 1. rewrite Hd1.
    unfold bind at 1. unfold modify at 1. unfold bind at 1. rewrite Hpop.
    reflexivity.
Qed.

(** A block whose label is in the store when the block starts is a fatal
    error; the body is not parsed. *)
Lemma blck_atlabel_duplicate args contents p d :
  Py.strip args <> "" ->
  atlabel (command_vars p) = Some d ->
  Dict.mem (Py.strip args) d = true ->
  blck_atlabel parse args contents p
  = Fatal (multiple_atlabel (Py.strip args))
      (set_log (fun l => l ++ [mk_event error (multiple_atlabel (Py.strip args)) p]) p).
Proof.
  intros Hne Hd Hmem. unfold blck_atlabel.
  unfold bind at 1. unfold when at 1.
  destruct (str_eqb (Py.strip args) "") eqn:He.
  { apply String.eqb_eq in He. contradiction. }
  unfold ret at 1. unfold bind at 1. unfold get at 1. unfold bind at 1.
  rewrite Hd, Hmem. reflexivity.
Qed.

Lemma dict_get_set {V : Type} (k : string) (v : V) (d : list (string * V)) :
  Dict.get k (Dict.set k v d) = Some v.
Proof.
  induction d as [|[k' v'] d IH].
  - simpl. rewrite String.eqb_refl. reflexivity.
  - simpl. destruct (String.eqb k' k) eqn:E; simpl; rewrite E;
      [reflexivity | exact IH].
Qed.

End AtlabelBlock.

(** C7.  What the code does for an atlabel block nested in an atlabel block
    of the same label.  The check of the outer block runs before its body is
    parsed and is not run again: when the parse of the body has put the
    label in the store, the outer block still returns the empty string and
    replaces the entry.  Through the interpreter, the text below declares
    the label [a] twice and ends without an error, with the content of the
    outer block under [a]; the same two blocks one after the other are a
    fatal error. *)
Theorem atlabel_nested_duplicate_accepted :
  (forall (parse : string -> M string)
          (args contents : string) (p : Preprocessor) (r : string)
          (p1 : Preprocessor) (d1 : list (string * string)) (p2 : Preprocessor),
      Py.strip args <> "" ->
      label_free p (Py.strip args) ->
      parse contents (body_state "in block atlabel" (with_atlabel_dict p))
      = Ok r p1 ->
      atlabel (command_vars p1) = Some d1 ->
      Dict.mem (Py.strip args) d1 = true ->
      context_pop
        (set_command_vars
           (set_atlabel (Some (Dict.set (Py.strip args) r d1))) p1)
      = Ok tt p2 ->
      blck_atlabel parse args contents p = Ok "" p2
      /\ (d ← atlabel (command_vars p2); Dict.get (Py.strip args) d) = Some r)
  /\ (forall k : nat,
         exists p',
           Interp.parse (4 + k)
             "{%atlabel a%}x{%atlabel a%}y{%endatlabel%}{%endatlabel%}"
             (initial "f" 20)
           = Ok "" p'
           /\ atlabel (command_vars p') = Some [("a", "x")]
           /\ log p' = [])
  /\ (forall k : nat,
         exists p',
           Interp.parse (4 + k)
             "{%atlabel a%}x{%endatlabel%}{%atlabel a%}y{%endatlabel%}"
             (initial "f" 20)
           = Fatal (multiple_atlabel "a") p').
Proof.
  split; [|split].
  - intros parse args contents p r p1 d1 p2 Hne Hfree Hparse Hd1 Hmem Hpop.
    split.
    + exact (blck_atlabel_stores parse _ _ _ _ _ _ _ Hne Hfree Hparse Hd1 Hpop).
    + unfold context_pop in Hpop. simpl in Hpop.
      destruct (context p1); [discriminate|]. injection Hpop as <-. simpl.
      apply dict_get_set.
  - intros k. eexists. split; [vm_compute; reflexivity|].
    split; vm_compute; reflexivity.
  - intros k. eexists. vm_compute. reflexivity.
Qed.

Lemma atlabel_nested_duplicate_accepted_witness :
  exists p2,
    blck_atlabel (Interp.parse 4) " a "
      "x{%atlabel a%}y{%endatlabel%}" (initial "f" 20)
    = Ok "" p2
    /\ (d ← atlabel (command_vars p2); Dict.get "a" d) = Some "x".
Proof.
  eexists.
  eapply (proj1 atlabel_nested_duplicate_accepted
            (Interp.parse 4) " a " "x{%atlabel a%}y{%endatlabel%}"
            (initial "f" 20)).
  - vm_compute. discriminate.
  - exact I.
  - vm_compute. reflexivity.
  - vm_compute. reflexivity.
  - vm_compute. reflexivity.
  - vm_compute. reflexivity.
Defined.

(* ===================================================================== *)
(** ** The if block: the search for the next elif or else *)
(* ===================================================================== *)

Section FindElifs.

Context {ext : Externals}.

Lemma if_depth_app p s ts1 ts2 :
  if_depth p s (ts1 ++ ts2) = if_depth p s ts1 + if_depth p s ts2.
Proof.
  induction ts1 as [|t ts1 IH]; simpl; [reflexivity|]. rewrite IH. lia.
Qed.

Lemma take_snoc_lookup {A : Type} (l : list A) (i : nat) (x : A) :
  l !! i = Some x -> take (S i) l = take i l ++ [x].
Proof.
  revert i. induction l as [|y l IH]; intros [|i] H; simpl in *;
    try discriminate.
  - injection H as ->. reflexivity.
  - rewrite (IH _ H). reflexivity.
Qed.

(** The loop, from a position where the depth is the nesting depth of the
    tokens passed and none of them is a boundary. *)
Lemma find_elifs_and_else_loop_sound preproc string_ tokens :
  forall rest i depth p b e a p',
    tokens = take i tokens ++ rest ->
    length (take i tokens) = i ->
    depth = if_depth preproc string_ (take i tokens) ->
    (forall j, (j < i)%nat -> ~ boundary_at preproc string_ tokens j) ->
    find_elifs_and_else_loop preproc string_ tokens rest i depth p
    = Ok (b, e, a) p' ->
    found_boundary preproc string_ tokens p (b, e, a) p'.
Proof.
  unfold found_boundary.
  induction rest as [|[[begin end'] token] rest IH];
    intros i depth p b e a p' Htok Hlen Hdepth Hnone Hrun.
  - simpl in Hrun. injection Hrun as <- <- <- <-. split; [reflexivity|].
    left. split; [reflexivity|]. intros j Hb. pose proof Hb as [t (Ht & _ & _)].
    apply (Hnone j); [|exact Hb].
    rewrite app_nil_r in Htok. apply lookup_lt_Some in Ht.
    rewrite Htok in Ht. lia.
  - assert (Hi : tokens !! i = Some (begin, end', token)).
    { rewrite Htok. rewrite lookup_app_r by lia.
      rewrite Hlen, Nat.sub_diag. reflexivity. }
    assert (Htake : take (S i) tokens = take i tokens ++ [(begin, end', token)])
      by (apply take_snoc_lookup; exact Hi).
    assert (Hnext : tokens = take (S i) tokens ++ rest).
    { rewrite Htake, <- app_assoc. exact Htok. }
    assert (Hlen' : length (take (S i) tokens) = S i).
    { rewrite Htake, length_app, Hlen. simpl. lia. }
    assert (Hstep : forall depth',
      depth' = depth + (if opens_if preproc string_ (begin, end', token) then 1
                        else if closes_if preproc string_ (begin, end', token)
                             then -1 else 0) ->
      (starts_else preproc string_ (begin, end', token)
       || starts_elif preproc string_ (begin, end', token)) = false
      \/ depth <> 0 ->
      find_elifs_and_else_loop preproc string_ tokens rest (S i) depth' p
      = Ok (b, e, a) p' ->
      p' = p
      /\ (((b, e, a) = (-1, -1, None)
           /\ forall j, ~ boundary_at preproc string_ tokens j)
          \/ exists i' t,
               tokens !! i' = Some t /\ tok_begin t = b
               /\ boundary_at preproc string_ tokens i'
               /\ (forall j, (j < i')%nat -> ~ boundary_at preproc string_ tokens j)
               /\ (a = None <-> starts_else preproc string_ t = true))).
    { intros depth' Hd' Hnb Hrun'.
      apply (IH (S i) depth' p b e a p' Hnext Hlen'); [| |exact Hrun'].
      - rewrite Htake, if_depth_app, <- Hdepth, Hd'. simpl. lia.
      - intros j Hj [t' (Ht' & Hkind & Hd0)].
        destruct (decide (j = i)) as [Heq|Hne].
        + subst j. rewrite Hi in Ht'. injection Ht' as <-.
          destruct Hnb as [Hnb|Hnb]; [congruence|].
          apply Hnb. rewrite Hdepth. exact Hd0.
        + apply (Hnone j); [lia|]. exists t'. auto. }
    simpl in Hrun.
    destruct token.
    2:{ apply (Hstep depth); [simpl; lia | left; reflexivity | exact Hrun]. }
    destruct (matches (re_flags preproc) (if_regex (token_end preproc))
                (Py.slice_from string_ end')) eqn:Hif.
    { apply (Hstep (depth + 1)); [|left|exact Hrun];
        unfold starts_else, starts_elif, closes_if, opens_if, tail_of;
        cbn [is_open tok_kind tok_end fst snd andb negb]; rewrite Hif;
        reflexivity. }
    destruct (matches (re_flags preproc)
                (endif_regex (token_endblock preproc) (token_end preproc))
                (Py.slice_from string_ end')) eqn:Hendif.
    { apply (Hstep (depth - 1)); [|left|exact Hrun];
        unfold starts_else, starts_elif, closes_if, opens_if, tail_of;
        cbn [is_open tok_kind tok_end fst snd andb negb]; rewrite Hif;
        cbn [andb negb]; rewrite Hendif; reflexivity. }
    assert (Hopens : opens_if preproc string_ (begin, end', OPEN) = false).
    { unfold opens_if, tail_of. cbn [is_open tok_kind tok_end fst snd andb].
      exact Hif. }
    assert (Hcloses : closes_if preproc string_ (begin, end', OPEN) = false).
    { unfold closes_if, tail_of. rewrite Hopens.
      cbn [is_open tok_kind tok_end fst snd andb negb]. exact Hendif. }
    assert (Helse_iff : starts_else preproc string_ (begin, end', OPEN)
                        = matches (re_flags preproc)
                            (else_regex (token_end preproc))
                            (Py.slice_from string_ end')).
    { unfold starts_else, tail_of. rewrite Hopens, Hcloses. reflexivity. }
    assert (Helif_iff : starts_elif preproc string_ (begin, end', OPEN)
                        = negb (starts_else preproc string_ (begin, end', OPEN))
                          && matches (re_flags preproc)
                               (elif_regex (token_end preproc))
                               (Py.slice_from string_ end')).
    { unfold starts_elif, tail_of. rewrite Hopens, Hcloses. reflexivity. }
    destruct (depth =? 0) eqn:Hd0.
    2:{ apply (Hstep depth); [rewrite Hopens, Hcloses; lia | right; lia
                             | exact Hrun]. }
    apply Z.eqb_eq in Hd0.
    unfold matches in Helse_iff, Helif_iff.
    destruct (Re.match_ (re_flags preproc) (else_regex (token_end preproc))
                (Py.slice_from string_ end')) as [me|] eqn:Helse.
    + (* else *)
      unfold ret in Hrun. injection Hrun as <- <- <- <-.
      split; [reflexivity|]. right. exists i, (begin, end', OPEN).
      split; [exact Hi|]. split; [reflexivity|].
      split; [|split; [exact Hnone|]].
      * exists (begin, end', OPEN). split; [exact Hi|]. split.
        -- rewrite Helse_iff. reflexivity.
        -- rewrite <- Hdepth. exact Hd0.
      * split; [intros _; exact Helse_iff | reflexivity].
    + destruct (Re.match_ (re_flags preproc) (elif_regex (token_end preproc))
                  (Py.slice_from string_ end')) as [mi|] eqn:Helif.
      2:{ apply (Hstep depth); [rewrite Hopens, Hcloses; lia
                               | left; rewrite Helif_iff, Helse_iff; reflexivity
                               | exact Hrun]. }
      (* elif *)
      unfold bind at 1 in Hrun. unfold when in Hrun.
      destruct (Nat.eqb _ _) eqn:Hj in Hrun.
      { unfold bind, get, context_update, modify, send_error in Hrun.
        discriminate. }
      unfold ret at 1 in Hrun.
      destruct (tokens !! _) as [tj|] eqn:Htj in Hrun; [|discriminate].
      unfold ret in Hrun. injection Hrun as <- <- <- <-.
      split; [reflexivity|]. right. exists i, (begin, end', OPEN).
      split; [exact Hi|]. split; [reflexivity|].
      split; [|split; [exact Hnone|]].
      * exists (begin, end', OPEN). split; [exact Hi|]. split.
        -- rewrite Helif_iff, Helse_iff. reflexivity.
        -- rewrite <- Hdepth. exact Hd0.
      * rewrite Helse_iff. split; discriminate.
Qed.

Lemma find_elifs_and_else_sound string_ p b e a p' :
  find_elifs_and_else string_ p = Ok (b, e, a) p' ->
  found_boundary p string_
    (_find_tokens (token_begin p) (token_end p) string_) p (b, e, a) p'.
Proof.
  unfold find_elifs_and_else. unfold bind at 1, get at 1. intros Hrun.
  eapply (find_elifs_and_else_loop_sound p string_ _ _ 0%nat 0 p);
    [reflexivity | reflexivity | reflexivity | intros j Hj; lia | exact Hrun].
Qed.

(** The loop again, with what it returns for the boundary it finds: the
    extent and the arguments that [branch_of] reads in the text. *)
Lemma find_elifs_and_else_loop_exact preproc string_ tokens :
  forall rest i depth p r p',
    tokens = take i tokens ++ rest ->
    length (take i tokens) = i ->
    depth = if_depth preproc string_ (take i tokens) ->
    (forall j, (j < i)%nat -> ~ boundary_at preproc string_ tokens j) ->
    find_elifs_and_else_loop preproc string_ tokens rest i depth p = Ok r p' ->
    p' = p
    /\ ((r = (-1, -1, None)
         /\ forall j, ~ boundary_at preproc string_ tokens j)
        \/ exists i' t,
             tokens !! i' = Some t
             /\ boundary_at preproc string_ tokens i'
             /\ (forall j, (j < i')%nat -> ~ boundary_at preproc string_ tokens j)
             /\ branch_of preproc string_ tokens i' t = Some r).
Proof.
  induction rest as [|[[begin end'] token] rest IH];
    intros i depth p r p' Htok Hlen Hdepth Hnone Hrun.
  - simpl in Hrun. inversion Hrun; subst. split; [reflexivity|].
    left. split; [reflexivity|]. intros j Hb. pose proof Hb as [t (Ht & _ & _)].
    apply (Hnone j); [|exact Hb].
    rewrite app_nil_r in Htok. apply lookup_lt_Some in Ht.
    rewrite Htok in Ht. lia.
  - assert (Hi : tokens !! i = Some (begin, end', token)).
    { rewrite Htok. rewrite lookup_app_r by lia.
      rewrite Hlen, Nat.sub_diag. reflexivity. }
    assert (Htake : take (S i) tokens = take i tokens ++ [(begin, end', token)])
      by (apply take_snoc_lookup; exact Hi).
    assert (Hnext : tokens = take (S i) tokens ++ rest).
    { rewrite Htake, <- app_assoc. exact Htok. }
    assert (Hlen' : length (take (S i) tokens) = S i).
    { rewrite Htake, length_app, Hlen. simpl. lia. }
    assert (Hstep : forall depth',
      depth' = depth + (if opens_if preproc string_ (begin, end', token) then 1
                        else if closes_if preproc string_ (begin, end', token)
                             then -1 else 0) ->
      (starts_else preproc string_ (begin, end', token)
       || starts_elif preproc string_ (begin, end', token)) = false
      \/ depth <> 0 ->
      find_elifs_and_else_loop preproc string_ tokens rest (S i) depth' p
      = Ok r p' ->
      p' = p
      /\ ((r = (-1, -1, None)
           /\ forall j, ~ boundary_at preproc string_ tokens j)
          \/ exists i' t,
               tokens !! i' = Some t
               /\ boundary_at preproc string_ tokens i'
               /\ (forall j, (j < i')%nat -> ~ boundary_at preproc string_ tokens j)
               /\ branch_of preproc string_ tokens i' t = Some r)).
    { intros depth' Hd' Hnb Hrun'.
      apply (IH (S i) depth' p r p' Hnext Hlen'); [| |exact Hrun'].
      - rewrite Htake, if_depth_app, <- Hdepth, Hd'. simpl. lia.
      - intros j Hj [t' (Ht' & Hkind & Hd0)].
        destruct (decide (j = i)) as [Heq|Hne].
        + subst j. rewrite Hi in Ht'. injection Ht' as <-.
          destruct Hnb as [Hnb|Hnb]; [congruence|].
          apply Hnb. rewrite Hdepth. exact Hd0.
        + apply (Hnone j); [lia|]. exists t'. auto. }
    simpl in Hrun.
    destruct token.
    2:{ apply (Hstep depth); [simpl; lia | left; reflexivity | exact Hrun]. }
    destruct (matches (re_flags preproc) (if_regex (token_end preproc))
                (Py.slice_from string_ end')) eqn:Hif.
    { apply (Hstep (depth + 1)); [|left|exact Hrun];
        unfold starts_else, starts_elif, closes_if, opens_if, tail_of;
        cbn [is_open tok_kind tok_end fst snd andb negb]; rewrite Hif;
        reflexivity. }
    destruct (matches (re_flags preproc)
                (endif_regex (token_endblock preproc) (token_end preproc))
                (Py.slice_from string_ end')) eqn:Hendif.
    { apply (Hstep (depth - 1)); [|left|exact Hrun];
        unfold starts_else, starts_elif, closes_if, opens_if, tail_of;
        cbn [is_open tok_kind tok_end fst snd andb negb]; rewrite Hif;
        cbn [andb negb]; rewrite Hendif; reflexivity. }
    assert (Hopens : opens_if preproc string_ (begin, end', OPEN) = false).
    { unfold opens_if, tail_of. cbn [is_open tok_kind tok_end fst snd andb].
      exact Hif. }
    assert (Hcloses : closes_if preproc string_ (begin, end', OPEN) = false).
    { unfold closes_if, tail_of. rewrite Hopens.
      cbn [is_open tok_kind tok_end fst snd andb negb]. exact Hendif. }
    assert (Helse_iff : starts_else preproc string_ (begin, end', OPEN)
                        = matches (re_flags preproc)
                            (else_regex (token_end preproc))
                            (Py.slice_from string_ end')).
    { unfold starts_else, tail_of. rewrite Hopens, Hcloses. reflexivity. }
    assert (Helif_iff : starts_elif preproc string_ (begin, end', OPEN)
                        = negb (starts_else preproc string_ (begin, end', OPEN))
                          && matches (re_flags preproc)
                               (elif_regex (token_end preproc))
                               (Py.slice_from string_ end')).
    { unfold starts_elif, tail_of. rewrite Hopens, Hcloses. reflexivity. }
    destruct (depth =? 0) eqn:Hd0.
    2:{ apply (Hstep depth); [rewrite Hopens, Hcloses; lia | right; lia
                             | exact Hrun]. }
    apply Z.eqb_eq in Hd0.
    unfold matches in Helse_iff, Helif_iff.
    destruct (Re.match_ (re_flags preproc) (else_regex (token_end preproc))
                (Py.slice_from string_ end')) as [me|] eqn:Helse.
    + (* else *)
      unfold ret in Hrun. inversion Hrun; subst r p'.
      split; [reflexivity|]. right. exists i, (begin, end', OPEN).
      split; [exact Hi|]. split; [|split; [exact Hnone|]].
      * exists (begin, end', OPEN). split; [exact Hi|]. split.
        -- rewrite Helse_iff. reflexivity.
        -- rewrite <- Hdepth. exact Hd0.
      * unfold branch_of. cbn [tok_begin tok_end fst snd]. rewrite Helse.
        reflexivity.
    + destruct (Re.match_ (re_flags preproc) (elif_regex (token_end preproc))
                  (Py.slice_from string_ end')) as [mi|] eqn:Helif.
      2:{ apply (Hstep depth); [rewrite Hopens, Hcloses; lia
                               | left; rewrite Helif_iff, Helse_iff; reflexivity
                               | exact Hrun]. }
      (* elif *)
      unfold bind at 1 in Hrun. unfold when in Hrun.
      destruct (Nat.eqb _ _) eqn:Hj in Hrun.
      { unfold bind, get, context_update, modify, send_error in Hrun.
        discriminate. }
      unfold ret at 1 in Hrun.
      destruct (tokens !! find_matching_close_parenthese (parenthese_of tokens) i)
        as [tj|] eqn:Htj; [|discriminate].
      unfold ret in Hrun. inversion Hrun; subst r p'.
      split; [reflexivity|]. right. exists i, (begin, end', OPEN).
      split; [exact Hi|]. split; [|split; [exact Hnone|]].
      * exists (begin, end', OPEN). split; [exact Hi|]. split.
        -- rewrite Helif_iff, Helse_iff. reflexivity.
        -- rewrite <- Hdepth. exact Hd0.
      * unfold branch_of. cbn [tok_begin tok_end fst snd].
        rewrite Helse, Helif, Htj. reflexivity.
Qed.

Lemma find_elifs_and_else_exact string_ p r p' :
  find_elifs_and_else string_ p = Ok r p' ->
  let tokens := _find_tokens (token_begin p) (token_end p) string_ in
  p' = p
  /\ ((r = (-1, -1, None) /\ forall j, ~ boundary_at p string_ tokens j)
      \/ exists i t,
           tokens !! i = Some t
           /\ boundary_at p string_ tokens i
           /\ (forall j, (j < i)%nat -> ~ boundary_at p string_ tokens j)
           /\ branch_of p string_ tokens i t = Some r).
Proof.
  unfold find_elifs_and_else. unfold bind at 1, get at 1. intros Hrun.
  eapply (find_elifs_and_else_loop_exact p string_ _ _ 0%nat 0 p);
    [reflexivity | reflexivity | reflexivity | intros j Hj; lia | exact Hrun].
Qed.

Lemma branch_of_begin preproc string_ tokens i t b e a :
  branch_of preproc string_ tokens i t = Some (b, e, a) -> tok_begin t = b.
Proof.
  unfold branch_of.
  destruct (Re.match_ _ (else_regex _) _); [intros H; inversion H; reflexivity|].
  destruct (Re.match_ _ (elif_regex _) _); [|discriminate].
  destruct (tokens !! _); [|discriminate].
  intros H. inversion H. reflexivity.
Qed.

(** The branches of a chain are those read in the text. *)
Lemma if_chain_in_text p0 contents : forall brs pos,
  if_chain p0 contents pos brs -> chain_in_text p0 contents pos brs.
Proof.
  induction 1 as [pos e a Hfind | pos b e a rest Hfind Hb Hchain IH].
  - apply find_elifs_and_else_exact in Hfind as [_ [[_ Hnone] | Hfound]].
    + left. exact Hnone.
    + destruct Hfound as (i & t & Hi & Hbound & Hfirst & Hbr).
      right. exists i, t. split; [exact Hi|]. split; [exact Hbound|].
      split; [exact Hfirst|]. exact (branch_of_begin _ _ _ _ _ _ _ _ Hbr).
  - apply find_elifs_and_else_exact in Hfind as [_ [[Hr _] | Hfound]].
    + inversion Hr. congruence.
    + cbn [chain_in_text br_begin br_body br_args]. split; [|exact IH].
      destruct Hfound as (i & t & Hi & Hbound & Hfirst & Hbr).
      exists i, t. split; [exact Hi|]. split; [exact Hbound|].
      split; [exact Hfirst|]. rewrite Hbr. repeat f_equal; lia.
Qed.

End FindElifs.

(** C2.  When [find_elifs_and_else] returns, it has left the preprocessor
    as it was, and either it returns the sentinel or the offset it returns
    is that of an open token that starts an else or an elif and before
    which the ifs opened and the endifs met balance: the nesting depth there
    is zero.  Every else or elif before that token lies at a depth other
    than zero, inside an if that the text has opened and not closed, and was
    passed over.  In the text of the example the else of the inner if is
    passed over and the else after its endif is returned. *)
Theorem find_elifs_and_else_depth_zero :
  (forall (ext : Externals) (string_ : string) (p : Preprocessor)
          (b e : Z) (a : option string) (p' : Preprocessor),
      find_elifs_and_else string_ p = Ok (b, e, a) p' ->
      let tokens := _find_tokens (token_begin p) (token_end p) string_ in
      p' = p
      /\ ((b, e, a) = (-1, -1, None)
          \/ exists (i : nat) (t : Token),
               tokens !! i = Some t
               /\ tok_begin t = b
               /\ (starts_else p string_ t || starts_elif p string_ t) = true
               /\ if_depth p string_ (take i tokens) = 0
               /\ forall (j : nat) (t' : Token),
                    (j < i)%nat ->
                    tokens !! j = Some t' ->
                    (starts_else p string_ t' || starts_elif p string_ t') = true ->
                    if_depth p string_ (take j tokens) <> 0))
  /\ find_elifs_and_else (ext := Model.externals)
       "A{%if x%}B{%else%}C{%endif%}D{%else%}E" (initial "f" 20)
     = Ok (29, 37, None) (initial "f" 20).
Proof.
  split.
  - intros ext string_ p b e a p' Hrun tokens.
    destruct (find_elifs_and_else_sound _ _ _ _ _ _ Hrun)
      as [Hp [[Hr _] | (i & t & Hi & Hb & Hbound & Hfirst & _)]].
    + split; [exact Hp|]. left. exact Hr.
    + split; [exact Hp|]. right. exists i, t.
      destruct Hbound as (t0 & Hi0 & Hkind & Hdepth).
      fold tokens in Hi, Hi0, Hdepth, Hfirst. rewrite Hi in Hi0.
      injection Hi0 as <-.
      repeat split; [exact Hi | exact Hb | exact Hkind | exact Hdepth |].
      intros j t' Hj Hj' Hkind' Hzero.
      apply (Hfirst j Hj). exists t'. auto.
  - vm_compute. reflexivity.
Qed.

Lemma find_elifs_and_else_depth_zero_witness :
  let string_ := "{%if a%}x{%elif b%}y{%endif%}z{%elif c%}w" in
  let p := initial "f" 20 in
  let tokens :=
    @_find_tokens Model.externals (token_begin p) (token_end p) string_ in
  exists (i : nat) (t : Token),
    tokens !! i = Some t
    /\ tok_begin t = 30
    /\ if_depth (ext := Model.externals) p string_ (take i tokens) = 0.
Proof.
  intros string_ p tokens.
  destruct (proj1 find_elifs_and_else_depth_zero Model.externals
              string_ p 30 40 (Some " c") p)
    as [_ [Hs | (i & t & Hi & Hb & _ & Hd & _)]].
  - vm_compute. reflexivity.
  - discriminate Hs.
  - exists i, t. split; [exact Hi|]. split; [exact Hb | exact Hd].
Defined.

(* ===================================================================== *)
(** ** The if block: the choice of the branch *)
(* ===================================================================== *)

Section IfChain.

Context {ext : Externals}.

Lemma same_lexer_refl p : same_lexer p p.
Proof. repeat split. Qed.

Lemma same_lexer_trans p q r : same_lexer p q -> same_lexer q r -> same_lexer p r.
Proof.
  intros (H1 & H2 & H3 & H4) (G1 & G2 & G3 & G4).
  repeat split; congruence.
Qed.

(** A search that returned returns the same in any state with the same
    delimiters, and leaves that state as it was. *)
Lemma find_elifs_and_else_loop_lexer preproc preproc' string_ tokens :
  same_lexer preproc' preproc ->
  forall rest i depth p r p' q,
    find_elifs_and_else_loop preproc string_ tokens rest i depth p = Ok r p' ->
    find_elifs_and_else_loop preproc' string_ tokens rest i depth q = Ok r q.
Proof.
  intros (H1 & H2 & H3 & H4).
  induction rest as [|[[begin end'] token] rest IH];
    intros i depth p r p' q Hrun.
  - simpl in *. unfold ret in *. congruence.
  - simpl in *. rewrite H2, H3, H4.
    destruct token; [|eauto].
    destruct (matches _ (if_regex _) _); [eauto|].
    destruct (matches _ (endif_regex _ _) _); [eauto|].
    destruct (depth =? 0); [|eauto].
    destruct (Re.match_ _ (else_regex _) _).
    { unfold ret in *. congruence. }
    destruct (Re.match_ _ (elif_regex _) _); [|eauto].
    unfold bind at 1 in Hrun. unfold bind at 1. unfold when in *.
    destruct (Nat.eqb _ _).
    { unfold bind, get, context_update, modify, send_error in Hrun.
      discriminate. }
    unfold ret at 1 in Hrun. unfold ret at 1.
    destruct (tokens !! _); [|discriminate].
    unfold ret in *. congruence.
Qed.

Lemma find_elifs_and_else_lexer string_ p r p' q :
  same_lexer q p ->
  find_elifs_and_else string_ p = Ok r p' ->
  find_elifs_and_else string_ q = Ok r q.
Proof.
  intros Hsame Hrun. pose proof Hsame as (H1 & H2 & H3 & H4).
  unfold find_elifs_and_else in *. unfold bind at 1, get at 1 in Hrun.
  unfold bind at 1, get at 1. rewrite H1, H2.
  eapply find_elifs_and_else_loop_lexer; eassumption.
Qed.

Lemma context_update_lexer pos desc p p' :
  context_update pos desc p = Ok tt p' -> same_lexer p' p.
Proof. intros [= <-]. repeat split. Qed.

Lemma context_pop_lexer p p' : context_pop p = Ok tt p' -> same_lexer p' p.
Proof.
  unfold context_pop. destruct (context p); [discriminate|].
  intros [= <-]. repeat split.
Qed.

Variable parse : string -> M string.

Hypothesis parse_lexer :
  forall s q r q', parse s q = Ok r q' -> same_lexer q' q.
Hypothesis condition_eval_lexer :
  forall s q v q', condition_eval s q = Ok v q' -> same_lexer q' q.

Lemma elif_condition_lexer br a p v p' :
  elif_condition parse br a p = Ok v p' -> same_lexer p' p.
Proof.
  unfold elif_condition. unfold bind at 1, get at 1. unfold bind at 1.
  unfold context_update, modify at 1. unfold bind at 1.
  destruct (parse a _) as [r q| | | |] eqn:Hp; try discriminate.
  unfold bind at 1. destruct (context_pop q) as [[] q'| | | |] eqn:Hpop;
    try discriminate.
  intros Hc. apply condition_eval_lexer in Hc. apply parse_lexer in Hp.
  apply context_pop_lexer in Hpop.
  eapply same_lexer_trans; [exact Hc|].
  eapply same_lexer_trans; [exact Hpop|].
  eapply same_lexer_trans; [exact Hp|]. repeat split.
Qed.

Lemma blck_if_loop_select p0 contents :
  forall brs pos,
    if_chain p0 contents pos brs ->
    forall fuel value desc p,
      same_lexer p p0 ->
      (length brs < fuel)%nat ->
      blck_if_loop parse fuel contents value pos desc p
      = select_branch parse contents value pos desc brs p.
Proof.
  induction 1 as [pos e a Hfind | pos b e a rest Hfind Hb Hchain IH];
    intros fuel value desc p Hsame Hfuel.
  - destruct fuel as [|fuel]; [simpl in Hfuel; lia|].
    simpl blck_if_loop. unfold bind at 1.
    rewrite (find_elifs_and_else_lexer _ _ _ _ p Hsame Hfind).
    destruct value; reflexivity.
  - destruct fuel as [|fuel]; [simpl in Hfuel; lia|].
    simpl blck_if_loop. unfold bind at 1.
    rewrite (find_elifs_and_else_lexer _ _ _ _ p Hsame Hfind).
    destruct value.
    + simpl. replace (b =? -1) with false by lia. reflexivity.
    + replace (b =? -1) with false by lia. simpl in Hfuel.
      destruct a as [a|]; simpl select_branch.
      * cbn [br_args br_begin br_body]. unfold elif_condition.
        unfold bind, get, context_update, modify.
        destruct (parse a _) as [r q| | | |] eqn:Hp; try reflexivity.
        destruct (context_pop q) as [[] q'| | | |] eqn:Hpop; try reflexivity.
        destruct (condition_eval r q') as [v q''| | | |] eqn:Hc;
          try reflexivity.
        apply IH; [|lia].
        apply condition_eval_lexer in Hc. apply parse_lexer in Hp.
        apply context_pop_lexer in Hpop.
        eapply same_lexer_trans; [exact Hc|].
        eapply same_lexer_trans; [exact Hpop|].
        eapply same_lexer_trans; [exact Hp|].
        eapply same_lexer_trans; [|exact Hsame]. repeat split.
      * apply IH; [exact Hsame | lia].
Qed.

Lemma blck_if_select p0 contents brs fuel args p :
  if_chain p0 contents 0 brs ->
  same_lexer p p0 ->
  (length brs < fuel)%nat ->
  blck_if parse fuel args contents p
  = bind (condition_eval args)
      (fun value => select_branch parse contents value 0 "in if block" brs) p.
Proof.
  intros Hchain Hsame Hfuel. unfold blck_if, bind.
  destruct (condition_eval args p) as [v q| | | |] eqn:Hc; try reflexivity.
  apply (blck_if_loop_select p0 contents brs 0 Hchain); [|exact Hfuel].
  eapply same_lexer_trans; [|exact Hsame].
  eapply condition_eval_lexer. exact Hc.
Qed.

End IfChain.

(* ===================================================================== *)
(** ** The interpreter leaves the delimiters alone *)
(* ===================================================================== *)

Lemma keeps_ret {A : Type} (a : A) : keeps_lexer (ret a).
Proof. intros p a' p' [= <- <-]. apply same_lexer_refl. Qed.

Lemma keeps_bind {A B : Type} (c : M A) (k : A -> M B) :
  keeps_lexer c -> (forall a, keeps_lexer (k a)) -> keeps_lexer (bind c k).
Proof.
  intros Hc Hk p b p'. unfold bind.
  destruct (c p) as [a q| | | |] eqn:E; try discriminate.
  intros Hrun. eapply same_lexer_trans; [exact (Hk a q b p' Hrun)|].
  exact (Hc p a q E).
Qed.

Lemma keeps_get {A : Type} (f : Preprocessor -> A) : keeps_lexer (get f).
Proof. intros p a p' [= <- <-]. apply same_lexer_refl. Qed.

Lemma keeps_modify (f : Preprocessor -> Preprocessor) :
  (forall p, same_lexer (f p) p) -> keeps_lexer (modify f).
Proof. intros Hf p a p' H. inversion H; subst. apply Hf. Qed.

Lemma keeps_send_error {A : Type} (msg : string) : keeps_lexer (send_error (A := A) msg).
Proof. intros p a p'. discriminate. Qed.

Lemma keeps_raise {A : Type} (exn : string) : keeps_lexer (raise (A := A) exn).
Proof. intros p a p'. discriminate. Qed.

Lemma keeps_out_of_fuel {A : Type} : keeps_lexer (out_of_fuel (A := A)).
Proof. intros p a p'. discriminate. Qed.

Lemma keeps_send_warning (msg : string) : keeps_lexer (send_warning msg).
Proof.
  intros p a p'. unfold send_warning, send_error.
  destruct (warning_mode p); intros H; inversion H; subst; repeat split.
Qed.

Lemma keeps_when (b : bool) (c : M unit) : keeps_lexer c -> keeps_lexer (when b c).
Proof. intros Hc. destruct b; [exact Hc | apply keeps_ret]. Qed.

Lemma keeps_context_update pos desc : keeps_lexer (context_update pos desc).
Proof. apply keeps_modify. intros p. repeat split. Qed.

Lemma keeps_context_pop : keeps_lexer context_pop.
Proof. intros p [] p'. apply context_pop_lexer. Qed.

Lemma keeps_context_top_copy pos desc : keeps_lexer (context_top_copy pos desc).
Proof.
  intros p a p'. unfold context_top_copy. destruct (context p); [discriminate|].
  intros [= <- <-]. apply same_lexer_refl.
Qed.

Lemma keeps_get_atlabel : keeps_lexer get_atlabel.
Proof.
  intros p a p'. unfold get_atlabel.
  destruct (atlabel (command_vars p)); [|discriminate].
  intros [= <- <-]. apply same_lexer_refl.
Qed.

Lemma keeps_find_elifs_and_else {ext : Externals} s :
  keeps_lexer (find_elifs_and_else s).
Proof.
  intros p [[b e] a] p' Hrun.
  destruct (find_elifs_and_else_sound _ _ _ _ _ _ Hrun) as [-> _].
  apply same_lexer_refl.
Qed.

(** One step of the goal-directed proof that a handler keeps the lexer. *)
Ltac keeps_step :=
  match goal with
  | |- keeps_lexer (bind _ _) => apply keeps_bind; [|intros ?]
  | |- keeps_lexer (ret _) => apply keeps_ret
  | |- keeps_lexer (get _) => apply keeps_get
  | |- keeps_lexer current_end => apply keeps_get
  | |- keeps_lexer (modify _) =>
      apply keeps_modify; intros ?; repeat split
  | |- keeps_lexer (when _ _) => apply keeps_when
  | |- keeps_lexer (send_error _) => apply keeps_send_error
  | |- keeps_lexer (send_warning _) => apply keeps_send_warning
  | |- keeps_lexer (raise _) => apply keeps_raise
  | |- keeps_lexer out_of_fuel => apply keeps_out_of_fuel
  | |- keeps_lexer (context_update _ _) => apply keeps_context_update
  | |- keeps_lexer context_pop => apply keeps_context_pop
  | |- keeps_lexer (context_top_copy _ _) => apply keeps_context_top_copy
  | |- keeps_lexer get_atlabel => apply keeps_get_atlabel
  | |- keeps_lexer (find_elifs_and_else _) => apply keeps_find_elifs_and_else
  | H : forall s, keeps_lexer (?f s) |- keeps_lexer (?f _) => apply H
  | |- keeps_lexer (match ?x with _ => _ end) => destruct x
  | |- keeps_lexer (let x := _ in _) => cbv zeta
  end.

Ltac keeps := repeat keeps_step.

Section HandlersKeep.

Context {ext : Externals}.
Variable parse : string -> M string.
Hypothesis parse_keeps : forall s, keeps_lexer (parse s).
Hypothesis condition_eval_keeps : forall s, keeps_lexer (condition_eval s).
Hypothesis split_args_keeps : forall s, keeps_lexer (split_args s).

Lemma keeps_blck_void args contents : keeps_lexer (blck_void parse args contents).
Proof. unfold blck_void. keeps. Qed.

Lemma keeps_blck_block args contents : keeps_lexer (blck_block parse args contents).
Proof. unfold blck_block. keeps. Qed.

Lemma keeps_blck_verbatim args contents : keeps_lexer (blck_verbatim args contents).
Proof. unfold blck_verbatim. keeps. Qed.

Lemma keeps_blck_repeat args contents : keeps_lexer (blck_repeat parse args contents).
Proof. unfold blck_repeat. keeps. Qed.

Lemma keeps_blck_atlabel args contents : keeps_lexer (blck_atlabel parse args contents).
Proof. unfold blck_atlabel. keeps. Qed.

Lemma keeps_blck_for_loop ident contents values :
  forall result, keeps_lexer (blck_for_loop parse ident values contents result).
Proof.
  induction values as [|v values IH]; intros result; simpl; keeps; try apply IH.
Qed.

Lemma keeps_blck_for args contents : keeps_lexer (blck_for parse args contents).
Proof.
  unfold blck_for, blck_for_iterator. keeps; try apply keeps_blck_for_loop.
Qed.

Lemma keeps_blck_cut args contents : keeps_lexer (blck_cut parse args contents).
Proof. unfold blck_cut. keeps. Qed.

Lemma keeps_blck_if_loop contents fuel :
  forall value pos_0 desc,
    keeps_lexer (blck_if_loop parse fuel contents value pos_0 desc).
Proof.
  induction fuel as [|fuel IH]; intros value pos_0 desc; simpl; keeps;
    try apply IH.
Qed.

Lemma keeps_blck_if fuel args contents :
  keeps_lexer (blck_if parse fuel args contents).
Proof. unfold blck_if. keeps; try apply keeps_blck_if_loop. Qed.

End HandlersKeep.

Lemma keeps_condition_eval_ s : keeps_lexer (Model.condition_eval_ s).
Proof.
  intros p v p'. unfold Model.condition_eval_.
  destruct (Model.cond _ _ _ _) as [[v' [|]]|]; try discriminate.
  intros [= <- <-]. apply same_lexer_refl.
Qed.

Lemma keeps_split_args_ s : keeps_lexer (Model.split_args_ s).
Proof. unfold Model.split_args_. apply keeps_ret. Qed.

Lemma keeps_defined_value ident value args :
  keeps_lexer (defined_value ident value args).
Proof. unfold defined_value. keeps. Qed.

Section InterpKeeps.

Variable parse : string -> M string.
Hypothesis parse_keeps : forall s, keeps_lexer (parse s).

Lemma keeps_run_block fuel b args contents :
  keeps_lexer (Interp.run_block parse fuel b args contents).
Proof.
  destruct b; simpl.
  - apply keeps_blck_void; assumption.
  - apply keeps_blck_block; assumption.
  - apply keeps_blck_verbatim.
  - apply keeps_blck_repeat; assumption.
  - apply keeps_blck_atlabel; assumption.
  - apply keeps_blck_for; [assumption | apply keeps_split_args_].
  - apply keeps_blck_cut; [assumption | apply keeps_split_args_].
  - apply keeps_blck_if; [assumption | apply keeps_condition_eval_].
Qed.

Lemma keeps_run_command c args : keeps_lexer (Interp.run_command parse c args).
Proof.
  destruct c; simpl; [apply keeps_ret | apply keeps_defined_value | apply parse_keeps].
Qed.

Lemma keeps_in_directive start stop desc c :
  keeps_lexer c -> keeps_lexer (Interp.in_directive start stop desc c).
Proof. intros Hc. unfold Interp.in_directive. keeps; try exact Hc. Qed.

Lemma keeps_walk fuel text tokens :
  forall k cursor, keeps_lexer (Interp.walk parse fuel text tokens k cursor).
Proof.
  induction fuel as [|fuel IH]; intros k cursor.
  - simpl. keeps.
  - simpl. keeps;
      try (apply keeps_in_directive;
           first [apply keeps_run_block | apply keeps_run_command]);
      try apply IH.
Qed.

End InterpKeeps.

Lemma keeps_parse fuel : forall text, keeps_lexer (Interp.parse fuel text).
Proof.
  induction fuel as [|fuel IH]; intros text; simpl; [apply keeps_out_of_fuel|].
  keeps; try (apply keeps_walk; exact IH).
Qed.

Section IfChoice.

Context {ext : Externals}.
Variable parse : string -> M string.

Lemma select_branch_true contents pos desc rest :
  select_branch parse contents true pos desc rest
  = parse_branch parse contents pos desc rest.
Proof. destruct rest; reflexivity. Qed.

Lemma select_branch_chooses contents brs p br rest q :
  chooses parse brs p br rest q ->
  forall pos desc,
    select_branch parse contents false pos desc brs p
    = parse_branch parse contents (br_body br) (branch_desc br) rest q.
Proof.
  induction 1 as [br rest p Hno | br a rest p q Ha Hc
                 | br a rest p q br' rest' q' Ha Hc Hrest IH];
    intros pos desc; cbn [select_branch]; unfold branch_desc.
  - rewrite Hno, select_branch_true. reflexivity.
  - rewrite Ha. unfold bind. rewrite Hc, select_branch_true. reflexivity.
  - rewrite Ha. unfold bind at 1. rewrite Hc. apply IH.
Qed.

Lemma select_branch_fail contents brs p p' :
  conditions_fail parse brs p p' ->
  forall pos desc,
    select_branch parse contents false pos desc brs p = Ok "" p'.
Proof.
  induction 1 as [p | br a rest p q p' Ha Hc Hrest IH]; intros pos desc;
    cbn [select_branch].
  - reflexivity.
  - rewrite Ha. unfold bind at 1. rewrite Hc. apply IH.
Qed.

End IfChoice.

(** C3.  An if block whose contents split into the branches [brs].  The
    branches are those read in the text: each starts at the first else or
    elif at nesting depth zero after the body of the one before, the
    argument text of an elif is the text between the word [elif] and the
    close token that matches, and its body starts after that token.  The
    block evaluates the condition of the if, then goes through the branches
    from left to right: the argument text of an elif is parsed, in its own
    frame, and what the parse returned is evaluated as its condition; an
    else always holds.  The body of the first branch that holds, from its
    start to the next branch or to the end of the contents, is parsed and
    what the parse returned is the result of the block.  When the condition
    of the if and those of all the elifs are false and there is no else, the
    result is the empty string.  [fuel] need only exceed the number of
    branches.  Through the interpreter: an elif that holds after an if
    that fails gives its body; its argument is expanded before it is
    evaluated, so that a command in it decides; with no branch that holds
    the result is empty. *)
Theorem if_block_first_true_branch :
  (forall (ext : Externals) (parse : string -> M string)
          (p0 : Preprocessor) (contents : string) (brs : list Branch),
      (forall s, keeps_lexer (parse s)) ->
      (forall s, keeps_lexer (condition_eval s)) ->
      if_chain p0 contents 0 brs ->
      chain_in_text p0 contents 0 brs
      /\ forall (fuel : nat) (args : string) (p : Preprocessor),
           same_lexer p p0 ->
           (length brs < fuel)%nat ->
           blck_if parse fuel args contents p
           = bind (condition_eval args)
               (fun value =>
                  select_branch parse contents value 0 "in if block" brs) p
           /\ (forall q,
                 condition_eval args p = Ok true q ->
                 blck_if parse fuel args contents p
                 = parse_branch parse contents 0 "in if block" brs q)
           /\ (forall q br rest q',
                 condition_eval args p = Ok false q ->
                 chooses parse brs q br rest q' ->
                 blck_if parse fuel args contents p
                 = parse_branch parse contents (br_body br) (branch_desc br)
                     rest q')
           /\ (forall q q',
                 condition_eval args p = Ok false q ->
                 conditions_fail parse brs q q' ->
                 blck_if parse fuel args contents p = Ok "" q'))
  /\ find_elifs_and_else (ext := Model.externals) "A{%elif def y%}B{%else%}C"
       (initial "f" 20)
     = Ok (1, 15, Some " def y") (initial "f" 20)
  /\ blck_if (ext := Model.externals) (Interp.parse 3) 3 " 0 " "A{%elif 1%}B"
       (initial "f" 20)
     = Ok "B" (initial "f" 20)
  /\ (forall fuel : nat,
         (5 <= fuel)%nat ->
         value_of (Interp.parse fuel "{%if 0%}A{%elif 1%}B{%endif%}"
                     (initial "f" 20)) = Some "B"
         /\ value_of (Interp.parse fuel "{%if 0%}A{%elif 0%}B{%else%}C{%endif%}"
                        (initial "f" 20)) = Some "C"
         /\ value_of (Interp.parse fuel "{%if 0%}A{%elif 0%}B{%endif%}"
                        (initial "f" 20)) = Some ""
         /\ value_of (Interp.parse fuel "{%if 1%}A{%elif 1%}B{%else%}C{%endif%}"
                        (initial "f" 20)) = Some "A"
         /\ value_of (Interp.parse fuel "{%if 0%}A{%elif {%foo%}%}B{%endif%}"
                        (set_commands (insert "foo" (cmd_lambda "1" ""))
                           (initial "f" 20))) = Some "B"
         /\ value_of (Interp.parse fuel "{%if 0%}A{%elif {%foo%}%}B{%endif%}"
                        (set_commands (insert "foo" (cmd_lambda "0" ""))
                           (initial "f" 20))) = Some "").
Proof.
  split; [|split; [|split]].
  - intros ext parse p0 contents brs Hparse Hcond Hchain.
    split; [apply if_chain_in_text; exact Hchain|].
    intros fuel args p Hsame Hfuel.
    pose proof (blck_if_select parse Hparse Hcond p0 contents brs fuel args p
                  Hchain Hsame Hfuel) as Heq.
    split; [exact Heq|]. rewrite Heq. unfold bind.
    split; [|split].
    + intros q Hq. rewrite Hq. rewrite select_branch_true. reflexivity.
    + intros q br rest q' Hq Hch. rewrite Hq.
      apply select_branch_chooses. exact Hch.
    + intros q q' Hq Hf. rewrite Hq. apply select_branch_fail. exact Hf.
  - vm_compute. reflexivity.
  - vm_compute. reflexivity.
  - intros [|[|[|[|[|fuel]]]]] Hfuel; [lia | lia | lia | lia | lia |].
    repeat split; vm_compute; reflexivity.
Qed.

Lemma if_block_first_true_branch_witness :
  blck_if (ext := Model.externals) (Interp.parse 3) 4 " ndef x "
    "A{%elif def x%}B{%else%}C" (set_commands (insert "x" (cmd_lambda "1" "")) (initial "f" 20))
  = Ok "B" (set_commands (insert "x" (cmd_lambda "1" "")) (initial "f" 20))
  /\ chain_in_text (ext := Model.externals) (initial "f" 20)
       "A{%elif def x%}B{%else%}C" 0
       [ {| br_begin := 1; br_body := 15; br_args := Some " def x" |};
         {| br_begin := 16; br_body := 24; br_args := None |} ].
Proof.
  pose (p := set_commands (insert "x" (cmd_lambda "1" "")) (initial "f" 20)).
  destruct (proj1 if_block_first_true_branch Model.externals (Interp.parse 3)
              (initial "f" 20) "A{%elif def x%}B{%else%}C"
              [ {| br_begin := 1; br_body := 15; br_args := Some " def x" |};
                {| br_begin := 16; br_body := 24; br_args := None |} ]
              (keeps_parse 3) keeps_condition_eval_)
    as (Htext & Hrun).
  - apply (if_chain_next (ext := Model.externals) _ _ 0 1 15 (Some " def x"));
      [vm_compute; reflexivity | discriminate |].
    apply (if_chain_next (ext := Model.externals) _ _ (0 + 15) 1 9 None);
      [vm_compute; reflexivity | discriminate |].
    apply (if_chain_end (ext := Model.externals) _ _ (0 + 15 + 9) (-1) None).
    vm_compute. reflexivity.
  - split; [|exact Htext].
    destruct (Hrun 4%nat " ndef x " p) as (_ & _ & Hchoose & _).
    + repeat split.
    + simpl. lia.
    + refine (eq_trans (Hchoose p _ _ p _ _) _).
      * vm_compute. reflexivity.
      * eapply chooses_elif; [reflexivity | vm_compute; reflexivity].
      * vm_compute. reflexivity.
Defined.

(* ===================================================================== *)
(** ** The interpreter on text without directives *)
(* ===================================================================== *)

Lemma contains_cons sub c s :
  Py.contains sub (String c s) = false ->
  String.prefix sub (String c s) = false /\ Py.contains sub s = false.
Proof.
  change (Py.contains sub (String c s))
    with (String.prefix sub (String c s) || Py.contains sub s).
  intros H. apply orb_false_iff in H. exact H.
Qed.

Lemma prefix_escaped sub c s :
  Py.contains sub s = false ->
  String.prefix (Model.escape_marker +:+ sub) (String c s) = false.
Proof.
  intros H.
  change (String.prefix (Model.escape_marker +:+ sub) (String c s))
    with (if ascii_dec "\" c then String.prefix sub s else false).
  destruct (ascii_dec "\" c); [|reflexivity].
  destruct s as [|c' s].
  - destruct sub; [discriminate H | reflexivity].
  - apply contains_cons in H. apply H.
Qed.

Lemma find_tokens_from_none tb te s :
  Py.contains tb s = false -> Py.contains te s = false ->
  forall skip i, Model.find_tokens_from tb te skip s i = [].
Proof.
  induction s as [|c s IH]; intros Hb He skip i; [reflexivity|].
  destruct (contains_cons _ _ _ Hb) as [Hpb Hcb].
  destruct (contains_cons _ _ _ He) as [Hpe Hce].
  cbn [Model.find_tokens_from]. destruct skip as [|skip]; [|apply IH; assumption].
  unfold Model.starts.
  rewrite (prefix_escaped tb c s Hcb), (prefix_escaped te c s Hce), Hpb, Hpe.
  rewrite !andb_false_r. apply IH; assumption.
Qed.

Lemma unescape_from_none tb te s :
  Py.contains tb s = false -> Py.contains te s = false ->
  Model.unescape_from tb te 0 s = s.
Proof.
  induction s as [|c s IH]; intros Hb He; [reflexivity|].
  destruct (contains_cons _ _ _ Hb) as [Hpb Hcb].
  destruct (contains_cons _ _ _ He) as [Hpe Hce].
  cbn [Model.unescape_from].
  rewrite (prefix_escaped tb c s Hcb), (prefix_escaped te c s Hce).
  rewrite !andb_false_r. cbn [orb]. rewrite IH by assumption. reflexivity.
Qed.

Lemma slice_from_0 s : Py.slice_from s 0 = s.
Proof.
  unfold Py.slice_from, Py.clamp. cbn [Z.ltb Z.compare].
  rewrite Z.min_l by apply len_nonneg. reflexivity.
Qed.

Lemma walk_no_token parse fuel text k cursor p :
  Interp.walk parse fuel text [] k cursor p
  = Ok (Interp.literal p (Py.slice_from text cursor)) p.
Proof. destruct fuel; reflexivity. Qed.

Lemma leave_parse p :
  set_current_position (current_position p)
    (set_recursion_depth Z.pred (set_recursion_depth Z.succ p)) = p.
Proof.
  destruct p. unfold set_current_position, set_recursion_depth. simpl.
  f_equal. lia.
Qed.

Lemma parse_no_token fuel text p :
  Interp.recursion_exceeded (set_recursion_depth Z.succ p) = false ->
  Model.find_tokens (token_begin p) (token_end p) text = [] ->
  Interp.parse (S fuel) text p
  = Ok (Model.unescape (token_begin p) (token_end p) text) p.
Proof.
  intros Hrec Htok. cbn [Interp.parse].
  unfold bind at 1. unfold modify at 1. unfold bind at 1. unfold get at 1.
  rewrite Hrec.
  change (token_begin (set_recursion_depth Z.succ p)) with (token_begin p).
  change (token_end (set_recursion_depth Z.succ p)) with (token_end p).
  rewrite Htok. unfold bind at 1. rewrite walk_no_token.
  unfold bind, modify, ret. rewrite slice_from_0.
  change (current_position (set_recursion_depth Z.succ p))
    with (current_position p).
  rewrite leave_parse. reflexivity.
Qed.

(** C4.  With fuel for one call and a recursion counter that may still
    go up, the interpreter returns the empty string for the empty text, and
    for a text in which the scanner finds no token it returns the text with
    the escape markers stripped; the preprocessor is left as it was.  A text
    in which neither delimiter occurs has no token and no marker to strip:
    it is returned unchanged. *)
Theorem parse_text_without_directive :
  forall (fuel : nat) (text : string) (p : Preprocessor),
    (1 <= fuel)%nat ->
    Interp.recursion_exceeded (set_recursion_depth Z.succ p) = false ->
    Interp.parse fuel "" p = Ok "" p
    /\ (Model.find_tokens (token_begin p) (token_end p) text = [] ->
        Interp.parse fuel text p
        = Ok (Model.unescape (token_begin p) (token_end p) text) p)
    /\ (Py.contains (token_begin p) text = false ->
        Py.contains (token_end p) text = false ->
        Model.find_tokens (token_begin p) (token_end p) text = []
        /\ Model.unescape (token_begin p) (token_end p) text = text
        /\ Interp.parse fuel text p = Ok text p).
Proof.
  intros [|fuel] text p Hfuel Hrec; [lia|].
  split; [|split].
  - rewrite (parse_no_token fuel "" p Hrec); reflexivity.
  - intros Htok. apply parse_no_token; assumption.
  - intros Hb He.
    assert (Htok : Model.find_tokens (token_begin p) (token_end p) text = [])
      by (apply find_tokens_from_none; assumption).
    assert (Hun : Model.unescape (token_begin p) (token_end p) text = text)
      by (apply unescape_from_none; assumption).
    split; [exact Htok|]. split; [exact Hun|].
    rewrite (parse_no_token fuel text p Hrec Htok), Hun. reflexivity.
Qed.

Lemma parse_text_without_directive_witness :
  Interp.parse 1 "plain text, 100%" (initial "f" 20)
  = Ok "plain text, 100%" (initial "f" 20)
  /\ Interp.parse 1 "an escaped \{% stays" (initial "f" 20)
     = Ok "an escaped {% stays" (initial "f" 20).
Proof.
  destruct (parse_text_without_directive 1 "plain text, 100%" (initial "f" 20))
    as (_ & _ & Hplain); [lia | reflexivity |].
  destruct (parse_text_without_directive 1 "an escaped \{% stays"
              (initial "f" 20))
    as (_ & Hesc & _); [lia | reflexivity |].
  split.
  - apply Hplain; reflexivity.
  - rewrite Hesc; reflexivity.
Defined.

(* ===================================================================== *)
(** ** The recursion guard *)
(* ===================================================================== *)

(** Replace a closed subterm by its value. *)
Ltac evaluate t :=
  let v := eval vm_compute in t in change t with v.

Lemma walk_self (parse : string -> M string) fuel p :
  self_expanding p ->
  Interp.walk parse (S fuel) self_text [(0, 2, OPEN); (5, 7, CLOSE)] 0 0 p
  = match parse self_text (in_foo p) with
    | Ok out q =>
        bind context_pop
          (fun _ =>
             bind (Interp.walk parse fuel self_text
                     [(0, 2, OPEN); (5, 7, CLOSE)] 2 7)
               (fun rest =>
                  ret (Interp.literal p (Py.slice self_text 0 0)
                       +:+ out +:+ rest))) q
    | Fatal m q => Fatal m q
    | Raised e q => Raised e q
    | Exited st o q => Exited st o q
    | OutOfFuel => OutOfFuel
    end.
Proof.
  intros (Hb & He & Hc). unfold self_text in *.
  cbn [Interp.walk lookup list_lookup].
  unfold bind at 1. unfold get at 1.
  match goal with |- context [Model.matching_close ?a ?b] =>
    evaluate (Model.matching_close a b) end.
  cbn [lookup list_lookup tok_begin tok_end fst snd].
  match goal with |- context [Interp.directive_ident ?a] =>
    evaluate (Interp.directive_ident a) end.
  cbv beta iota zeta.
  match goal with |- context [lookup_block ?a] =>
    evaluate (lookup_block a) end.
  cbn [mbind option_bind].
  rewrite Hc.
  unfold bind at 1. unfold Interp.in_directive.
  unfold bind at 1. unfold modify at 1. unfold bind at 1.
  unfold context_update, modify at 1. unfold bind at 1.
  cbn [Interp.run_command].
  evaluate ("in " +:+ "foo").
  fold (in_foo p).
  destruct (parse "{%foo%}" (in_foo p)) as [out q| | | |];
    [|reflexivity|reflexivity|reflexivity|reflexivity].
  unfold bind, ret.
  destruct (context_pop q) as [[] q'| | | |]; reflexivity.
Qed.

Lemma parse_self_step fuel p :
  self_expanding p ->
  Interp.parse (S fuel) self_text p
  = if Interp.recursion_exceeded (set_recursion_depth Z.succ p) then
      send_error recursion_message (set_recursion_depth Z.succ p)
    else
      bind (Interp.walk (Interp.parse fuel) fuel self_text
              [(0, 2, OPEN); (5, 7, CLOSE)] 0 0)
        (fun r =>
           bind (modify (set_recursion_depth Z.pred))
             (fun _ =>
                bind (modify (set_current_position (current_position p)))
                  (fun _ => ret r)))
        (set_recursion_depth Z.succ p).
Proof.
  intros (Hb & He & Hc). cbn [Interp.parse].
  unfold bind at 1. unfold modify at 1. unfold bind at 1. unfold get at 1.
  change (token_begin (set_recursion_depth Z.succ p)) with (token_begin p).
  change (token_end (set_recursion_depth Z.succ p)) with (token_end p).
  rewrite Hb, He.
  change (Model.find_tokens "{%" "%}" self_text)
    with [(0, 2, OPEN); (5, 7, CLOSE)].
  change (current_position (set_recursion_depth Z.succ p))
    with (current_position p).
  destruct (Interp.recursion_exceeded (set_recursion_depth Z.succ p));
    reflexivity.
Qed.

Lemma self_expanding_nested p :
  self_expanding p -> self_expanding (in_foo (set_recursion_depth Z.succ p)).
Proof. intros H. exact H. Qed.

(** With [n] levels left below the maximum, the expansion ends in the
    recursion error, raised when the counter is one above the maximum. *)
Lemma parse_self_bounded (d : Z) :
  forall (n : nat) (fuel : nat) (p : Preprocessor),
    self_expanding p ->
    max_recursion_depth p = d ->
    0 <= d ->
    recursion_depth p = d - Z.of_nat n ->
    (n < fuel)%nat ->
    exists p',
      Interp.parse fuel self_text p = Fatal recursion_message p'
      /\ recursion_depth p' = d + 1.
Proof.
  induction n as [|n IH]; intros fuel p Hself Hmax Hd Hdepth Hfuel.
  - destruct fuel as [|fuel]; [lia|].
    rewrite (parse_self_step fuel p Hself).
    unfold Interp.recursion_exceeded.
    cbn [max_recursion_depth recursion_depth set_recursion_depth].
    rewrite Hmax, Hdepth.
    destruct (d =? -1) eqn:E1; [apply Z.eqb_eq in E1; lia|].
    destruct (d <? Z.succ (d - Z.of_nat 0)) eqn:E2;
      [|apply Z.ltb_ge in E2; lia].
    cbn [negb andb]. unfold send_error.
    eexists. split; [reflexivity|].
    cbn [recursion_depth set_log set_recursion_depth]. lia.
  - destruct fuel as [|[|fuel]]; [lia | lia |].
    rewrite (parse_self_step (S fuel) p Hself).
    unfold Interp.recursion_exceeded.
    cbn [max_recursion_depth recursion_depth set_recursion_depth].
    rewrite Hmax, Hdepth.
    destruct (d =? -1) eqn:E1; [apply Z.eqb_eq in E1; lia|].
    destruct (d <? Z.succ (d - Z.of_nat (S n))) eqn:E2;
      [apply Z.ltb_lt in E2; lia|].
    cbn [negb andb]. unfold bind at 1.
    rewrite (walk_self (Interp.parse (S fuel)) fuel _
               (Hself : self_expanding (set_recursion_depth Z.succ p))).
    destruct (IH (S fuel) (in_foo (set_recursion_depth Z.succ p)))
      as (p' & Hrun & Hp'); try assumption.
    + cbn [recursion_depth in_foo set_context set_current_position
           set_recursion_depth].
      rewrite Hdepth. lia.
    + lia.
    + rewrite Hrun. exists p'. split; [reflexivity | exact Hp'].
Qed.

(** With the check disabled nothing stops the expansion: whatever the
    fuel, the model runs out of it. *)
Lemma parse_self_unbounded :
  forall (fuel : nat) (p : Preprocessor),
    self_expanding p ->
    max_recursion_depth p = -1 ->
    Interp.parse fuel self_text p = OutOfFuel.
Proof.
  induction fuel as [|fuel IH]; intros p Hself Hmax; [reflexivity|].
  rewrite (parse_self_step fuel p Hself).
  unfold Interp.recursion_exceeded.
  cbn [max_recursion_depth set_recursion_depth]. rewrite Hmax.
  cbn [Z.eqb Z.compare Pos.compare Pos.compare_cont negb andb].
  unfold bind at 1.
  destruct fuel as [|fuel]; [reflexivity|].
  rewrite (walk_self (Interp.parse (S fuel)) fuel _
             (Hself : self_expanding (set_recursion_depth Z.succ p))).
  rewrite (IH (in_foo (set_recursion_depth Z.succ p))); [reflexivity| |].
  - exact Hself.
  - exact Hmax.
Qed.

(* ===================================================================== *)
(** ** The option [--recursion-depth] *)
(* ===================================================================== *)

Section RecursionOption.

Variables (abspath dirname : string -> string).
Variable get_help : Preprocessor -> string -> string.
Variables (NAME VERSION : string).

Local Abbreviation process_options :=
  (Main.process_options abspath dirname get_help NAME VERSION).

Lemma process_options_below_minus_one arguments p r l :
  Main.arg_recursion_depth arguments = Some (r :: l) ->
  r < -1 ->
  process_options arguments p
  = match Main.process_defines (Main.arg_define arguments)
            (with_io_commands arguments p) with
    | Ok _ q =>
        Exited 2 recursion_option_message (with_include_path abspath dirname arguments q)
    | Fatal m q => Fatal m q
    | Raised e q => Raised e q
    | Exited st o q => Exited st o q
    | OutOfFuel => OutOfFuel
    end.
Proof.
  intros Hr Hlt. unfold Main.process_options.
  unfold bind at 1. unfold modify at 1. unfold bind at 1. unfold modify at 1.
  unfold bind at 1. fold (with_io_commands arguments p).
  destruct (Main.process_defines (Main.arg_define arguments)
              (with_io_commands arguments p)) as [[] q| | | |] eqn:Hdef;
    [|reflexivity|reflexivity|reflexivity|reflexivity].
  unfold bind at 1. unfold modify at 1. fold (with_include_path abspath dirname arguments q).
  rewrite Hr. unfold bind at 1. unfold bind at 1.
  cbn [Main.head_or_raise]. unfold ret at 1.
  destruct (r <? -1) eqn:E; [|apply Z.ltb_ge in E; lia].
  reflexivity.
Qed.

Lemma process_options_accepts arguments p r :
  Main.arg_recursion_depth arguments = Some [r] ->
  -1 <= r ->
  Main.arg_define arguments = [] ->
  Main.arg_silent arguments = [] ->
  Main.arg_version arguments = false ->
  Main.arg_help arguments = None ->
  exists p',
    process_options arguments p = Ok tt p' /\ max_recursion_depth p' = r.
Proof.
  intros Hr Hle Hdef Hsil Hver Hhelp. unfold Main.process_options.
  rewrite Hr, Hdef, Hsil, Hver, Hhelp.
  unfold bind, modify, ret, when, Main.process_defines, Main.head_or_raise.
  cbn [Main.process_defines_loop Main.firsts]. unfold ret, bind, modify.
  destruct (r <? -1) eqn:E; [apply Z.ltb_lt in E; lia|].
  destruct (Main.arg_begin arguments), (Main.arg_end arguments);
    eexists; split; reflexivity.
Qed.

End RecursionOption.

(** C1.  A preprocessor with the default delimiters in which [foo] expands
    to the directive [foo], a maximum recursion depth [d] and a counter at
    zero.  For [d] at least zero and any fuel above [d], the parse of the
    directive ends in the fatal error [maximum recursion depth exceeded],
    raised with the counter at [d + 1], the first value above the maximum:
    the expansion stops after [d + 1] nested calls.  For the maximum [-1]
    the check never fires: whatever the fuel, the model runs out of it.
    On the command line a recursion depth below [-1] is never accepted:
    once the defines are through, the parser reports the error and the
    process exits with status 2; a depth of at least [-1] becomes the
    maximum. *)
Theorem recursion_guard :
  (forall (d : Z) (fuel : nat) (p : Preprocessor),
      0 <= d ->
      self_expanding p ->
      max_recursion_depth p = d ->
      recursion_depth p = 0 ->
      (Z.to_nat d < fuel)%nat ->
      exists p',
        Interp.parse fuel self_text p = Fatal recursion_message p'
        /\ recursion_depth p' = d + 1)
  /\ (forall (fuel : nat) (p : Preprocessor),
         self_expanding p ->
         max_recursion_depth p = -1 ->
         Interp.parse fuel self_text p = OutOfFuel)
  /\ (forall (abspath dirname : string -> string)
             (get_help : Preprocessor -> string -> string)
             (NAME VERSION : string)
             (arguments : Main.Namespace) (p : Preprocessor)
             (r : Z) (l : list Z),
         Main.arg_recursion_depth arguments = Some (r :: l) ->
         r < -1 ->
         rejected (Main.process_options abspath dirname get_help NAME VERSION
                     arguments p)
         /\ forall q,
              Main.process_defines (Main.arg_define arguments)
                (with_io_commands arguments p) = Ok tt q ->
              Main.process_options abspath dirname get_help NAME VERSION
                arguments p
              = Exited 2 recursion_option_message
                  (with_include_path abspath dirname arguments q))
  /\ (forall (abspath dirname : string -> string)
             (get_help : Preprocessor -> string -> string)
             (NAME VERSION : string)
             (arguments : Main.Namespace) (p : Preprocessor) (r : Z),
         Main.arg_recursion_depth arguments = Some [r] ->
         -1 <= r ->
         Main.arg_define arguments = [] ->
         Main.arg_silent arguments = [] ->
         Main.arg_version arguments = false ->
         Main.arg_help arguments = None ->
         exists p',
           Main.process_options abspath dirname get_help NAME VERSION
             arguments p = Ok tt p'
           /\ max_recursion_depth p' = r).
Proof.
  split; [|split; [|split]].
  - intros d fuel p Hd Hself Hmax Hdepth Hfuel.
    apply (parse_self_bounded d (Z.to_nat d) fuel p); try assumption.
    rewrite Hdepth. lia.
  - exact parse_self_unbounded.
  - intros abspath dirname get_help NAME VERSION arguments p r l Hr Hlt.
    rewrite (process_options_below_minus_one abspath dirname get_help NAME
               VERSION arguments p r l Hr Hlt).
    split.
    + destruct (Main.process_defines _ _); exact I.
    + intros q Hq. rewrite Hq. reflexivity.
  - intros abspath dirname get_help NAME VERSION arguments p r.
    apply process_options_accepts.
Qed.

Lemma recursion_guard_witness :
  (exists p',
     Interp.parse 3 self_text (self_state 2) = Fatal recursion_message p'
     /\ recursion_depth p' = 2 + 1)
  /\ Interp.parse 50 self_text (self_state (-1)) = OutOfFuel
  /\ rejected (Main.process_options (fun s => s) (fun s => s)
                 (fun _ _ => "") "pproc" "1"
                 (depth_arguments (-2)) (initial "f" 20)).
Proof.
  split; [|split].
  - apply (proj1 recursion_guard 2 3%nat (self_state 2)).
    + lia.
    + repeat split.
    + reflexivity.
    + reflexivity.
    + simpl. lia.
  - apply (proj1 (proj2 recursion_guard) 50%nat (self_state (-1))).
    + repeat split.
    + reflexivity.
  - apply (proj1 (proj2 (proj2 recursion_guard)) (fun s => s) (fun s => s)
             (fun _ _ => "") "pproc" "1" (depth_arguments (-2))
             (initial "f" 20) (-2) []).
    + reflexivity.
    + lia.
Defined.

(* ===================================================================== *)
(** ** More facts on strings *)
(* ===================================================================== *)

Lemma drop_length n : forall s,
  String.length (Py.drop n s) = (String.length s - n)%nat.
Proof.
  induction n as [|n IH]; intros [|c s]; simpl; try reflexivity; try lia.
  apply IH.
Qed.

(* ===================================================================== *)
(** ** What the handlers leave alone *)
(* ===================================================================== *)

Section Related.

Variable R : Preprocessor -> Preprocessor -> Prop.
Hypothesis R_refl : forall p, R p p.
Hypothesis R_trans : forall p q r, R p q -> R q r -> R p r.

Lemma related_ret {A : Type} (a : A) : ends_related R (ret a).
Proof. intros p p' [= <-]. apply R_refl. Qed.

Lemma related_bind {A B : Type} (c : M A) (k : A -> M B) :
  ends_related R c -> (forall a, ends_related R (k a)) ->
  ends_related R (bind c k).
Proof.
  intros Hc Hk p p'. unfold bind.
  destruct (c p) as [a q|m q|e q|st o q|] eqn:E; intros H.
  - eapply R_trans; [apply (Hc p q); rewrite E; reflexivity|].
    apply (Hk a q p' H).
  - apply (Hc p p'). rewrite E. exact H.
  - apply (Hc p p'). rewrite E. exact H.
  - apply (Hc p p'). rewrite E. exact H.
  - discriminate.
Qed.

Lemma related_get {A : Type} (f : Preprocessor -> A) : ends_related R (get f).
Proof. intros p p' [= <-]. apply R_refl. Qed.

Lemma related_modify (f : Preprocessor -> Preprocessor) :
  (forall p, R p (f p)) -> ends_related R (modify f).
Proof. intros Hf p p' [= <-]. apply Hf. Qed.

Lemma related_raise {A : Type} (exn : string) :
  ends_related R (raise (A := A) exn).
Proof. intros p p' [= <-]. apply R_refl. Qed.

Lemma related_out_of_fuel {A : Type} : ends_related R (out_of_fuel (A := A)).
Proof. intros p p'. discriminate. Qed.

Lemma related_when (b : bool) (c : M unit) :
  ends_related R c -> ends_related R (when b c).
Proof. intros Hc. destruct b; [exact Hc | apply related_ret]. Qed.

Hypothesis R_commands : forall g p, R p (set_commands g p).
Hypothesis R_command_vars : forall g p, R p (set_command_vars g p).
Hypothesis R_context : forall g p, R p (set_context g p).
Hypothesis R_log : forall e p, R p (set_log (fun l => l ++ [e]) p).

Lemma related_send_error {A : Type} (msg : string) :
  ends_related R (send_error (A := A) msg).
Proof. intros p p' [= <-]. apply R_log. Qed.

Lemma related_send_warning (msg : string) : ends_related R (send_warning msg).
Proof.
  intros p p'. unfold send_warning, send_error.
  destruct (warning_mode p); intros [= <-];
    [apply R_log | apply R_refl | apply R_log].
Qed.

Lemma related_context_update pos desc :
  ends_related R (context_update pos desc).
Proof. apply related_modify. intros p. apply R_context. Qed.

Lemma related_context_pop : ends_related R context_pop.
Proof.
  intros p p'. unfold context_pop.
  destruct (context p); intros [= <-]; [apply R_refl | apply R_context].
Qed.

Lemma related_context_top_copy pos desc :
  ends_related R (context_top_copy pos desc).
Proof.
  intros p p'. unfold context_top_copy.
  destruct (context p); intros [= <-]; apply R_refl.
Qed.

Lemma related_get_atlabel : ends_related R get_atlabel.
Proof.
  intros p p'. unfold get_atlabel.
  destruct (atlabel (command_vars p)); intros [= <-]; apply R_refl.
Qed.

End Related.

(** One step of the goal-directed proof that a computation ends in a
    related state. *)
Ltac related_step :=
  match goal with
  | |- ends_related _ (bind _ _) => apply related_bind; [assumption| |intros ?]
  | |- ends_related _ (ret _) => apply related_ret; assumption
  | |- ends_related _ (get _) => apply related_get; assumption
  | |- ends_related _ current_end => apply related_get; assumption
  | |- ends_related _ (modify (set_commands _)) =>
      apply related_modify; intros ?; auto
  | |- ends_related _ (modify (set_command_vars _)) =>
      apply related_modify; intros ?; auto
  | |- ends_related _ (when _ _) => apply related_when; [assumption|]
  | |- ends_related _ (send_error _) => apply related_send_error; assumption
  | |- ends_related _ (send_warning _) =>
      apply related_send_warning; assumption
  | |- ends_related _ (raise _) => apply related_raise; assumption
  | |- ends_related _ out_of_fuel => apply related_out_of_fuel
  | |- ends_related _ (context_update _ _) =>
      apply related_context_update; assumption
  | |- ends_related _ context_pop => apply related_context_pop; assumption
  | |- ends_related _ (context_top_copy _ _) =>
      apply related_context_top_copy; assumption
  | |- ends_related _ get_atlabel => apply related_get_atlabel; assumption
  | H : forall s, ends_related _ (?f s) |- ends_related _ (?f _) => apply H
  | H : forall a b s r t, ends_related _ (?f a b s r t)
    |- ends_related _ (?f _ _ _ _ _) => apply H
  | |- ends_related _ (match ?x with _ => _ end) => destruct x
  | |- ends_related _ (let x := _ in _) => cbv zeta
  end.

Ltac related := repeat related_step.

Section HandlersRelated.

Context {ext : Externals}.
Variable parse : string -> M string.

Variable R : Preprocessor -> Preprocessor -> Prop.
Hypothesis R_refl : forall p, R p p.
Hypothesis R_trans : forall p q r, R p q -> R q r -> R p r.
Hypothesis R_commands : forall g p, R p (set_commands g p).
Hypothesis R_command_vars : forall g p, R p (set_command_vars g p).
Hypothesis R_context : forall g p, R p (set_context g p).
Hypothesis R_log : forall e p, R p (set_log (fun l => l ++ [e]) p).

Hypothesis parse_related : forall s, ends_related R (parse s).
Hypothesis condition_eval_related : forall s, ends_related R (condition_eval s).
Hypothesis split_args_related : forall s, ends_related R (split_args s).
Hypothesis replace_string_related :
  forall a b s r t, ends_related R (replace_string a b s r t).

Lemma related_defined_value ident value args :
  ends_related R (defined_value ident value args).
Proof. unfold defined_value. related. Qed.

Lemma related_blck_void args contents :
  ends_related R (blck_void parse args contents).
Proof. unfold blck_void. related. Qed.

Lemma related_blck_block args contents :
  ends_related R (blck_block parse args contents).
Proof. unfold blck_block. related. Qed.

Lemma related_blck_verbatim args contents :
  ends_related R (blck_verbatim args contents).
Proof. unfold blck_verbatim. related. Qed.

Lemma related_blck_repeat args contents :
  ends_related R (blck_repeat parse args contents).
Proof. unfold blck_repeat. related. Qed.

Lemma related_blck_atlabel args contents :
  ends_related R (blck_atlabel parse args contents).
Proof. unfold blck_atlabel. related. Qed.

Lemma related_fnl_atlabel_places lbl idxs :
  forall string_, ends_related R (fnl_atlabel_places lbl idxs string_).
Proof.
  induction idxs as [|i idxs IH]; intros string_; simpl; related; try apply IH.
Qed.

Lemma related_fnl_atlabel_labels lbls :
  forall string_ dels, ends_related R (fnl_atlabel_labels lbls string_ dels).
Proof.
  induction lbls as [|lbl lbls IH]; intros string_ dels; simpl; related;
    try apply related_fnl_atlabel_places; try apply IH.
Qed.

Lemma related_fnl_atlabel_deletions dels :
  ends_related R (fnl_atlabel_deletions dels).
Proof. induction dels as [|lbl dels IH]; simpl; related; try apply IH. Qed.

Lemma related_fnl_atlabel string_ : ends_related R (fnl_atlabel string_).
Proof.
  unfold fnl_atlabel. related;
    try apply related_fnl_atlabel_labels;
    try apply related_fnl_atlabel_deletions.
Qed.

Lemma related_blck_for_loop ident contents values :
  forall result,
    ends_related R (blck_for_loop parse ident values contents result).
Proof.
  induction values as [|v values IH]; intros result; simpl; related;
    try apply IH.
Qed.

Lemma related_blck_for args contents :
  ends_related R (blck_for parse args contents).
Proof.
  unfold blck_for, blck_for_iterator. related;
    try apply related_blck_for_loop.
Qed.

Lemma related_blck_cut args contents :
  ends_related R (blck_cut parse args contents).
Proof. unfold blck_cut. related. Qed.

Lemma related_find_elifs_and_else_loop preproc string_ tokens rest :
  forall i depth,
    ends_related R
      (find_elifs_and_else_loop preproc string_ tokens rest i depth).
Proof.
  induction rest as [|[[b e] k] rest IH]; intros i depth; simpl; related;
    try apply IH.
Qed.

Lemma related_find_elifs_and_else string_ :
  ends_related R (find_elifs_and_else string_).
Proof.
  unfold find_elifs_and_else. related.
  apply related_find_elifs_and_else_loop.
Qed.

Lemma related_blck_if_loop contents fuel :
  forall value pos_0 desc,
    ends_related R (blck_if_loop parse fuel contents value pos_0 desc).
Proof.
  induction fuel as [|fuel IH]; intros value pos_0 desc; simpl; related;
    try apply related_find_elifs_and_else; try apply IH.
Qed.

Lemma related_blck_if fuel args contents :
  ends_related R (blck_if parse fuel args contents).
Proof. unfold blck_if. related; try apply related_blck_if_loop. Qed.

End HandlersRelated.

Lemma related_condition_eval_ R s :
  (forall p, R p p) ->
  (forall e p, R p (set_log (fun l => l ++ [e]) p)) ->
  ends_related R (Model.condition_eval_ s).
Proof.
  intros Hrefl Hlog p p'. unfold Model.condition_eval_, send_error.
  destruct (Model.cond _ _ _ _) as [[v [|]]|]; intros [= <-];
    first [apply Hrefl | apply Hlog].
Qed.

Lemma related_split_args_ R s :
  (forall p, R p p) -> ends_related R (Model.split_args_ s).
Proof. intros Hrefl. unfold Model.split_args_. apply related_ret. exact Hrefl. Qed.

Section InterpRelated.

Variable R : Preprocessor -> Preprocessor -> Prop.
Hypothesis R_refl : forall p, R p p.
Hypothesis R_trans : forall p q r, R p q -> R q r -> R p r.
Hypothesis R_commands : forall g p, R p (set_commands g p).
Hypothesis R_command_vars : forall g p, R p (set_command_vars g p).
Hypothesis R_context : forall g p, R p (set_context g p).
Hypothesis R_log : forall e p, R p (set_log (fun l => l ++ [e]) p).
Hypothesis R_recursion_depth : forall g p, R p (set_recursion_depth g p).
Hypothesis R_current_position : forall x p, R p (set_current_position x p).

Variable parse : string -> M string.
Hypothesis parse_related : forall s, ends_related R (parse s).

Lemma related_run_block fuel b args contents :
  ends_related R (Interp.run_block parse fuel b args contents).
Proof.
  destruct b; simpl.
  - apply related_blck_void; assumption.
  - apply related_blck_block; assumption.
  - apply related_blck_verbatim; assumption.
  - apply related_blck_repeat; assumption.
  - apply related_blck_atlabel; assumption.
  - apply related_blck_for; try assumption.
    intros s. apply related_split_args_. assumption.
  - apply related_blck_cut; try assumption.
    intros s. apply related_split_args_. assumption.
  - apply related_blck_if; try assumption.
    intros s. apply related_condition_eval_; assumption.
Qed.

Lemma related_run_command c args :
  ends_related R (Interp.run_command parse c args).
Proof.
  destruct c; simpl;
    [apply related_ret; assumption
    | apply related_defined_value; assumption
    | apply parse_related].
Qed.

Lemma related_in_directive start stop desc c :
  ends_related R c -> ends_related R (Interp.in_directive start stop desc c).
Proof.
  intros Hc. unfold Interp.in_directive.
  apply related_bind; [assumption| |intros ?].
  { apply related_modify. intros p. apply R_current_position. }
  related; try exact Hc.
Qed.

Lemma related_walk fuel text tokens :
  forall k cursor,
    ends_related R (Interp.walk parse fuel text tokens k cursor).
Proof.
  induction fuel as [|fuel IH]; intros k cursor.
  - simpl. related.
  - simpl. related;
      try (apply related_in_directive;
           first [apply related_run_block | apply related_run_command]);
      try apply IH.
Qed.

End InterpRelated.

Lemma related_parse R :
  (forall p, R p p) ->
  (forall p q r, R p q -> R q r -> R p r) ->
  (forall g p, R p (set_commands g p)) ->
  (forall g p, R p (set_command_vars g p)) ->
  (forall g p, R p (set_context g p)) ->
  (forall e p, R p (set_log (fun l => l ++ [e]) p)) ->
  (forall g p, R p (set_recursion_depth g p)) ->
  (forall x p, R p (set_current_position x p)) ->
  forall fuel text, ends_related R (Interp.parse fuel text).
Proof.
  intros Hrefl Htrans Hc Hv Hx Hl Hd Hp.
  induction fuel as [|fuel IH]; intros text; simpl;
    [apply related_out_of_fuel|].
  apply related_bind; [assumption| |intros ?].
  { apply related_modify. intros p. apply Hd. }
  apply related_bind; [assumption| |intros p0].
  { apply related_get. assumption. }
  destruct (Interp.recursion_exceeded p0).
  { apply related_send_error. assumption. }
  apply related_bind; [assumption| |intros r].
  { apply related_walk; assumption. }
  apply related_bind; [assumption| |intros ?].
  { apply related_modify. intros p. apply Hd. }
  apply related_bind; [assumption| |intros ?].
  { apply related_modify. intros p. apply Hp. }
  apply related_ret. assumption.
Qed.

(** X1.  The block handlers, the search for the next branch and the
    finalisation of atlabel write four attributes of the preprocessor and no
    other: the command registry, the command variables, the context stack
    and the log.  Any attribute [f] that does not depend on these four, and
    that the nested parse and the imported functions leave alone, is the
    same after a handler as before it, however the handler ends: with a
    value, with a fatal error or with an exception.  The delimiters, the
    warning mode and the recursion limit are such attributes. *)
Theorem handlers_write_four_attributes :
  forall (ext : Externals) (parse : string -> M string)
         (B : Type) (f : Preprocessor -> B),
    (forall g p, f (set_commands g p) = f p) ->
    (forall g p, f (set_command_vars g p) = f p) ->
    (forall g p, f (set_context g p) = f p) ->
    (forall g p, f (set_log g p) = f p) ->
    (forall s, ends_related (same_on f) (parse s)) ->
    (forall s, ends_related (same_on f) (condition_eval s)) ->
    (forall s, ends_related (same_on f) (split_args s)) ->
    (forall a b s r t, ends_related (same_on f) (replace_string a b s r t)) ->
    forall args contents : string,
      ends_related (same_on f) (blck_void parse args contents)
      /\ ends_related (same_on f) (blck_block parse args contents)
      /\ ends_related (same_on f) (blck_verbatim args contents)
      /\ ends_related (same_on f) (blck_repeat parse args contents)
      /\ ends_related (same_on f) (blck_atlabel parse args contents)
      /\ ends_related (same_on f) (blck_for parse args contents)
      /\ ends_related (same_on f) (blck_cut parse args contents)
      /\ (forall fuel, ends_related (same_on f) (blck_if parse fuel args contents))
      /\ ends_related (same_on f) (find_elifs_and_else contents)
      /\ ends_related (same_on f) (fnl_atlabel contents)
      /\ (forall ident value,
            ends_related (same_on f) (defined_value ident value args)).
Proof.
  intros ext parse B f Hc Hv Hx Hl Hparse Hcond Hsplit Hrepl args contents.
  assert (Hrefl : forall p, same_on f p p) by reflexivity.
  assert (Htrans : forall p q r, same_on f p q -> same_on f q r -> same_on f p r).
  { unfold same_on. intros p q r H1 H2. congruence. }
  assert (Hc' : forall g p, same_on f p (set_commands g p)) by (intros; apply Hc).
  assert (Hv' : forall g p, same_on f p (set_command_vars g p))
    by (intros; apply Hv).
  assert (Hx' : forall g p, same_on f p (set_context g p)) by (intros; apply Hx).
  assert (Hl' : forall e p, same_on f p (set_log (fun l => l ++ [e]) p))
    by (intros; apply Hl).
  repeat split.
  - apply related_blck_void; assumption.
  - apply related_blck_block; assumption.
  - apply related_blck_verbatim; assumption.
  - apply related_blck_repeat; assumption.
  - apply related_blck_atlabel; assumption.
  - apply related_blck_for; assumption.
  - apply related_blck_cut; assumption.
  - intros fuel. apply related_blck_if; assumption.
  - apply related_find_elifs_and_else; assumption.
  - apply related_fnl_atlabel; assumption.
  - intros ident value. apply related_defined_value; assumption.
Qed.

Lemma settings_kept_by_parse fuel text :
  ends_related (same_on settings) (Interp.parse fuel text).
Proof.
  apply related_parse; try (intros; reflexivity).
  unfold same_on. intros p q r H1 H2. congruence.
Qed.

Lemma handlers_write_four_attributes_witness :
  exists p',
    state_of (blck_for (ext := Model.externals) (Interp.parse 3)
                " x in range(3) " "{%x%}," (initial "f" 20)) = Some p'
    /\ settings p' = settings (initial "f" 20).
Proof.
  eexists. split; [vm_compute; reflexivity|].
  refine (proj1 (proj2 (proj2 (proj2 (proj2 (proj2
            (handlers_write_four_attributes Model.externals (Interp.parse 3)
               _ settings _ _ _ _ _ _ _ _ " x in range(3) " "{%x%},"))))))
            (initial "f" 20) _ _).
  - reflexivity.
  - reflexivity.
  - reflexivity.
  - reflexivity.
  - intros s. apply settings_kept_by_parse.
  - intros s. apply related_condition_eval_; intros; reflexivity.
  - intros s. apply related_split_args_. reflexivity.
  - intros a b s r t p q. unfold replace_string, Model.externals.
    unfold Model.replace_string_, bind, modify, ret. simpl.
    intros [= <-]. reflexivity.
  - vm_compute. reflexivity.
Defined.

(* ===================================================================== *)
(** ** The context stack is balanced *)
(* ===================================================================== *)

Lemma returns_ret {A : Type} (a : A) Q s : Q s -> returns_with (ret a) Q s.
Proof. intros HQ p a' p' Hs [= <- <-]. rewrite Hs. exact HQ. Qed.

Lemma returns_bind {A B : Type} (c : M A) (k : A -> M B) Q s :
  returns_with c (fun s1 => forall a, returns_with (k a) Q s1) s ->
  returns_with (bind c k) Q s.
Proof.
  intros Hc p b p' Hs. unfold bind.
  destruct (c p) as [a q| | | |] eqn:E; try discriminate.
  intros Hk. exact (Hc p a q Hs E a q b p' eq_refl Hk).
Qed.

Lemma returns_get {A : Type} (f : Preprocessor -> A) Q s :
  Q s -> returns_with (get f) Q s.
Proof. intros HQ p a' p' Hs [= <- <-]. rewrite Hs. exact HQ. Qed.

Lemma returns_modify (f : Preprocessor -> Preprocessor) Q s :
  (forall p, context (f p) = context p) -> Q s -> returns_with (modify f) Q s.
Proof.
  intros Hf HQ p a' p' Hs H. inversion H; subst. rewrite Hf. exact HQ.
Qed.

Lemma returns_send_error {A : Type} (msg : string) Q s :
  returns_with (send_error (A := A) msg) Q s.
Proof. intros p a p' _. discriminate. Qed.

Lemma returns_raise {A : Type} (exn : string) Q s :
  returns_with (raise (A := A) exn) Q s.
Proof. intros p a p' _. discriminate. Qed.

Lemma returns_out_of_fuel {A : Type} Q s :
  returns_with (out_of_fuel (A := A)) Q s.
Proof. intros p a p' _. discriminate. Qed.

Lemma returns_send_warning (msg : string) Q s :
  Q s -> returns_with (send_warning msg) Q s.
Proof.
  intros HQ p a p' Hs. unfold send_warning, send_error.
  destruct (warning_mode p); intros H; inversion H; subst; exact HQ.
Qed.

Lemma returns_context_update pos desc Q s :
  (forall fr, Q (fr :: s)) -> returns_with (context_update pos desc) Q s.
Proof. intros HQ p a p' Hs H. inversion H; subst. simpl. apply HQ. Qed.

Lemma returns_context_pop Q s :
  (forall fr t, s = fr :: t -> Q t) -> returns_with context_pop Q s.
Proof.
  intros HQ p a p' Hs. unfold context_pop.
  destruct (context p) as [|fr t] eqn:E; [discriminate|].
  intros H. inversion H; subst. simpl. apply (HQ fr t). reflexivity.
Qed.

Lemma returns_context_top_copy pos desc Q s :
  Q s -> returns_with (context_top_copy pos desc) Q s.
Proof.
  intros HQ p a p' Hs. unfold context_top_copy.
  destruct (context p) eqn:E; [discriminate|]. intros H. inversion H; subst.
  rewrite E. exact HQ.
Qed.

Lemma returns_get_atlabel Q s : Q s -> returns_with get_atlabel Q s.
Proof.
  intros HQ p a p' Hs. unfold get_atlabel.
  destruct (atlabel (command_vars p)); [|discriminate].
  intros H. inversion H; subst. exact HQ.
Qed.

Lemma returns_balanced {A : Type} (c : M A) Q s :
  balanced c -> Q s -> returns_with c Q s.
Proof. intros Hc HQ p a p' Hs Hrun. rewrite (Hc p a p' Hrun), Hs. exact HQ. Qed.

Lemma balanced_returns {A : Type} (c : M A) :
  (forall s, returns_with c (fun s' => s' = s) s) -> balanced c.
Proof. intros H p a p' Hrun. exact (H (context p) p a p' eq_refl Hrun). Qed.

(** One step of the goal-directed proof of [returns_with]. *)
Ltac returns_step :=
  match goal with
  | |- forall _, _ => intros ?
  | H : ?fr :: ?t = ?fr' :: ?t' |- _ => injection H as <- <-
  | |- returns_with (bind _ _) _ _ => apply returns_bind
  | |- returns_with (ret _) _ _ => apply returns_ret
  | |- returns_with (get _) _ _ => apply returns_get
  | |- returns_with current_end _ _ => apply returns_get
  | |- returns_with (modify (set_commands _)) _ _ =>
      apply returns_modify; [intros ?; reflexivity|]
  | |- returns_with (modify (set_command_vars _)) _ _ =>
      apply returns_modify; [intros ?; reflexivity|]
  | |- returns_with (when _ _) _ _ => unfold when
  | |- returns_with (send_error _) _ _ => apply returns_send_error
  | |- returns_with (send_warning _) _ _ => apply returns_send_warning
  | |- returns_with (raise _) _ _ => apply returns_raise
  | |- returns_with out_of_fuel _ _ => apply returns_out_of_fuel
  | |- returns_with (context_update _ _) _ _ => apply returns_context_update
  | |- returns_with context_pop _ _ => apply returns_context_pop
  | |- returns_with (context_top_copy _ _) _ _ =>
      apply returns_context_top_copy
  | |- returns_with get_atlabel _ _ => apply returns_get_atlabel
  | H : forall s, balanced (?f s) |- returns_with (?f _) _ _ =>
      apply returns_balanced; [apply H|]
  | H : forall a b s r t, balanced (?f a b s r t)
    |- returns_with (?f _ _ _ _ _) _ _ => apply returns_balanced; [apply H|]
  | |- returns_with (match ?x with _ => _ end) _ _ => destruct x
  | |- returns_with (let x := _ in _) _ _ => cbv zeta
  | |- ?s = ?s => reflexivity
  end.

Ltac returns := repeat returns_step.

Section HandlersBalanced.

Context {ext : Externals}.
Variable parse : string -> M string.

Hypothesis parse_balanced : forall s, balanced (parse s).
Hypothesis condition_eval_balanced : forall s, balanced (condition_eval s).
Hypothesis split_args_balanced : forall s, balanced (split_args s).
Hypothesis replace_string_balanced :
  forall a b s r t, balanced (replace_string a b s r t).

Lemma balanced_defined_value ident value args :
  balanced (defined_value ident value args).
Proof. apply balanced_returns. unfold defined_value. returns. Qed.

Lemma balanced_blck_void args contents :
  balanced (blck_void parse args contents).
Proof. apply balanced_returns. unfold blck_void. returns. Qed.

Lemma balanced_blck_block args contents :
  balanced (blck_block parse args contents).
Proof. apply balanced_returns. unfold blck_block. returns. Qed.

Lemma balanced_blck_verbatim args contents :
  balanced (blck_verbatim args contents).
Proof. apply balanced_returns. unfold blck_verbatim. returns. Qed.

Lemma balanced_blck_repeat args contents :
  balanced (blck_repeat parse args contents).
Proof. apply balanced_returns. unfold blck_repeat. returns. Qed.

Lemma balanced_blck_atlabel args contents :
  balanced (blck_atlabel parse args contents).
Proof. apply balanced_returns. unfold blck_atlabel. returns. Qed.

Lemma balanced_fnl_atlabel_places lbl idxs :
  forall string_, balanced (fnl_atlabel_places lbl idxs string_).
Proof.
  induction idxs as [|i idxs IH]; intros string_; apply balanced_returns;
    simpl; returns.
Qed.

Lemma balanced_fnl_atlabel_labels lbls :
  forall string_ dels, balanced (fnl_atlabel_labels lbls string_ dels).
Proof.
  induction lbls as [|lbl lbls IH]; intros string_ dels; apply balanced_returns;
    simpl; returns;
    (apply returns_balanced; [apply balanced_fnl_atlabel_places|]); returns;
    (apply returns_balanced; [apply IH | reflexivity]).
Qed.

Lemma balanced_fnl_atlabel_deletions dels :
  balanced (fnl_atlabel_deletions dels).
Proof.
  induction dels as [|lbl dels IH]; apply balanced_returns; simpl; returns;
    (apply returns_balanced; [apply IH | reflexivity]).
Qed.

Lemma balanced_fnl_atlabel string_ : balanced (fnl_atlabel string_).
Proof.
  apply balanced_returns. unfold fnl_atlabel. returns.
  apply returns_balanced; [apply balanced_fnl_atlabel_labels|]. returns.
  apply returns_balanced; [apply balanced_fnl_atlabel_deletions|]. returns.
Qed.

Lemma balanced_blck_for_loop ident contents values :
  forall result, balanced (blck_for_loop parse ident values contents result).
Proof.
  induction values as [|v values IH]; intros result; apply balanced_returns;
    simpl; returns.
Qed.

Lemma balanced_blck_for args contents :
  balanced (blck_for parse args contents).
Proof.
  apply balanced_returns. unfold blck_for, blck_for_iterator. returns;
    (apply returns_balanced; [apply balanced_blck_for_loop | reflexivity]).
Qed.

Lemma balanced_blck_cut args contents :
  balanced (blck_cut parse args contents).
Proof. apply balanced_returns. unfold blck_cut. returns. Qed.

Lemma balanced_find_elifs_and_else_loop preproc string_ tokens rest :
  forall i depth,
    balanced (find_elifs_and_else_loop preproc string_ tokens rest i depth).
Proof.
  induction rest as [|[[b e] k] rest IH]; intros i depth; apply balanced_returns;
    simpl; returns;
    try (apply returns_balanced; [apply IH | reflexivity]).
Qed.

Lemma balanced_find_elifs_and_else string_ :
  balanced (find_elifs_and_else string_).
Proof.
  apply balanced_returns. unfold find_elifs_and_else. returns.
  apply returns_balanced;
    [apply balanced_find_elifs_and_else_loop | reflexivity].
Qed.

Lemma balanced_blck_if_loop contents fuel :
  forall value pos_0 desc,
    balanced (blck_if_loop parse fuel contents value pos_0 desc).
Proof.
  induction fuel as [|fuel IH]; intros value pos_0 desc; apply balanced_returns;
    simpl; returns.
  apply returns_balanced; [apply balanced_find_elifs_and_else|].
  returns; try (apply returns_balanced; [apply IH | reflexivity]).
Qed.

Lemma balanced_blck_if fuel args contents :
  balanced (blck_if parse fuel args contents).
Proof.
  apply balanced_returns. unfold blck_if. returns.
  apply returns_balanced; [apply balanced_blck_if_loop | reflexivity].
Qed.

End HandlersBalanced.

Lemma balanced_condition_eval_ s : balanced (Model.condition_eval_ s).
Proof.
  intros p v p'. unfold Model.condition_eval_.
  destruct (Model.cond _ _ _ _) as [[v' [|]]|]; try discriminate.
  intros H. inversion H; subst. reflexivity.
Qed.

Lemma balanced_split_args_ s : balanced (Model.split_args_ s).
Proof. intros p v p' H. inversion H; subst. reflexivity. Qed.

Lemma balanced_replace_string_ a b s r t :
  balanced (Model.replace_string_ a b s r t).
Proof. intros p v p' H. inversion H; subst. reflexivity. Qed.

Section InterpBalanced.

Variable parse : string -> M string.
Hypothesis parse_balanced : forall s, balanced (parse s).

Lemma balanced_run_block fuel b args contents :
  balanced (Interp.run_block parse fuel b args contents).
Proof.
  destruct b; simpl.
  - apply balanced_blck_void; assumption.
  - apply balanced_blck_block; assumption.
  - apply balanced_blck_verbatim.
  - apply balanced_blck_repeat; assumption.
  - apply balanced_blck_atlabel; assumption.
  - apply balanced_blck_for; [assumption | apply balanced_split_args_].
  - apply balanced_blck_cut; [assumption | apply balanced_split_args_].
  - apply balanced_blck_if; [assumption | apply balanced_condition_eval_].
Qed.

Lemma balanced_run_command c args :
  balanced (Interp.run_command parse c args).
Proof.
  destruct c; simpl.
  - intros p v p' H. inversion H; subst. reflexivity.
  - apply balanced_defined_value.
  - apply parse_balanced.
Qed.

Lemma balanced_in_directive start stop desc c :
  balanced c -> balanced (Interp.in_directive start stop desc c).
Proof.
  intros Hc. apply balanced_returns. unfold Interp.in_directive. intros s.
  apply returns_bind. apply returns_modify; [intros ?; reflexivity|].
  returns. apply returns_balanced; [exact Hc|]. returns.
Qed.

Lemma balanced_walk fuel text tokens :
  forall k cursor, balanced (Interp.walk parse fuel text tokens k cursor).
Proof.
  induction fuel as [|fuel IH]; intros k cursor; apply balanced_returns.
  - simpl. returns.
  - simpl. returns;
      try (apply returns_balanced;
           [apply balanced_in_directive;
            first [apply balanced_run_block | apply balanced_run_command]|]);
      returns;
      try (apply returns_balanced; [apply IH|]); returns.
Qed.

End InterpBalanced.

Lemma balanced_parse fuel : forall text, balanced (Interp.parse fuel text).
Proof.
  induction fuel as [|fuel IH]; intros text; apply balanced_returns; simpl;
    intros s; [apply returns_out_of_fuel|].
  apply returns_bind. apply returns_modify; [intros ?; reflexivity|].
  returns. apply returns_balanced; [apply balanced_walk; exact IH|].
  intros r. apply returns_bind. apply returns_modify; [intros ?; reflexivity|].
  intros []. apply returns_bind. apply returns_modify; [intros ?; reflexivity|].
  returns.
Qed.

(** X3.  Pushes and pops of context frames are paired in every handler of
    the blocks: when the nested parse and the imported functions return
    with the context stack they were started with, so do the block handlers,
    the command a for block registers, the search for the next branch and
    the finalisation of atlabel.  The frame a handler pushes for its body
    is gone when the handler returns. *)
Theorem handlers_balance_context :
  forall (ext : Externals) (parse : string -> M string),
    (forall s, balanced (parse s)) ->
    (forall s, balanced (condition_eval s)) ->
    (forall s, balanced (split_args s)) ->
    (forall a b s r t, balanced (replace_string a b s r t)) ->
    forall args contents : string,
      balanced (blck_void parse args contents)
      /\ balanced (blck_block parse args contents)
      /\ balanced (blck_verbatim args contents)
      /\ balanced (blck_repeat parse args contents)
      /\ balanced (blck_atlabel parse args contents)
      /\ balanced (blck_for parse args contents)
      /\ balanced (blck_cut parse args contents)
      /\ (forall fuel, balanced (blck_if parse fuel args contents))
      /\ balanced (find_elifs_and_else contents)
      /\ balanced (fnl_atlabel contents)
      /\ (forall ident value, balanced (defined_value ident value args)).
Proof.
  intros ext parse Hparse Hcond Hsplit Hrepl args contents.
  repeat split.
  - apply balanced_blck_void; assumption.
  - apply balanced_blck_block; assumption.
  - apply balanced_blck_verbatim.
  - apply balanced_blck_repeat; assumption.
  - apply balanced_blck_atlabel; assumption.
  - apply balanced_blck_for; assumption.
  - apply balanced_blck_cut; assumption.
  - intros fuel. apply balanced_blck_if; assumption.
  - apply balanced_find_elifs_and_else.
  - apply balanced_fnl_atlabel; assumption.
  - intros ident value. apply balanced_defined_value.
Qed.

Lemma handlers_balance_context_witness :
  exists r p',
    blck_if (ext := Model.externals) (Interp.parse 3) 4 " ndef x "
      "A{%elif def y%}B{%else%}C" (initial "f" 20) = Ok r p'
    /\ context p' = context (initial "f" 20).
Proof.
  eexists. eexists. split; [vm_compute; reflexivity|].
  refine (proj1 (proj2 (proj2 (proj2 (proj2 (proj2 (proj2 (proj2
            (handlers_balance_context Model.externals (Interp.parse 3)
               _ _ _ _ " ndef x " "A{%elif def y%}B{%else%}C"))))))))
            4%nat (initial "f" 20) "A" _ _).
  - exact (balanced_parse 3).
  - exact balanced_condition_eval_.
  - exact balanced_split_args_.
  - exact balanced_replace_string_.
  - vm_compute. reflexivity.
Defined.

(* ===================================================================== *)
(** ** The simple blocks *)
(* ===================================================================== *)

Lemma in_body_returns parse desc contents k p r p' :
  in_body parse desc contents k p = Ok r p'
  <-> exists r0 p1,
        parse contents (body_state desc p) = Ok r0 p1
        /\ context_pop p1 = Ok tt p' /\ r = k r0.
Proof.
  unfold in_body. unfold bind at 1, get at 1. unfold bind at 1.
  unfold context_update, modify at 1. fold (body_state desc p).
  unfold bind at 1.
  destruct (parse contents (body_state desc p)) as [r0 p1| | | |] eqn:Hp;
    try (split; [discriminate | intros (? & ? & H & _); discriminate H]).
  unfold bind at 1.
  destruct (context_pop p1) as [[] p2| | | |] eqn:Hq;
    try (split; [discriminate
                | intros (? & ? & H1 & H2 & _); inversion H1; subst;
                  rewrite Hq in H2; discriminate H2]).
  unfold ret. split.
  - intros H. inversion H; subst. exists r0, p1. auto.
  - intros (r1 & p3 & H1 & H2 & ->). inversion H1; subst.
    rewrite Hq in H2. inversion H2; subst. reflexivity.
Qed.

(** X4.  The three blocks without arguments.  Arguments that are not
    blank cost a warning, sent before the body is looked at.  The void block
    parses its body once, in the frame of the body, and returns the empty
    string whatever the parse returned; the state it leaves is the one the
    parse left, so what the body defined stays defined.  The block block
    returns what that parse returned.  The verbatim block returns its body
    as it is, for every body, and does not depend on any parse; with blank
    arguments it leaves the preprocessor as it was. *)
Theorem simple_blocks_output :
  forall (parse : string -> M string) (args contents : string)
         (p : Preprocessor),
    (forall r p',
        blck_void parse args contents p = Ok r p'
        <-> exists p0 r0 p1,
              argument_check "the void block takes no arguments" args p = Some p0
              /\ parse contents (body_state "in void block" p0) = Ok r0 p1
              /\ context_pop p1 = Ok tt p' /\ r = "")
    /\ (forall r p',
           blck_block parse args contents p = Ok r p'
           <-> exists p0 p1,
                 argument_check "the block block takes no arguments" args p
                 = Some p0
                 /\ parse contents (body_state "in block block" p0) = Ok r p1
                 /\ context_pop p1 = Ok tt p')
    /\ (forall r p',
           blck_verbatim args contents p = Ok r p'
           <-> argument_check "the verbatim block takes no arguments" args p
               = Some p' /\ r = contents)
    /\ (Py.strip args = "" -> blck_verbatim args contents p = Ok contents p).
Proof.
  intros parse args contents p. split; [|split; [|split]].
  - intros r p'.
    change (blck_void parse args contents)
      with (bind (when (negb (str_eqb (Py.strip args) ""))
                    (send_warning "the void block takes no arguments"))
              (fun _ => in_body parse "in void block" contents (fun _ => ""))).
    rewrite checked_block_returns. split.
    + intros (p0 & Hc & Hb). apply in_body_returns in Hb as (r0 & p1 & H1 & H2 & ->).
      exists p0, r0, p1. auto.
    + intros (p0 & r0 & p1 & Hc & H1 & H2 & ->). exists p0. split; [exact Hc|].
      apply in_body_returns. exists r0, p1. auto.
  - intros r p'.
    change (blck_block parse args contents)
      with (bind (when (negb (str_eqb (Py.strip args) ""))
                    (send_warning "the block block takes no arguments"))
              (fun _ => in_body parse "in block block" contents (fun r => r))).
    rewrite checked_block_returns. split.
    + intros (p0 & Hc & Hb). apply in_body_returns in Hb as (r0 & p1 & H1 & H2 & ->).
      exists p0, p1. auto.
    + intros (p0 & p1 & Hc & H1 & H2). exists p0. split; [exact Hc|].
      apply in_body_returns. exists r, p1. auto.
  - intros r p'. unfold blck_verbatim. rewrite checked_block_returns. split.
    + intros (p0 & Hc & H). inversion H; subst. auto.
    + intros (Hc & ->). exists p'. auto.
  - intros He. unfold blck_verbatim, bind. rewrite argument_check_run.
    unfold argument_check. rewrite He. reflexivity.
Qed.

Lemma simple_blocks_output_witness :
  blck_verbatim "  " "{%x%}" (initial "f" 20) = Ok "{%x%}" (initial "f" 20).
Proof.
  refine (proj2 (proj2 (proj2 (simple_blocks_output (Interp.parse 3) "  "
            "{%x%}" (initial "f" 20)))) _).
  reflexivity.
Defined.

(* ===================================================================== *)
(** ** The atlabel store *)
(* ===================================================================== *)

Lemma dict_get_set_ne {V : Type} (k k' : string) (v : V) (d : list (string * V)) :
  k' <> k -> Dict.get k' (Dict.set k v d) = Dict.get k' d.
Proof.
  intros Hne. induction d as [|[k0 v0] d IH].
  - simpl. destruct (String.eqb k k') eqn:E; [|reflexivity].
    apply String.eqb_eq in E. congruence.
  - simpl. destruct (String.eqb k0 k) eqn:E; simpl.
    + apply String.eqb_eq in E. subst k0.
      destruct (String.eqb k k') eqn:E'; [|reflexivity].
      apply String.eqb_eq in E'. congruence.
    + rewrite IH. reflexivity.
Qed.

Lemma dict_keys_set {V : Type} (k : string) (v : V) (d : list (string * V)) :
  Dict.keys (Dict.set k v d)
  = if Dict.mem k d then Dict.keys d else Dict.keys d ++ [k].
Proof.
  unfold Dict.keys. induction d as [|[k0 v0] d IH]; [reflexivity|].
  cbn [Dict.set Dict.mem]. destruct (String.eqb k0 k) eqn:E; cbn [orb];
    [reflexivity|].
  rewrite fmap_cons, IH. destruct (Dict.mem k d); reflexivity.
Qed.

(** X5.  The atlabel block and its store.  A label that is empty once
    stripped is a fatal error, raised before the store is created and before
    the body is parsed.  A block that returns has written one entry: the
    store is the one the parse of the body left, with the rendered body
    under the label; every other label keeps its content; the labels keep
    their order, a new label coming last; the clipboard, the registry and
    the log are those the parse left. *)
Theorem atlabel_block_store :
  (forall (parse : string -> M string) (args contents : string)
          (p : Preprocessor),
      Py.strip args = "" ->
      blck_atlabel parse args contents p
      = Fatal "empty label name"
          (set_log (fun l => l ++ [mk_event error "empty label name" p]) p))
  /\ (forall (parse : string -> M string) (args contents : string)
             (p : Preprocessor) (r : string) (p1 : Preprocessor)
             (d1 : list (string * string)) (p2 : Preprocessor),
         Py.strip args <> "" ->
         label_free p (Py.strip args) ->
         parse contents (body_state "in block atlabel" (with_atlabel_dict p))
         = Ok r p1 ->
         atlabel (command_vars p1) = Some d1 ->
         context_pop
           (set_command_vars
              (set_atlabel (Some (Dict.set (Py.strip args) r d1))) p1)
         = Ok tt p2 ->
         blck_atlabel parse args contents p = Ok "" p2
         /\ atlabel (command_vars p2) = Some (Dict.set (Py.strip args) r d1)
         /\ (forall l, l <> Py.strip args ->
               Dict.get l (Dict.set (Py.strip args) r d1) = Dict.get l d1)
         /\ Dict.keys (Dict.set (Py.strip args) r d1)
            = (if Dict.mem (Py.strip args) d1 then Dict.keys d1
               else Dict.keys d1 ++ [Py.strip args])
         /\ clipboard (command_vars p2) = clipboard (command_vars p1)
         /\ commands p2 = commands p1
         /\ log p2 = log p1).
Proof.
  split.
  - intros parse args contents p He. unfold blck_atlabel.
    unfold bind at 1. rewrite He. reflexivity.
  - intros parse args contents p r p1 d1 p2 Hne Hfree Hparse Hd1 Hpop.
    split; [exact (blck_atlabel_stores parse _ _ _ _ _ _ _ Hne Hfree Hparse
                     Hd1 Hpop)|].
    unfold context_pop in Hpop. simpl in Hpop.
    destruct (context p1); [discriminate|]. inversion Hpop; subst. simpl.
    split; [reflexivity|].
    split; [intros lbl Hlbl; apply dict_get_set_ne; exact Hlbl|].
    split; [apply dict_keys_set|]. auto.
Qed.

Lemma atlabel_block_store_witness :
  blck_atlabel (Interp.parse 3) "   " "x" (initial "f" 20)
  = Fatal "empty label name"
      (set_log (fun l => l ++ [mk_event error "empty label name" (initial "f" 20)])
         (initial "f" 20))
  /\ exists p2,
       blck_atlabel (Interp.parse 3) " b " "y"
         (set_command_vars (set_atlabel (Some [("a", "x")])) (initial "f" 20))
       = Ok "" p2
       /\ atlabel (command_vars p2) = Some [("a", "x"); ("b", "y")].
Proof.
  split.
  - apply (proj1 atlabel_block_store). reflexivity.
  - eexists.
    edestruct (proj2 atlabel_block_store (Interp.parse 3) " b " "y"
                 (set_command_vars (set_atlabel (Some [("a", "x")]))
                    (initial "f" 20)))
      as (Hrun & Hstore & _).
    + vm_compute. discriminate.
    + reflexivity.
    + vm_compute. reflexivity.
    + vm_compute. reflexivity.
    + vm_compute. reflexivity.
    + split; [exact Hrun | exact Hstore].
Defined.

(* ===================================================================== *)
(** ** The finalisation of atlabel consumes the store *)
(* ===================================================================== *)

Section FnlStore.

Context {ext : Externals}.

Hypothesis replace_string_store :
  forall a b s r t,
    ends_related (same_on (fun p => atlabel (command_vars p)))
      (replace_string a b s r t).

Lemma fnl_atlabel_labels_deletions lbls :
  forall string_ dels p s' dels' p',
    fnl_atlabel_labels lbls string_ dels p = Ok (s', dels') p' ->
    dels' = dels ++ lbls.
Proof.
  induction lbls as [|lbl lbls IH]; intros string_ dels p s' dels' p' H.
  - simpl in H. inversion H; subst. rewrite app_nil_r. reflexivity.
  - simpl in H. unfold bind at 1, get at 1 in H. unfold bind at 1 in H.
    destruct (when _ _ p) as [[] q| | | |]; try discriminate.
    unfold bind at 1 in H.
    destruct (fnl_atlabel_places _ _ _ q) as [s1 q1| | | |]; try discriminate.
    apply IH in H. rewrite H, <- app_assoc. reflexivity.
Qed.

Lemma fnl_atlabel_labels_store lbls string_ dels :
  ends_related (same_on (fun p => atlabel (command_vars p)))
    (fnl_atlabel_labels lbls string_ dels).
Proof.
  apply related_fnl_atlabel_labels.
  - reflexivity.
  - unfold same_on. intros p q r H1 H2. congruence.
  - reflexivity.
  - exact replace_string_store.
Qed.

Lemma fnl_atlabel_consumes string_ p s' p' :
  fnl_atlabel string_ p = Ok s' p' ->
  atlabel (command_vars p') = (fun _ => []) <$> atlabel (command_vars p)
  /\ (atlabel (command_vars p) = None -> s' = string_ /\ p' = p).
Proof.
  unfold fnl_atlabel. unfold bind at 1, get at 1.
  destruct (atlabel (command_vars p)) as [d|] eqn:Hd.
  - unfold bind at 1.
    destruct (fnl_atlabel_labels (Dict.keys d) string_ [] p)
      as [[s1 dels] p1| | | |] eqn:Hl; try discriminate.
    pose proof (fnl_atlabel_labels_deletions _ _ _ _ _ _ _ Hl) as Hdels.
    simpl in Hdels. subst dels.
    pose proof (fnl_atlabel_labels_store (Dict.keys d) string_ [] p p1) as Hs.
    rewrite Hl in Hs. specialize (Hs eq_refl). unfold same_on in Hs.
    rewrite Hd in Hs.
    unfold bind at 1. rewrite (fnl_atlabel_deletions_all d p1 Hs).
    unfold ret. intros H. inversion H; subst. simpl.
    split; [reflexivity | discriminate].
  - unfold ret. intros H. inversion H; subst. rewrite Hd. auto.
Qed.

End FnlStore.

(** X6.  The finalisation of atlabel consumes the whole store.  When the
    string replacement leaves the store alone and the pass returns, every
    entry has been deleted, those with occurrences and those without; a
    second pass over the result returns it as it is and changes nothing.
    Without a store the pass returns the string and the preprocessor as they
    were. *)
Theorem fnl_atlabel_consumes_store :
  forall (ext : Externals),
    (forall a b s r t,
        ends_related (same_on (fun p => atlabel (command_vars p)))
          (replace_string a b s r t)) ->
    forall (string_ : string) (p : Preprocessor) (s' : string)
           (p' : Preprocessor),
      fnl_atlabel string_ p = Ok s' p' ->
      atlabel (command_vars p') = (fun _ => []) <$> atlabel (command_vars p)
      /\ fnl_atlabel s' p' = Ok s' p'
      /\ (atlabel (command_vars p) = None -> s' = string_ /\ p' = p).
Proof.
  intros ext Hrepl string_ p s' p' Hrun.
  destruct (fnl_atlabel_consumes Hrepl _ _ _ _ Hrun) as [Hstore Hnone].
  split; [exact Hstore|]. split; [|exact Hnone].
  destruct (atlabel (command_vars p)) as [d|] eqn:Hd.
  - apply fnl_atlabel_empty. exact Hstore.
  - destruct (Hnone eq_refl) as [-> ->].
    unfold fnl_atlabel. unfold bind at 1, get at 1. rewrite Hd. reflexivity.
Qed.

Lemma fnl_atlabel_consumes_store_witness :
  exists p',
    fnl_atlabel (ext := Model.externals) "abcd"
      (set_labels (insert "a" [2])
         (set_command_vars (set_atlabel (Some [("a", "X"); ("b", "Y")]))
            (initial "f" 20)))
    = Ok "abXcd" p'
    /\ atlabel (command_vars p') = Some [].
Proof.
  eexists. split; [vm_compute; reflexivity|].
  refine (proj1 (fnl_atlabel_consumes_store Model.externals _ "abcd"
                   (set_labels (insert "a" [2])
                      (set_command_vars
                         (set_atlabel (Some [("a", "X"); ("b", "Y")]))
                         (initial "f" 20)))
                   "abXcd" _ _)).
  - intros a b s r t p q. unfold replace_string, Model.externals.
    unfold Model.replace_string_, bind, modify, ret. simpl.
    intros [= <-]. reflexivity.
  - vm_compute. reflexivity.
Defined.

(* ===================================================================== *)
(** ** The finalisation of atlabel places the content at every label *)
(* ===================================================================== *)

Lemma length_app_str a : forall b,
  String.length (a +:+ b) = (String.length a + String.length b)%nat.
Proof.
  induction a as [|c a IH]; intros b; [reflexivity|].
  change (S (String.length (a +:+ b))
          = S (String.length a + String.length b)).
  rewrite IH. reflexivity.
Qed.

Lemma take_drop_str n : forall s, Py.take n s +:+ Py.drop n s = s.
Proof.
  induction n as [|n IH]; intros [|c s]; try reflexivity.
  change (String c (Py.take n s +:+ Py.drop n s) = String c s).
  rewrite IH. reflexivity.
Qed.

Lemma take_app_length x : forall w, Py.take (String.length x) (x +:+ w) = x.
Proof.
  induction x as [|c x IH]; intros w.
  - destruct w; reflexivity.
  - change (String c (Py.take (String.length x) (x +:+ w)) = String c x).
    rewrite IH. reflexivity.
Qed.

Lemma drop_app_length x : forall w, Py.drop (String.length x) (x +:+ w) = w.
Proof.
  induction x as [|c x IH]; intros w; [reflexivity|].
  change (Py.drop (String.length x) (x +:+ w) = w). apply IH.
Qed.

Lemma take_length n : forall s,
  (n <= String.length s)%nat -> String.length (Py.take n s) = n.
Proof.
  induction n as [|n IH]; intros [|c s] H; simpl in *; try reflexivity; try lia.
  rewrite IH by lia. reflexivity.
Qed.

Lemma insert_at_len o c s : Py.len (insert_at o c s) = Py.len s + Py.len c.
Proof.
  unfold insert_at, Py.slice_to, Py.slice_from, Py.len.
  rewrite !length_app_str.
  pose proof (f_equal String.length
                (take_drop_str
                   (Z.to_nat (Py.clamp (Z.of_nat (String.length s)) o)) s)) as H.
  rewrite length_app_str in H. lia.
Qed.

Lemma clamp_in_range n o : 0 <= o <= n -> Py.clamp n o = o.
Proof.
  intros H. unfold Py.clamp.
  destruct (o <? 0) eqn:E; [apply Z.ltb_lt in E; lia|]. lia.
Qed.

(** An insertion at the end of a prefix [x]. *)
Lemma insert_at_app x c w :
  insert_at (Py.len x) c (x +:+ w) = x +:+ c +:+ w.
Proof.
  unfold insert_at, Py.slice_to, Py.slice_from.
  rewrite clamp_in_range.
  2:{ unfold Py.len. rewrite length_app_str. lia. }
  unfold Py.len. rewrite Nat2Z.id, take_app_length, drop_app_length.
  reflexivity.
Qed.

(** Two insertions commute when the offset of the second is moved by the
    length of the first. *)
Lemma insert_at_commute a b r r' s :
  0 <= a -> a <= b -> b <= Py.len s ->
  insert_at (b + Py.len r) r' (insert_at a r s)
  = insert_at a r (insert_at b r' s).
Proof.
  intros Ha Hab Hb.
  pose (x := Py.take (Z.to_nat a) s).
  pose (y := Py.take (Z.to_nat (b - a)) (Py.drop (Z.to_nat a) s)).
  pose (z := Py.drop (Z.to_nat (b - a)) (Py.drop (Z.to_nat a) s)).
  assert (Hs : s = x +:+ (y +:+ z)).
  { subst x y z. rewrite take_drop_str, take_drop_str. reflexivity. }
  assert (Hx : Py.len x = a).
  { subst x. unfold Py.len in *. rewrite take_length by lia. lia. }
  assert (Hy : Py.len y = b - a).
  { subst y. unfold Py.len in *. rewrite take_length; [lia|].
    rewrite drop_length. lia. }
  clearbody x y z. subst s.
  assert (Hl : insert_at (b + Py.len r) r' (insert_at a r (x +:+ (y +:+ z)))
               = (x +:+ (r +:+ y)) +:+ (r' +:+ z)).
  { rewrite <- Hx at 1. rewrite insert_at_app.
    replace (x +:+ (r +:+ (y +:+ z))) with ((x +:+ (r +:+ y)) +:+ z)
      by (rewrite !app_assoc_str; reflexivity).
    replace (b + Py.len r) with (Py.len (x +:+ (r +:+ y)))
      by (unfold Py.len in *; rewrite !length_app_str; lia).
    apply insert_at_app. }
  assert (Hr : insert_at a r (insert_at b r' (x +:+ (y +:+ z)))
               = x +:+ (r +:+ (y +:+ (r' +:+ z)))).
  { replace (x +:+ (y +:+ z)) with ((x +:+ y) +:+ z)
      by (rewrite !app_assoc_str; reflexivity).
    replace b with (Py.len (x +:+ y))
      by (unfold Py.len in *; rewrite !length_app_str; lia).
    rewrite insert_at_app.
    replace ((x +:+ y) +:+ (r' +:+ z)) with (x +:+ (y +:+ (r' +:+ z)))
      by (rewrite !app_assoc_str; reflexivity).
    rewrite <- Hx at 1. apply insert_at_app. }
  rewrite Hl, Hr, !app_assoc_str. reflexivity.
Qed.

Lemma foldr_insert_len c R : forall s,
  Py.len s <= Py.len (foldr (fun o acc => insert_at o c acc) s R).
Proof.
  induction R as [|o R IH]; intros s; cbn [foldr]; [lia|].
  rewrite insert_at_len. specialize (IH s). pose proof (len_nonneg c). lia.
Qed.

(** Insertions at offsets at or after [o], made after an insertion at [o]
    and in the coordinates it leaves, are insertions made before it in the
    coordinates of the string it was given. *)
Lemma foldr_insert_shift o c R : forall s,
  0 <= o ->
  Forall (fun b => o <= b /\ b <= Py.len s) R ->
  foldr (fun o acc => insert_at o c acc) (insert_at o c s)
        ((fun x => x + Py.len c) <$> R)
  = insert_at o c (foldr (fun o acc => insert_at o c acc) s R).
Proof.
  induction R as [|b R IH]; intros s Ho Hall; [reflexivity|].
  inversion Hall as [|? ? [Hb1 Hb2] Hrest]; subst.
  rewrite fmap_cons. cbn [foldr]. rewrite (IH s Ho Hrest).
  apply insert_at_commute; [exact Ho | exact Hb1|].
  pose proof (foldr_insert_len c R s). lia.
Qed.

Section FnlPlaces.

Context {ext : Externals}.
Hypothesis replace_string_inserts : inserts_and_shifts.

Lemma get_label_shifted (f : Z -> Z) p lbl :
  get_label (set_labels (fun ls : gmap string (list Z) =>
               (fun os : list Z => f <$> os) <$> ls) p) lbl
  = f <$> get_label p lbl.
Proof.
  unfold get_label. cbn [labels set_labels]. rewrite lookup_fmap.
  destruct (labels p !! lbl); reflexivity.
Qed.

Lemma ascending_shift (n : Z) l :
  ascending l -> ascending ((fun x => x + n) <$> l).
Proof.
  induction l as [|o l IH]; [auto|]. intros [Hge Hl]. rewrite fmap_cons.
  split; [|apply IH; exact Hl].
  apply Forall_fmap. eapply Forall_impl; [exact Hge|].
  intros x Hx. simpl. lia.
Qed.

Lemma fnl_atlabel_places_run lbl c : forall R k s p,
  (d ← atlabel (command_vars p); Dict.get lbl d) = Some c ->
  drop k (get_label p lbl) = R ->
  ascending R ->
  Forall (fun o => 0 <= o /\ o <= Py.len s) R ->
  exists p',
    fnl_atlabel_places lbl (seq k (length R)) s p
    = Ok (foldr (fun o acc => insert_at o c acc) s R) p'
    /\ command_vars p' = command_vars p /\ log p' = log p
    /\ commands p' = commands p /\ context p' = context p.
Proof.
  intros R. remember (length R) as n eqn:Hn. revert R Hn.
  induction n as [|n IH]; intros [|o R] Hn k s p Hc Hdrop Hsorted Hall;
    try discriminate Hn.
  - exists p. repeat split.
  - injection Hn as Hn. cbn [seq fnl_atlabel_places foldr].
    assert (Hk : get_label p lbl !! k = Some o).
    { pose proof (lookup_drop (get_label p lbl) k 0) as H.
      rewrite Hdrop, Nat.add_0_r in H. symmetry. exact H. }
    assert (HdropS : drop (S k) (get_label p lbl) = R).
    { rewrite <- Nat.add_1_r, <- drop_drop, Hdrop. reflexivity. }
    unfold bind at 1, get at 1. rewrite Hk. unfold bind at 1, ret at 1.
    unfold bind at 1, get_atlabel at 1.
    destruct (atlabel (command_vars p)) as [d|] eqn:Hd; [|discriminate Hc].
    cbn [mbind option_bind] in Hc. rewrite Hc.
    unfold bind at 1, ret at 1. unfold bind at 1.
    rewrite replace_string_inserts.
    destruct Hsorted as [Hge Hsorted'].
    apply Forall_cons in Hall as [[Ho1 Ho2] Hall'].
    match goal with |- context [fnl_atlabel_places _ _ _ ?q] => set (p1 := q) end.
    assert (Hshift : (fun o0 => if o <=? o0 then o0 + Py.len c else o0) <$> R
                     = (fun x => x + Py.len c) <$> R).
    { clear -Hge. induction Hge as [|x l Hx Hl IHl]; [reflexivity|].
      rewrite !fmap_cons, IHl. f_equal.
      destruct (o <=? x) eqn:E; [reflexivity|]. apply Z.leb_gt in E. lia. }
    destruct (IH ((fun x => x + Py.len c) <$> R)) with
      (k := S k) (s := insert_at o c s) (p := p1)
      as (p' & Hrun & Hv & Hl & Hcm & Hcx).
    + rewrite length_fmap. exact Hn.
    + subst p1. cbn [command_vars set_labels]. rewrite Hd. exact Hc.
    + subst p1. rewrite get_label_shifted, <- fmap_drop, HdropS. exact Hshift.
    + apply ascending_shift. exact Hsorted'.
    + apply Forall_fmap. rewrite insert_at_len.
      eapply Forall_impl; [exact Hall'|]. intros x [Hx1 Hx2]. simpl.
      pose proof (len_nonneg c). lia.
    + exists p'. rewrite Hrun.
      split; [f_equal; apply foldr_insert_shift; [exact Ho1|]|].
      * clear -Hge Hall'. induction Hge as [|x l Hx Hl IHl]; [constructor|].
        inversion Hall' as [|? ? [Hx1 Hx2] Hrest]; subst.
        constructor; [lia | apply IHl; exact Hrest].
      * rewrite Hv, Hl, Hcm, Hcx. subst p1. repeat split.
Qed.

End FnlPlaces.

(** The pass over a store with one entry, from the run of the loop over
    the occurrences of its label. *)
Lemma fnl_atlabel_single_label {ext : Externals} string_ lbl content p s' p1 :
  atlabel (command_vars p) = Some [(lbl, content)] ->
  get_label p lbl <> [] ->
  fnl_atlabel_places lbl (seq 0 (length (get_label p lbl))) string_ p
  = Ok s' p1 ->
  command_vars p1 = command_vars p ->
  fnl_atlabel string_ p
  = Ok s' (set_command_vars (set_atlabel (Some [])) p1).
Proof.
  intros Hd Hne Hrun Hv.
  unfold fnl_atlabel. unfold bind at 1, get at 1. rewrite Hd.
  change (Dict.keys [(lbl, content)]) with [lbl].
  cbn [fnl_atlabel_labels]. unfold bind at 1. unfold bind at 1, get at 1.
  destruct (get_label p lbl) as [|o os] eqn:Hos; [congruence|].
  cbn [length Nat.eqb when]. unfold bind at 1, ret at 1. unfold bind at 1.
  change (S (length os)) with (length (o :: os)). rewrite Hrun.
  unfold ret at 1. cbv beta iota. cbn [app fnl_atlabel_deletions].
  unfold bind at 1. unfold bind at 1, get_atlabel at 1. rewrite Hv, Hd.
  rewrite dict_del_head. reflexivity.
Qed.

(** X7.  The finalisation of atlabel puts the content at every label.
    With a string replacement that inserts and moves the recorded offsets
    after the insertion, a store with one entry whose label has occurrences
    in ascending order, all within the string, is resolved as follows: the
    content is inserted at each occurrence, each at its offset in the
    string as it was given, although every insertion moves the text after
    it.  No warning is sent, and the store is empty afterwards. *)
Theorem fnl_atlabel_places_content :
  forall (ext : Externals),
    inserts_and_shifts ->
    forall (string_ lbl content : string) (os : list Z) (p : Preprocessor),
      atlabel (command_vars p) = Some [(lbl, content)] ->
      get_label p lbl = os ->
      os <> [] ->
      ascending os ->
      Forall (fun o => 0 <= o /\ o <= Py.len string_) os ->
      exists p',
        fnl_atlabel string_ p
        = Ok (foldr (fun o acc => insert_at o content acc) string_ os) p'
        /\ atlabel (command_vars p') = Some []
        /\ log p' = log p /\ commands p' = commands p
        /\ context p' = context p.
Proof.
  intros ext Hrepl string_ lbl content os p Hd Hos Hne Hsorted Hall.
  destruct (fnl_atlabel_places_run Hrepl lbl content os 0%nat string_ p)
    as (p1 & Hrun & Hv & Hl & Hcm & Hcx).
  - rewrite Hd. cbn [mbind option_bind Dict.get].
    rewrite String.eqb_refl. reflexivity.
  - rewrite Hos. reflexivity.
  - exact Hsorted.
  - exact Hall.
  - rewrite <- Hos in Hrun, Hne.
    rewrite (fnl_atlabel_single_label _ _ _ _ _ _ Hd Hne Hrun Hv).
    eexists. split; [rewrite Hos; reflexivity|].
    cbn [command_vars set_command_vars atlabel set_atlabel log commands context].
    auto.
Qed.

Lemma fnl_atlabel_places_content_witness :
  exists p',
    fnl_atlabel (ext := Model.externals) "ab"
      (set_labels (insert "here" [0; 1; 2])
         (set_command_vars (set_atlabel (Some [("here", "--")]))
            (initial "f" 20)))
    = Ok "--a--b--" p'
    /\ atlabel (command_vars p') = Some [].
Proof.
  edestruct (fnl_atlabel_places_content Model.externals) with
    (string_ := "ab") (lbl := "here") (content := "--") (os := [0; 1; 2])
    (p := set_labels (insert "here" [0; 1; 2])
            (set_command_vars (set_atlabel (Some [("here", "--")]))
               (initial "f" 20)))
    as (p' & Hrun & Hstore & _).
  - intros a s r p. unfold replace_string, Model.externals, Model.replace_string_.
    unfold bind, modify, ret. rewrite Z.sub_diag, Z.sub_0_r. reflexivity.
  - reflexivity.
  - vm_compute. reflexivity.
  - discriminate.
  - simpl. repeat constructor; lia.
  - repeat constructor; vm_compute; discriminate.
  - exists p'. split; [exact Hrun | exact Hstore].
Defined.

(** X8.  An atlabel block, then the finalisation.  A block whose label is
    free and whose body is rendered without touching the store leaves the
    rendering as the one entry of the store; the finalisation then inserts
    that rendering, the text as it was rendered in the block, at every
    occurrence of the label, and empties the store.  So the content of the
    block reaches the labels that precede it as well as those that follow
    it. *)
Theorem atlabel_block_then_finalisation :
  forall (ext : Externals) (parse : string -> M string),
    inserts_and_shifts ->
    forall (args contents : string) (p : Preprocessor) (r : string)
           (p1 p2 : Preprocessor) (string_ : string) (os : list Z),
      Py.strip args <> "" ->
      label_free p (Py.strip args) ->
      parse contents (body_state "in block atlabel" (with_atlabel_dict p))
      = Ok r p1 ->
      atlabel (command_vars p1) = Some [] ->
      context_pop
        (set_command_vars (set_atlabel (Some [(Py.strip args, r)])) p1)
      = Ok tt p2 ->
      get_label p2 (Py.strip args) = os ->
      os <> [] ->
      ascending os ->
      Forall (fun o => 0 <= o /\ o <= Py.len string_) os ->
      blck_atlabel parse args contents p = Ok "" p2
      /\ exists p3,
           fnl_atlabel string_ p2
           = Ok (foldr (fun o acc => insert_at o r acc) string_ os) p3
           /\ atlabel (command_vars p3) = Some []
           /\ log p3 = log p2.
Proof.
  intros ext parse Hrepl args contents p r p1 p2 string_ os
         Hne Hfree Hparse Hd1 Hpop Hos Hnil Hsorted Hall.
  split.
  - exact (blck_atlabel_stores parse _ _ _ _ _ _ _ Hne Hfree Hparse Hd1 Hpop).
  - assert (Hd2 : atlabel (command_vars p2) = Some [(Py.strip args, r)]).
    { unfold context_pop in Hpop. cbn [context set_command_vars] in Hpop.
      destruct (context p1); [discriminate|]. inversion Hpop; subst.
      reflexivity. }
    destruct (fnl_atlabel_places_run Hrepl (Py.strip args) r os 0%nat string_ p2)
      as (q & Hrun & Hv & Hl & _); try assumption.
    + rewrite Hd2. cbn [mbind option_bind Dict.get].
      rewrite String.eqb_refl. reflexivity.
    + rewrite <- Hos in Hrun, Hnil.
      rewrite (fnl_atlabel_single_label _ _ _ _ _ _ Hd2 Hnil Hrun Hv).
      eexists. split; [rewrite Hos; reflexivity|].
      split; [reflexivity | exact Hl].
Qed.

Lemma atlabel_block_then_finalisation_witness :
  exists p2 p3,
    blck_atlabel (Interp.parse 3) " here " "--"
      (set_labels (insert "here" [0; 1; 2]) (initial "f" 20))
    = Ok "" p2
    /\ fnl_atlabel (ext := Model.externals) "ab" p2 = Ok "--a--b--" p3
    /\ atlabel (command_vars p3) = Some [].
Proof.
  edestruct (atlabel_block_then_finalisation Model.externals (Interp.parse 3))
    with (args := " here ") (contents := "--")
         (p := set_labels (insert "here" [0; 1; 2]) (initial "f" 20))
         (string_ := "ab") (os := [0; 1; 2])
    as (Hblock & p3 & Hfnl & Hstore & _).
  - intros a s r p. unfold replace_string, Model.externals, Model.replace_string_.
    unfold bind, modify, ret. rewrite Z.sub_diag, Z.sub_0_r. reflexivity.
  - vm_compute. discriminate.
  - exact I.
  - vm_compute. reflexivity.
  - vm_compute. reflexivity.
  - vm_compute. reflexivity.
  - vm_compute. reflexivity.
  - discriminate.
  - simpl. repeat constructor; lia.
  - repeat constructor; vm_compute; discriminate.
  - eexists. exists p3. split; [exact Hblock|]. split; [exact Hfnl | exact Hstore].
Defined.

(* ===================================================================== *)
(** ** The for block: what it rejects *)
(* ===================================================================== *)

Lemma slice_range_prefix s :
  String.prefix "range" s = true -> Py.slice s 0 5 = "range".
Proof.
  intros H.
  destruct s as [|c1 [|c2 [|c3 [|c4 [|c5 s]]]]];
    cbn [String.prefix] in H; try discriminate;
    repeat match type of H with
           | (if ?d then _ else _) = true => destruct d; [subst|discriminate]
           end; try discriminate.
  unfold Py.slice, Py.clamp. rewrite !len_String.
  pose proof (len_nonneg s).
  replace (0 <? 0) with false by reflexivity.
  replace (5 <? 0) with false by reflexivity.
  rewrite Z.min_l, Z.min_l by lia. reflexivity.
Qed.

Section ForRejects.

Context {ext : Externals}.

Lemma range_regex_needs_parenthesis s :
  String.prefix "range(" s = false ->
  Re.match_ Re.no_flags range_regex s = None.
Proof.
  intros H. unfold Re.match_, range_regex. cbn [Re.run]. rewrite H.
  reflexivity.
Qed.

Lemma blck_for_iterator_not_a_range s p :
  String.prefix "range" s = true ->
  String.prefix "range(" s = false ->
  blck_for_iterator s p
  = Fatal range_usage (set_log (fun l => l ++ [mk_event error range_usage p]) p).
Proof.
  intros H1 H2. unfold blck_for_iterator.
  rewrite (slice_range_prefix s H1).
  change (str_eqb "range" "range") with true. cbv iota.
  rewrite (range_regex_needs_parenthesis s H2). reflexivity.
Qed.

End ForRejects.

(** X9.  What the for block rejects, each time before the identifier is
    registered and before the body is parsed.  A header that does not match
    the pattern of the header is a fatal error with the usage.  A source
    whose first five characters are [range] is never read as a list of
    values: when no parenthesis follows, the block ends in the fatal error
    of the range syntax.  A range with a third argument whose value is zero
    ends in the exception of Python's [range], not in a diagnostic of the
    preprocessor. *)
Theorem for_block_rejects :
  (forall (ext : Externals) (parse : string -> M string)
          (args contents : string) (p : Preprocessor),
      Re.match_ Re.no_flags for_regex args = None ->
      blck_for parse args contents p
      = Fatal for_usage (set_log (fun l => l ++ [mk_event error for_usage p]) p))
  /\ (forall (ext : Externals) (parse : string -> M string)
             (args contents : string) (p : Preprocessor) (m : Re.Match),
         Re.match_ Re.no_flags for_regex args = Some m ->
         String.prefix "range" (for_source args m) = true ->
         String.prefix "range(" (for_source args m) = false ->
         blck_for parse args contents p
         = Fatal range_usage
             (set_log (fun l => l ++ [mk_event error range_usage p]) p))
  /\ (forall (ext : Externals) (parse : string -> M string)
             (args contents : string) (p : Preprocessor) (m m' : Re.Match)
             (stop g1 g3 : string),
         Re.match_ Re.no_flags for_regex args = Some m ->
         String.prefix "range" (for_source args m) = true ->
         Re.match_ Re.no_flags range_regex (for_source args m) = Some m' ->
         Re.group (for_source args m) m' 2 = Some stop ->
         Re.group (for_source args m) m' 1 = Some g1 ->
         Re.group (for_source args m) m' 3 = Some g3 ->
         to_integer g3 = 0 ->
         blck_for parse args contents p = Raised "ValueError" p).
Proof.
  split; [|split].
  - intros ext parse args contents p Hm. unfold blck_for. rewrite Hm.
    reflexivity.
  - intros ext parse args contents p m Hm H1 H2.
    rewrite (blck_for_header parse _ _ _ _ Hm). unfold bind.
    rewrite (blck_for_iterator_not_a_range _ p H1 H2). reflexivity.
  - intros ext parse args contents p m m' stop g1 g3 Hm Hr Hm' Hs H1 H3 Hz.
    rewrite (blck_for_header parse _ _ _ _ Hm). unfold bind.
    assert (Hr' : str_eqb (Py.slice (for_source args m) 0 5) "range" = true).
    { rewrite (slice_range_prefix _ Hr). reflexivity. }
    rewrite (blck_for_iterator_range _ p m' stop Hr' Hm' Hs).
    rewrite H1, H3, Hz. reflexivity.
Qed.

Lemma for_block_rejects_witness :
  (exists p', blck_for (ext := Model.externals) (Interp.parse 3)
                " x in rangers scouts " "{%x%}" (initial "f" 20)
              = Fatal range_usage p')
  /\ blck_for (ext := Model.externals) (Interp.parse 3)
       " x in range(0, 5, 0) " "{%x%}" (initial "f" 20)
     = Raised "ValueError" (initial "f" 20).
Proof.
  split.
  - eexists.
    refine (proj1 (proj2 for_block_rejects) Model.externals (Interp.parse 3)
              " x in rangers scouts " "{%x%}" (initial "f" 20)
              {| Re.m_end := 6; Re.m_spans := [(1%nat, (1, 2))] |} _ _ _).
    + vm_compute. reflexivity.
    + vm_compute. reflexivity.
    + vm_compute. reflexivity.
  - refine (proj2 (proj2 for_block_rejects) Model.externals (Interp.parse 3)
              " x in range(0, 5, 0) " "{%x%}" (initial "f" 20)
              {| Re.m_end := 6; Re.m_spans := [(1%nat, (1, 2))] |}
              {| Re.m_end := 14;
                 Re.m_spans := [(3%nat, (12, 13)); (2%nat, (9, 10));
                                (1%nat, (6, 7))] |}
              "5" "0" "0" _ _ _ _ _ _ _).
    + vm_compute. reflexivity.
    + vm_compute. reflexivity.
    + vm_compute. reflexivity.
    + vm_compute. reflexivity.
    + vm_compute. reflexivity.
    + vm_compute. reflexivity.
    + vm_compute. reflexivity.
Defined.

(* ===================================================================== *)
(** ** The cut block writes one clipboard entry *)
(* ===================================================================== *)

(** X10.  A cut block whose arguments are accepted writes the entry of its
    clipboard name and nothing else: every other clipboard entry, the
    atlabel store, the registry, the context stack and the log are those
    that the rendering of its body left (the state after the split of the
    arguments when the body is stored as it is).  Without the pre-render
    flag the body is stored unparsed.  Arguments that the argument parser
    refuses are a fatal error with the usage: nothing is stored and the
    body is not parsed. *)
Theorem cut_block_single_entry :
  (forall (ext : Externals) (parse : string -> M string)
          (args contents : string) (p p1 : Preprocessor)
          (split : list string) (a : CutArguments) (fr : ContextFrame)
          (stored : string) (p2 : Preprocessor),
      split_args args p = Ok split p1 ->
      cut_parser_parse_args split = Some a ->
      cut_frame p1 = Some fr ->
      cut_rendered parse a contents p1 stored p2 ->
      exists p',
        blck_cut parse args contents p = Ok "" p'
        /\ clipboard_entry p' (clipboard_name a) = Some (fr, stored)
        /\ (forall name, name <> clipboard_name a ->
              clipboard_entry p' name = clipboard_entry p2 name)
        /\ atlabel (command_vars p') = atlabel (command_vars p2)
        /\ commands p' = commands p2
        /\ context p' = context p2
        /\ log p' = log p2
        /\ (pre_render a = false -> stored = contents /\ p2 = p1))
  /\ (forall (ext : Externals) (parse : string -> M string)
             (args contents : string) (p p1 : Preprocessor)
             (split : list string),
         split_args args p = Ok split p1 ->
         cut_parser_parse_args split = None ->
         exists msg,
           blck_cut parse args contents p
           = Fatal msg (set_log (fun l => l ++ [mk_event error msg p1]) p1)).
Proof.
  split.
  - intros ext parse args contents p p1 split a fr stored p2 Hs Ha Hf Hr.
    eexists. split; [exact (blck_cut_run parse _ _ _ _ _ _ _ _ _ Hs Ha Hf Hr)|].
    split; [apply clipboard_entry_store|].
    split; [intros name Hne; apply clipboard_entry_store_ne; congruence|].
    split; [unfold store_cut; simpl;
            destruct (clipboard (command_vars p2)); reflexivity|].
    split; [reflexivity|]. split; [reflexivity|]. split; [reflexivity|].
    intros Hpre. destruct Hr as [_ | r p1' p2 Hpre' _ _]; [auto | congruence].
  - intros ext parse args contents p p1 split Hs Ha. eexists.
    unfold blck_cut. unfold bind at 1. rewrite Hs, Ha. reflexivity.
Qed.

Lemma cut_block_single_entry_witness :
  exists p',
    blck_cut (ext := Model.externals) (Interp.parse 3) " clip " "{%x%}"
      (set_command_vars
         (set_clipboard (Some {[ "other" := (frame_copy
            {| source_name := "f"; base_offset := 0; description := "" |} 0 "",
            "kept") ]}))
         (initial "f" 20))
    = Ok "" p'
    /\ (exists fr, clipboard_entry p' "clip" = Some (fr, "{%x%}"))
    /\ (exists fr, clipboard_entry p' "other" = Some (fr, "kept")).
Proof.
  edestruct (proj1 cut_block_single_entry Model.externals (Interp.parse 3)
               " clip " "{%x%}"
               (set_command_vars
                  (set_clipboard (Some {[ "other" := (frame_copy
                     {| source_name := "f"; base_offset := 0;
                        description := "" |} 0 "", "kept") ]}))
                  (initial "f" 20)))
    as (p' & Hrun & Hown & Hother & _).
  - vm_compute. reflexivity.
  - vm_compute. reflexivity.
  - vm_compute. reflexivity.
  - apply cut_raw. reflexivity.
  - exists p'. split; [exact Hrun|]. split.
    + eexists. exact Hown.
    + eexists. rewrite (Hother "other") by discriminate.
      vm_compute. reflexivity.
Defined.

(* ===================================================================== *)
(** ** The search for the next branch: how it ends *)
(* ===================================================================== *)

Lemma run_advances f r : forall k, advances k -> advances (Re.run f r k).
Proof.
  induction r as [|c|l|r1 IH1 r2 IH2|r1 IH1 r2 IH2|r IH|n r IH| |];
    intros k Hk; cbn [Re.run].
  - exact Hk.
  - intros prev s pos g m. destruct s as [|c0 s]; [discriminate|].
    destruct (c c0); [|discriminate]. intros H. apply Hk in H. lia.
  - intros prev s pos g m. destruct (String.prefix l s); [|discriminate].
    intros H. apply Hk in H. pose proof (len_nonneg l). lia.
  - apply IH1. apply IH2. exact Hk.
  - intros prev s pos g m.
    destruct (Re.run f r1 k prev s pos g) as [m1|] eqn:E1.
    + intros [= <-]. exact (IH1 k Hk _ _ _ _ _ E1).
    + intros H. exact (IH2 k Hk _ _ _ _ _ H).
  - assert (Hloop : forall n,
      advances
        ((fix loop (n : nat) (prev : option ascii) (s : string) (pos : Z)
                   (g : Re.spans) {struct n} : option Re.Match :=
            match n with
            | O => k prev s pos g
            | S n' =>
                match Re.run f r
                        (fun prev' s' pos' g' =>
                           if pos <? pos' then loop n' prev' s' pos' g'
                           else None)
                        prev s pos g with
                | Some m => Some m
                | None => k prev s pos g
                end
            end) n)).
    { induction n as [|n IHn]; intros prev s pos g m.
      - intros H. exact (Hk _ _ _ _ _ H).
      - match goal with
        | |- context [Re.run f r ?k'] =>
            assert (Hk' : advances k');
            [|destruct (Re.run f r k' prev s pos g) as [m1|] eqn:E1]
        end.
        + intros prev' s' pos' g' m'. destruct (pos <? pos'); [|discriminate].
          apply IHn.
        + intros [= <-]. exact (IH _ Hk' _ _ _ _ _ E1).
        + intros H. exact (Hk _ _ _ _ _ H). }
    intros prev s pos g m. exact (Hloop (S (String.length s)) prev s pos g m).
  - intros prev s pos g m H.
    refine (IH _ _ _ _ _ _ _ H).
    intros prev' s' pos' g' m' H'. exact (Hk _ _ _ _ _ H').
  - intros prev s pos g m. destruct prev as [c|].
    + destruct (Re.MULTILINE f && Re.is_newline c); [|discriminate].
      intros H. exact (Hk _ _ _ _ _ H).
    + intros H. exact (Hk _ _ _ _ _ H).
  - intros prev s pos g m. destruct s as [|c s].
    + intros H. exact (Hk _ _ _ _ _ H).
    + destruct (Re.is_newline c && (Re.MULTILINE f || Py.is_empty s));
        [|discriminate].
      intros H. exact (Hk _ _ _ _ _ H).
Qed.

Lemma match_end_nonneg f r s m : Re.match_ f r s = Some m -> 0 <= Re.m_end m.
Proof.
  unfold Re.match_. apply run_advances.
  intros prev s' pos g m' [= <-]. simpl. lia.
Qed.

Section FindElifsEnds.

Context {ext : Externals}.

(** The three ways the loop can end, from a position where the tokens
    passed are a prefix of [tokens]. *)
Lemma find_elifs_and_else_loop_ends preproc string_ tokens :
  forall rest i depth q,
    tokens = take i tokens ++ rest ->
    length (take i tokens) = i ->
    (exists r,
        find_elifs_and_else_loop preproc string_ tokens rest i depth q = Ok r q
        /\ (r = (-1, -1, None)
            \/ exists t, t ∈ tokens /\ tok_end t <= snd (fst r)))
    \/ (exists j t,
          tokens !! j = Some t
          /\ find_matching_close_parenthese (parenthese_of tokens) j
             = length tokens
          /\ find_elifs_and_else_loop preproc string_ tokens rest i depth q
             = Fatal (unmatched_elif_message preproc)
                 (elif_error_state preproc q (tok_begin t)))
    \/ (exists j,
          (j < length tokens)%nat
          /\ (length tokens
              < find_matching_close_parenthese (parenthese_of tokens) j)%nat
          /\ find_elifs_and_else_loop preproc string_ tokens rest i depth q
             = Raised "IndexError" q).
Proof.
  induction rest as [|[[begin end'] token] rest IH];
    intros i depth q Htok Hlen.
  - left. exists (-1, -1, None). split; [reflexivity | left; reflexivity].
  - assert (Hi : tokens !! i = Some (begin, end', token)).
    { rewrite Htok. rewrite lookup_app_r by lia.
      rewrite Hlen, Nat.sub_diag. reflexivity. }
    assert (Htake : take (S i) tokens = take i tokens ++ [(begin, end', token)])
      by (apply take_snoc_lookup; exact Hi).
    assert (Hnext : tokens = take (S i) tokens ++ rest).
    { rewrite Htake, <- app_assoc. exact Htok. }
    assert (Hlen' : length (take (S i) tokens) = S i).
    { rewrite Htake, length_app, Hlen. simpl. lia. }
    pose proof (fun d => IH (S i) d q Hnext Hlen') as Hstep.
    cbn [find_elifs_and_else_loop].
    destruct token; [|apply Hstep].
    destruct (matches _ (if_regex _) _); [apply Hstep|].
    destruct (matches _ (endif_regex _ _) _); [apply Hstep|].
    destruct (depth =? 0); [|apply Hstep].
    destruct (Re.match_ _ (else_regex _) _) as [me|] eqn:Helse.
    { left. eexists. split; [reflexivity|]. right.
      exists (begin, end', OPEN). split.
      - eapply list_elem_of_lookup_2. exact Hi.
      - cbn [tok_end fst snd]. pose proof (match_end_nonneg _ _ _ _ Helse). lia. }
    destruct (Re.match_ _ (elif_regex _) _) as [mi|] eqn:Helif;
      [|apply Hstep].
    unfold bind at 1. unfold when.
    destruct (Nat.eqb _ _) eqn:Hj.
    + right. left. exists i, (begin, end', OPEN).
      split; [exact Hi|]. split; [apply Nat.eqb_eq; exact Hj|]. reflexivity.
    + unfold ret at 1.
      destruct (tokens !! find_matching_close_parenthese
                            (parenthese_of tokens) i) as [tj|] eqn:Htj.
      * left. eexists. split; [reflexivity|]. right. exists tj. split.
        -- eapply list_elem_of_lookup_2. exact Htj.
        -- cbn [fst snd]. lia.
      * right. right. exists i.
        apply lookup_lt_Some in Hi. apply lookup_ge_None in Htj.
        apply Nat.eqb_neq in Hj. split; [exact Hi|]. split; [lia|reflexivity].
Qed.

Lemma find_elifs_and_else_ends string_ p :
  let tokens := _find_tokens (token_begin p) (token_end p) string_ in
  (exists r,
      find_elifs_and_else string_ p = Ok r p
      /\ (r = (-1, -1, None)
          \/ exists t, t ∈ tokens /\ tok_end t <= snd (fst r)))
  \/ (exists j t,
        tokens !! j = Some t
        /\ find_matching_close_parenthese (parenthese_of tokens) j
           = length tokens
        /\ find_elifs_and_else string_ p
           = Fatal (unmatched_elif_message p) (elif_error_state p p (tok_begin t)))
  \/ (exists j,
        (j < length tokens)%nat
        /\ (length tokens
            < find_matching_close_parenthese (parenthese_of tokens) j)%nat
        /\ find_elifs_and_else string_ p = Raised "IndexError" p).
Proof.
  intros tokens. unfold find_elifs_and_else. unfold bind at 1, get at 1.
  unfold bind at 1, get at 1. unfold bind at 1, get at 1.
  apply (find_elifs_and_else_loop_ends p string_ tokens tokens 0%nat 0 p);
    reflexivity.
Qed.

End FindElifsEnds.

Lemma matching_close_from_bound l : forall j depth,
  (Model.matching_close_from l j depth <= j + length l)%nat.
Proof.
  induction l as [|x l IH]; intros j depth; simpl; [lia|].
  destruct (_ =? 0); [lia|]. specialize (IH (S j)
    (if str_eqb x "(" then depth + 1 else depth - 1)). lia.
Qed.

Lemma matching_close_in_range : close_in_range (ext := Model.externals).
Proof.
  intros l i Hi. unfold find_matching_close_parenthese, Model.externals.
  unfold Model.matching_close.
  pose proof (matching_close_from_bound (drop i l) i 0) as H.
  rewrite length_drop in H. lia.
Qed.

(** X11.  How the search for the next branch ends.  When the index of a
    matching close is always within the list of tokens or its length, the
    search never ends in an exception: either it returns and the
    preprocessor is as it was, or it has met, at depth zero, an elif whose
    directive is not closed, and it ends in the fatal error [Unmatched ...
    token in endif], reported with the frame of the elif on the context
    stack.  On a text without token it returns the sentinel. *)
Theorem find_elifs_and_else_outcome :
  forall (ext : Externals),
    close_in_range ->
    forall (string_ : string) (p : Preprocessor),
      let tokens := _find_tokens (token_begin p) (token_end p) string_ in
      ((exists r, find_elifs_and_else string_ p = Ok r p)
       \/ (exists j t,
             tokens !! j = Some t
             /\ find_matching_close_parenthese (parenthese_of tokens) j
                = length tokens
             /\ find_elifs_and_else string_ p
                = Fatal (unmatched_elif_message p)
                    (elif_error_state p p (tok_begin t))))
      /\ (tokens = [] -> find_elifs_and_else string_ p = Ok (-1, -1, None) p).
Proof.
  intros ext Hclose string_ p tokens. split.
  - destruct (find_elifs_and_else_ends string_ p)
      as [(r & Hr & _) | [(j & t & Ht & Hj & Hr) | (j & Hlt & Hgt & _)]].
    + left. exists r. exact Hr.
    + right. exists j, t. auto.
    + exfalso. fold tokens in Hlt, Hgt.
      pose proof (Hclose (parenthese_of tokens) j) as H.
      unfold parenthese_of in H, Hgt. rewrite length_fmap in H.
      specialize (H Hlt). lia.
  - intros He. unfold find_elifs_and_else. unfold bind at 1, get at 1.
    fold tokens. rewrite He. reflexivity.
Qed.

Lemma find_elifs_and_else_outcome_witness :
  exists st,
    find_elifs_and_else (ext := Model.externals) "A{%elif x" (initial "f" 20)
    = Fatal (unmatched_elif_message (initial "f" 20)) st.
Proof.
  destruct (proj1 (find_elifs_and_else_outcome Model.externals
                     matching_close_in_range "A{%elif x" (initial "f" 20)))
    as [[r H] | (j & t & _ & _ & H)].
  - exfalso. revert H. vm_compute. discriminate.
  - eexists. exact H.
Defined.

(* ===================================================================== *)
(** ** The loop of the if block ends *)
(* ===================================================================== *)

Lemma slice_from_len s pos :
  0 <= pos -> Py.len (Py.slice_from s pos) = Z.max (Py.len s - pos) 0.
Proof.
  intros Hpos. unfold Py.slice_from, Py.clamp, Py.len.
  destruct (pos <? 0) eqn:E; [apply Z.ltb_lt in E; lia|].
  rewrite drop_length. lia.
Qed.

Section IfTerminates.

Context {ext : Externals}.
Variable parse : string -> M string.

Hypothesis scanner : tokens_in_text.
Hypothesis parse_returns : forall s q, parse s q <> OutOfFuel.
Hypothesis condition_eval_returns : forall s q, condition_eval s q <> OutOfFuel.

Lemma blck_if_loop_terminates contents :
  forall fuel value pos desc q,
    0 <= pos ->
    (Z.to_nat (Py.len contents - pos) < fuel)%nat ->
    blck_if_loop parse fuel contents value pos desc q <> OutOfFuel.
Proof.
  induction fuel as [|fuel IH]; intros value pos desc q Hpos Hfuel; [lia|].
  cbn [blck_if_loop]. unfold bind at 1.
  destruct (find_elifs_and_else_ends (Py.slice_from contents pos) q)
    as [(r & Hr & Hb) | [(j & t & _ & _ & Hr) | (j & _ & _ & Hr)]];
    rewrite Hr; try discriminate.
  destruct r as [[b e] a]. cbv beta iota zeta. destruct value.
  - unfold bind, get, context_update, modify.
    destruct (parse _ _) as [r1 q1| | | |] eqn:E; try discriminate.
    + unfold context_pop. destruct (context q1); discriminate.
    + exfalso. exact (parse_returns _ _ E).
  - destruct (b =? -1) eqn:Eb; [unfold ret; discriminate|].
    destruct Hb as [Hs | (t & Ht & Hle)].
    { inversion Hs; subst. vm_compute in Eb. discriminate Eb. }
    apply scanner in Ht as [Ht1 Ht2]. cbn [fst snd] in Hle.
    rewrite (slice_from_len _ _ Hpos) in Ht2.
    assert (Hnext : (Z.to_nat (Py.len contents - (pos + e)) < fuel)%nat) by lia.
    destruct a as [a|].
    + unfold bind, get, context_update, modify.
      destruct (parse _ _) as [r1 q1| | | |] eqn:E; try discriminate.
      2:{ exfalso. exact (parse_returns _ _ E). }
      unfold context_pop. destruct (context q1) as [|fr stack]; [discriminate|].
      destruct (condition_eval r1 _) as [v q3| | | |] eqn:Ec; try discriminate.
      2:{ exfalso. exact (condition_eval_returns _ _ Ec). }
      apply IH; [lia | exact Hnext].
    + apply IH; [lia | exact Hnext].
Qed.

End IfTerminates.

Lemma prefix_len a : forall b, String.prefix a b = true -> Py.len a <= Py.len b.
Proof.
  induction a as [|c a IH]; intros [|d b] H.
  - unfold Py.len. simpl. lia.
  - unfold Py.len. simpl. lia.
  - discriminate.
  - cbn [String.prefix] in H. destruct (ascii_dec c d); [|discriminate].
    rewrite !len_String. specialize (IH b H). lia.
Qed.

Lemma starts_len pre s :
  Model.starts pre s = true -> 0 < Py.len pre /\ Py.len pre <= Py.len s.
Proof.
  unfold Model.starts. intros H. apply andb_true_iff in H as [Hne Hp].
  split; [|apply prefix_len; exact Hp].
  destruct pre; [discriminate|]. rewrite len_String.
  pose proof (len_nonneg pre). lia.
Qed.

Lemma find_tokens_from_bounds tb te : forall s skip i t,
  t ∈ Model.find_tokens_from tb te skip s i ->
  i < tok_end t /\ tok_end t <= i + Py.len s.
Proof.
  induction s as [|c s IH]; intros skip i t Ht.
  - simpl in Ht. apply elem_of_nil in Ht. contradiction.
  - assert (Hrec : forall k, t ∈ Model.find_tokens_from tb te k s (i + 1) ->
                             i < tok_end t /\ tok_end t <= i + Py.len (String c s)).
    { intros k Hk. apply IH in Hk. rewrite len_String. lia. }
    cbn [Model.find_tokens_from] in Ht.
    destruct skip as [|skip]; [|exact (Hrec _ Ht)].
    destruct (negb (Py.is_empty tb) && String.prefix _ _); [exact (Hrec _ Ht)|].
    destruct (negb (Py.is_empty te) && String.prefix _ _); [exact (Hrec _ Ht)|].
    destruct (Model.starts tb (String c s)) eqn:Hb.
    { apply elem_of_cons in Ht as [-> | Ht]; [|exact (Hrec _ Ht)].
      apply starts_len in Hb. cbn [tok_end fst snd]. lia. }
    destruct (Model.starts te (String c s)) eqn:He.
    { apply elem_of_cons in Ht as [-> | Ht]; [|exact (Hrec _ Ht)].
      apply starts_len in He. cbn [tok_end fst snd]. lia. }
    exact (Hrec _ Ht).
Qed.

Lemma find_tokens_in_text : tokens_in_text (ext := Model.externals).
Proof.
  intros tb te s t Ht. unfold _find_tokens, Model.externals in Ht.
  apply find_tokens_from_bounds in Ht. lia.
Qed.

(** X12.  The loop of the if block ends.  When every token of the scanner
    ends after the start of the text and within it, each turn of the loop
    [while True] that goes on moves the start of the search forward by at
    least one character, and the search on what is left after the end of
    the contents finds nothing; so the loop makes at most one turn more than
    the contents have characters.  With that much fuel the model of the
    block never runs out of it, whatever the conditions are, as long as the
    nested parse and the evaluation of conditions return. *)
Theorem if_block_terminates :
  forall (ext : Externals) (parse : string -> M string),
    tokens_in_text ->
    (forall s q, parse s q <> OutOfFuel) ->
    (forall s q, condition_eval s q <> OutOfFuel) ->
    forall (fuel : nat) (args contents : string) (p : Preprocessor),
      (String.length contents < fuel)%nat ->
      blck_if parse fuel args contents p <> OutOfFuel.
Proof.
  intros ext parse Hscan Hparse Hcond fuel args contents p Hfuel.
  unfold blck_if, bind.
  destruct (condition_eval args p) as [v q| | | |] eqn:Ec; try discriminate.
  - apply blck_if_loop_terminates; try assumption; [lia|].
    unfold Py.len. rewrite Z.sub_0_r, Nat2Z.id. exact Hfuel.
  - exfalso. exact (Hcond _ _ Ec).
Qed.

Lemma if_block_terminates_witness :
  blck_if (ext := Model.externals) (fun s => ret s) 24 " 0 "
    "A{%elif 0%}B{%elif 0%}C" (initial "f" 20) <> OutOfFuel.
Proof.
  apply (if_block_terminates Model.externals (fun s => ret s)).
  - exact find_tokens_in_text.
  - intros s q. discriminate.
  - intros s q. unfold condition_eval, Model.externals, Model.condition_eval_.
    destruct (Model.cond _ _ _ _) as [[v [|]]|]; discriminate.
  - simpl. lia.
Defined.

(* ===================================================================== *)
(** ** The defines of the command line *)
(* ===================================================================== *)

Lemma bind_Ok {A B : Type} (c : M A) (k : A -> M B) p b p' :
  bind c k p = Ok b p' -> exists a q, c p = Ok a q /\ k a q = Ok b p'.
Proof.
  unfold bind. destruct (c p) as [a q| | | |]; try discriminate.
  intros H. exists a, q. auto.
Qed.

(** The name and the value that the loop of [process_defines] reads in
    the one-character string [define[0]]. *)
Lemma define_first_character c :
  (if Py.find (String c "") "=" =? -1 then (String c "", "")
   else (Py.slice_to (String c "") (Py.find (String c "") "="),
         Py.slice_from (String c "") (Py.find (String c "") "=" + 1)))
  = if Ascii.eqb c "=" then ("", "") else (String c "", "").
Proof.
  unfold Py.find. cbn [Py.find_from String.prefix].
  destruct (ascii_dec "=" c) as [<-|Hne].
  - reflexivity.
  - destruct (Ascii.eqb c "=") eqn:E.
    + apply Ascii.eqb_eq in E. congruence.
    + reflexivity.
Qed.

Lemma set_commands_id f p : f (commands p) = commands p -> set_commands f p = p.
Proof. destruct p. unfold set_commands. simpl. intros ->. reflexivity. Qed.

(** An assignment of the empty string to [value] changes no command
    that already returns the empty string. *)
Lemma rebind_registered defined : forall cs,
  (forall nd, In nd defined -> cs !! fst nd = Some (cmd_lambda "" (snd nd))) ->
  Main.rebind defined "" cs = cs.
Proof.
  unfold Main.rebind.
  induction defined as [|nd defined IH]; intros cs Hreg; [reflexivity|].
  cbn [foldl].
  rewrite (insert_id cs (fst nd)) by (apply Hreg; left; reflexivity).
  apply IH. intros nd' Hin. apply Hreg. right. exact Hin.
Qed.

Lemma register_defines_cons d defines cs :
  register_defines (d :: defines) cs
  = register_defines defines
      (<[ define_name d := cmd_lambda "" (define_doc (define_name d)) ]> cs).
Proof. reflexivity. Qed.

(** The loop, from a state in which the commands registered so far
    return the empty string: it registers the defines up to the first
    one that is not accepted, which decides how it ends. *)
Lemma process_defines_loop_run defines : forall defined p,
  (forall nd, In nd defined ->
     snd nd = define_doc (fst nd)
     /\ commands p !! fst nd = Some (cmd_lambda "" (snd nd))) ->
  Main.process_defines_loop defines defined p
  = defines_end defines
      (set_commands (register_defines (accepted_defines defines)) p).
Proof.
  induction defines as [|d defines IH]; intros defined p Hreg.
  - unfold defines_end. cbn. unfold ret.
    rewrite set_commands_id by reflexivity. reflexivity.
  - assert (Hbound : set_commands (Main.rebind defined "") p = p).
    { apply set_commands_id. apply rebind_registered.
      intros nd Hin. apply Hreg. exact Hin. }
    destruct d as [[|c rest]|].
    + unfold defines_end. cbn.
      rewrite set_commands_id by reflexivity. reflexivity.
    + cbn [Main.process_defines_loop]. unfold bind at 1, ret at 1.
      rewrite define_first_character.
      destruct (Ascii.eqb c "=") eqn:E.
      * apply Ascii.eqb_eq in E. subst c. cbv beta iota.
        unfold bind at 1, modify at 1. rewrite Hbound.
        unfold defines_end. cbn.
        rewrite set_commands_id by reflexivity. reflexivity.
      * cbv beta iota. unfold bind at 1, modify at 1. rewrite Hbound.
        unfold Main.isidentifier. cbn [Py.forallb_str].
        rewrite andb_true_r.
        unfold defines_end.
        cbn [first_refused accepted_defines valid_define].
        destruct (Main.xid_start c) eqn:Hc; cbn [negb].
        -- unfold bind at 1, modify at 1.
           rewrite IH.
           ++ unfold defines_end.
              destruct (first_refused defines) as [[[|c0 rest0]|]|];
                reflexivity.
           ++ intros nd Hin. apply in_app_or in Hin as [Hin | [<- | []]].
              ** destruct (Hreg nd Hin) as [Hdoc Hcmd].
                 split; [exact Hdoc|]. cbn [commands set_commands].
                 destruct (decide (String c "" = fst nd)) as [Heq | Hne].
                 --- rewrite Heq, lookup_insert_eq, Hdoc, <- Heq. reflexivity.
                 --- rewrite lookup_insert_ne by exact Hne. exact Hcmd.
              ** split; [reflexivity|]. cbn [commands set_commands fst snd].
                 apply lookup_insert_eq.
        -- unfold name_read. rewrite E.
           rewrite set_commands_id by reflexivity. reflexivity.
    + unfold defines_end. cbn.
      rewrite set_commands_id by reflexivity. reflexivity.
Qed.

Lemma process_defines_run defines p :
  Main.process_defines defines p
  = defines_end defines
      (set_commands (register_defines (accepted_defines defines)) p).
Proof.
  unfold Main.process_defines. apply process_defines_loop_run.
  intros nd [].
Qed.

Lemma first_refused_valid defines :
  first_refused defines = None <-> forallb valid_define defines = true.
Proof.
  induction defines as [|d defines IH]; [split; reflexivity|].
  cbn [first_refused forallb]. destruct (valid_define d); cbn [andb].
  - exact IH.
  - split; discriminate.
Qed.

Lemma accepted_defines_valid defines :
  forallb valid_define defines = true -> accepted_defines defines = defines.
Proof.
  induction defines as [|d defines IH]; [reflexivity|].
  cbn [accepted_defines forallb]. destruct (valid_define d); cbn [andb].
  - intros H. rewrite (IH H). reflexivity.
  - discriminate.
Qed.

Lemma first_refused_split defines d :
  first_refused defines = Some d ->
  valid_define d = false
  /\ Forall (fun d' => valid_define d' = true) (accepted_defines defines)
  /\ exists l, defines = accepted_defines defines ++ d :: l.
Proof.
  induction defines as [|d0 defines IH]; [discriminate|].
  cbn [first_refused accepted_defines].
  destruct (valid_define d0) eqn:Hv.
  - intros H. destruct (IH H) as (Hd & Hall & l & Hl).
    split; [exact Hd|]. split; [constructor; assumption|].
    exists l. cbn [app]. rewrite <- Hl. reflexivity.
  - intros H. inversion H; subst.
    split; [exact Hv|]. split; [constructor|]. exists defines. reflexivity.
Qed.

Lemma first_refused_In defines d :
  first_refused defines = Some d -> In d defines.
Proof.
  intros H. apply first_refused_split in H as (_ & _ & l & Hl).
  rewrite Hl. apply in_or_app. right. left. reflexivity.
Qed.

Lemma process_defines_valid defines p :
  forallb valid_define defines = true ->
  Main.process_defines defines p
  = Ok tt (set_commands (register_defines defines) p).
Proof.
  intros Hall. rewrite process_defines_run. unfold defines_end.
  rewrite (proj2 (first_refused_valid defines) Hall).
  rewrite (accepted_defines_valid _ Hall). reflexivity.
Qed.

Lemma process_defines_returns defines p p' :
  Main.process_defines defines p = Ok tt p' ->
  forallb valid_define defines = true
  /\ p' = set_commands (register_defines defines) p.
Proof.
  intros H. destruct (forallb valid_define defines) eqn:Hv.
  - rewrite (process_defines_valid _ _ Hv) in H. inversion H. auto.
  - rewrite process_defines_run in H. unfold defines_end in H.
    destruct (first_refused defines) as [[[|c rest]|]|] eqn:Hf;
      try discriminate H.
    apply first_refused_valid in Hf. congruence.
Qed.

Lemma register_defines_other defines : forall cs name,
  forallb valid_define defines = true ->
  String.length name <> 1%nat ->
  register_defines defines cs !! name = cs !! name.
Proof.
  unfold register_defines.
  induction defines as [|d defines IH]; intros cs name Hall Hlen;
    [reflexivity|].
  cbn [forallb] in Hall. apply andb_true_iff in Hall as [Hd Hall].
  cbn [foldl]. rewrite (IH _ _ Hall Hlen). apply lookup_insert_ne.
  intros <-. destruct d as [[|c rest]|]; try discriminate Hd.
  simpl in Hlen. lia.
Qed.

Lemma register_defines_values defines : forall cs name cmd,
  register_defines defines cs !! name = Some cmd ->
  cs !! name = Some cmd \/ cmd = cmd_lambda "" (define_doc name).
Proof.
  unfold register_defines.
  induction defines as [|d defines IH]; intros cs name cmd H; [left; exact H|].
  cbn [foldl] in H. apply IH in H as [H | H]; [|right; exact H].
  destruct (decide (define_name d = name)) as [<-|Hne].
  - rewrite lookup_insert_eq in H. right. congruence.
  - rewrite lookup_insert_ne in H by exact Hne. left. exact H.
Qed.

Lemma register_defines_keeps defines : forall cs name,
  cs !! name = Some (cmd_lambda "" (define_doc name)) ->
  register_defines defines cs !! name = Some (cmd_lambda "" (define_doc name)).
Proof.
  unfold register_defines.
  induction defines as [|d defines IH]; intros cs name H; [exact H|].
  cbn [foldl]. apply IH.
  destruct (decide (define_name d = name)) as [<-|Hne].
  - apply lookup_insert_eq.
  - rewrite lookup_insert_ne by exact Hne. exact H.
Qed.

Lemma register_defines_registered defines : forall cs d,
  In d defines ->
  register_defines defines cs !! define_name d
  = Some (cmd_lambda "" (define_doc (define_name d))).
Proof.
  induction defines as [|d0 defines IH]; intros cs d Hin; [contradiction|].
  destruct Hin as [-> | Hin].
  - rewrite register_defines_cons.
    apply register_defines_keeps. apply lookup_insert_eq.
  - apply (IH _ d Hin).
Qed.

(** X13.  What [process_defines] registers when it returns.  The loop
    reads [define[0]], the first character of the string: a define is
    accepted when that character can start an identifier, the command is
    registered under that one character, and it returns the empty string;
    the name before the equals sign and the value after it are not read.
    So [foo=bar] defines [f], not [foo], and no name of another length is
    touched. *)
Theorem process_defines_first_character :
  forall (defines : list (option string)) (p p' : Preprocessor),
    Main.process_defines defines p = Ok tt p' ->
    p' = set_commands (register_defines defines) p
    /\ (forall d, In d defines ->
          commands p' !! define_name d
          = Some (cmd_lambda "" (define_doc (define_name d))))
    /\ (forall name, String.length name <> 1%nat ->
          commands p' !! name = commands p !! name)
    /\ (forall name cmd, commands p' !! name = Some cmd ->
          commands p !! name = Some cmd
          \/ cmd = cmd_lambda "" (define_doc name)).
Proof.
  intros defines p p' H. apply process_defines_returns in H as [Hv ->].
  split; [reflexivity|]. split; [|split].
  - intros d Hd. apply register_defines_registered. exact Hd.
  - intros name Hlen. apply register_defines_other; assumption.
  - intros name cmd. apply register_defines_values.
Qed.

Lemma process_defines_first_character_witness :
  exists p',
    Main.process_defines [Some "foo=bar"; Some "x"] (initial "f" 20) = Ok tt p'
    /\ commands p' !! "f" = Some (cmd_lambda "" "Command line defined command f=")
    /\ commands p' !! "foo" = None.
Proof.
  eexists. split; [vm_compute; reflexivity|].
  edestruct (process_defines_first_character [Some "foo=bar"; Some "x"]
               (initial "f" 20))
    as (_ & Hreg & Hother & _).
  - vm_compute. reflexivity.
  - split.
    + exact (Hreg (Some "foo=bar") (or_introl eq_refl)).
    + rewrite (Hother "foo") by (simpl; lia). reflexivity.
Defined.

(** X14.  How [process_defines] ends.  The defines are taken in order up
    to the first one whose first character cannot start an identifier,
    and each of them is registered at once: the commands of the defines
    before that one stay registered however the call ends.  Without such
    a define the call returns.  Otherwise that define decides: a define
    without a string (a bare [-D]) raises [TypeError] at the subscript,
    the empty define raises [IndexError] there, and for any other the
    parser reports the invalid name, which is empty for [=] and the first
    character otherwise, and the process exits with status 2.  The call
    never sends an error of the preprocessor. *)
Theorem process_defines_outcome :
  forall (defines : list (option string)) (p : Preprocessor),
    Main.process_defines defines p
    = (let q := set_commands (register_defines (accepted_defines defines)) p in
       match first_refused defines with
       | None => Ok tt q
       | Some None => Raised "TypeError" q
       | Some (Some EmptyString) => Raised "IndexError" q
       | Some (Some (String c _)) =>
           Exited 2 (invalid_define_message (name_read c)) q
       end)
    /\ (first_refused defines = None
        <-> forallb valid_define defines = true)
    /\ (forall d,
          first_refused defines = Some d ->
          valid_define d = false
          /\ Forall (fun d' => valid_define d' = true)
               (accepted_defines defines)
          /\ exists l, defines = accepted_defines defines ++ d :: l)
    /\ (forall d,
          In d (accepted_defines defines) ->
          forall q,
            state_of (Main.process_defines defines p) = Some q ->
            commands q !! define_name d
            = Some (cmd_lambda "" (define_doc (define_name d)))).
Proof.
  intros defines p. split; [|split; [|split]].
  - rewrite process_defines_run. reflexivity.
  - apply first_refused_valid.
  - intros d. apply first_refused_split.
  - intros d Hin q. rewrite process_defines_run. unfold defines_end.
    intros Hq.
    assert (Hq' : q = set_commands
                        (register_defines (accepted_defines defines)) p).
    { destruct (first_refused defines) as [[[|c rest]|]|];
        inversion Hq; reflexivity. }
    subst q. cbn [commands set_commands].
    apply register_defines_registered. exact Hin.
Qed.

Lemma process_defines_outcome_witness :
  exists q,
    Main.process_defines [Some "a=1"; None; Some "b"] (initial "f" 20)
    = Raised "TypeError" q
    /\ commands q !! "a" = Some (cmd_lambda "" "Command line defined command a=")
    /\ commands q !! "b" = None.
Proof.
  eexists. split; [vm_compute; reflexivity|].
  destruct (process_defines_outcome [Some "a=1"; None; Some "b"]
              (initial "f" 20)) as (_ & _ & _ & Hreg).
  split.
  - refine (Hreg (Some "a=1") _ _ _).
    + left. reflexivity.
    + vm_compute. reflexivity.
  - vm_compute. reflexivity.
Defined.

(* ===================================================================== *)
(** ** The options of the command line *)
(* ===================================================================== *)

Lemma ends_as_bind {A B : Type} P E (c : M A) (k : A -> M B) :
  ends_as P E c -> (forall a, ends_as P E (k a)) -> ends_as P E (bind c k).
Proof.
  intros Hc Hk p. unfold bind. specialize (Hc p).
  destruct (c p) as [a q| | | |]; try exact Hc. apply Hk.
Qed.

Lemma ends_as_modify P E f : ends_as P E (modify f).
Proof. intros p. exact I. Qed.

Lemma ends_as_ret {A : Type} P E (a : A) : ends_as P E (ret a).
Proof. intros p. exact I. Qed.

Lemma ends_as_get {A : Type} P E (f : Preprocessor -> A) : ends_as P E (get f).
Proof. intros p. exact I. Qed.

Lemma ends_as_head_or_raise {A : Type} P (E : string -> Prop) (l : list A) :
  (l = [] -> E "IndexError") -> ends_as P E (Main.head_or_raise l).
Proof. intros H p. destruct l; [apply H; reflexivity | exact I]. Qed.

Lemma ends_as_firsts P (E : string -> Prop) l :
  (In [] l -> E "IndexError") -> ends_as P E (Main.firsts l).
Proof.
  induction l as [|x l IH]; intros H; [apply ends_as_ret|]. cbn [Main.firsts].
  apply ends_as_bind.
  { apply ends_as_head_or_raise. intros ->. apply H. left. reflexivity. }
  intros h.
  apply ends_as_bind; [apply IH; intros Hin; apply H; right; exact Hin|].
  intros t. apply ends_as_ret.
Qed.

Lemma ends_as_process_defines (P : Z -> string -> Prop) (E : string -> Prop)
    defines :
  (forall name, P 2 (invalid_define_message name)) ->
  (In None defines -> E "TypeError") ->
  (In (Some "") defines -> E "IndexError") ->
  ends_as P E (Main.process_defines defines).
Proof.
  intros HP Htype Hindex p. rewrite process_defines_run. unfold defines_end.
  destruct (first_refused defines) as [[[|c rest]|]|] eqn:Hf.
  - apply Hindex. apply first_refused_In. exact Hf.
  - apply HP.
  - apply Htype. apply first_refused_In. exact Hf.
  - exact I.
Qed.

Lemma firsts_returns l : forall p silent p',
  Main.firsts l p = Ok silent p' ->
  p' = p /\ Forall2 (fun x s => head x = Some s) l silent.
Proof.
  induction l as [|x l IH]; intros p silent p' H.
  - inversion H; subst. split; [reflexivity | constructor].
  - cbn [Main.firsts] in H. apply bind_Ok in H as (h & q & Hh & H).
    destruct x as [|y x]; [discriminate Hh|]. inversion Hh; subst.
    apply bind_Ok in H as (t & q' & Ht & H). inversion H; subst.
    apply IH in Ht as [-> Hall]. split; [reflexivity|].
    constructor; [reflexivity | exact Hall].
Qed.

Section OptionsEnd.

Variables (abspath dirname : string -> string).
Variable get_help : Preprocessor -> string -> string.
Variables (NAME VERSION : string).

Lemma process_options_ends arguments :
  ends_as (options_exit get_help NAME VERSION arguments)
    (options_exception arguments)
    (Main.process_options abspath dirname get_help NAME VERSION arguments).
Proof.
  unfold Main.process_options.
  repeat (apply ends_as_bind; [apply ends_as_modify|]; intros ?).
  apply ends_as_bind.
  { apply ends_as_process_defines.
    - intros name. left. split; [reflexivity|].
      right. exists name. reflexivity.
    - intros Hin. left. split; [reflexivity | exact Hin].
    - intros Hin. right. split; [reflexivity|]. left. exact Hin. }
  intros ?. apply ends_as_bind; [apply ends_as_modify|]. intros ?.
  apply ends_as_bind.
  { destruct (Main.arg_recursion_depth arguments) as [l|] eqn:Hl;
      [|apply ends_as_ret].
    apply ends_as_bind.
    { apply ends_as_head_or_raise. intros ->. right. split; [reflexivity|].
      right. right. exact Hl. }
    intros r.
    destruct (r <? -1); [|apply ends_as_modify].
    intros p. left. split; [reflexivity|]. left. reflexivity. }
  intros ?. apply ends_as_bind.
  { destruct (Main.arg_begin arguments); [apply ends_as_modify | apply ends_as_ret]. }
  intros ?. apply ends_as_bind.
  { destruct (Main.arg_end arguments); [apply ends_as_modify | apply ends_as_ret]. }
  intros ?. apply ends_as_bind; [apply ends_as_modify|]. intros ?.
  apply ends_as_bind.
  { apply ends_as_firsts. intros Hin. right. split; [reflexivity|].
    right. left. exact Hin. }
  intros silent.
  apply ends_as_bind; [apply ends_as_modify|]. intros ?.
  destruct (Main.arg_version arguments) eqn:Hver.
  - intros p. unfold bind at 1. unfold when, Main.print_and_exit.
    right. split; [reflexivity|]. left. split; [exact Hver | reflexivity].
  - apply ends_as_bind; [apply ends_as_ret|]. intros ?.
    destruct (Main.arg_help arguments) as [h|] eqn:Hh; [|apply ends_as_ret].
    apply ends_as_bind; [apply ends_as_get|]. intros q p.
    right. split; [reflexivity|]. right. split; [exact Hver|].
    exists h, q. split; [exact Hh | reflexivity].
Qed.

Lemma process_options_returns arguments p p' :
  Main.process_options abspath dirname get_help NAME VERSION arguments p
  = Ok tt p' ->
  exists q silent,
    Main.process_defines (Main.arg_define arguments)
      (with_io_commands arguments p) = Ok tt q
    /\ Forall2 (fun x s => head x = Some s) (Main.arg_silent arguments) silent
    /\ Main.arg_version arguments = false
    /\ Main.arg_help arguments = None
    /\ match Main.arg_recursion_depth arguments with
       | Some l => exists r l', l = r :: l' /\ -1 <= r
       | None => True
       end
    /\ p' = set_silent_warnings (fun l => l ++ silent)
              (set_warning_mode (warning_mode_of (Main.arg_warnings arguments))
                 (with_delimiters arguments
                    (with_recursion_depth arguments
                       (with_include_path abspath dirname arguments q)))).
Proof.
  unfold Main.process_options. intros H.
  apply bind_Ok in H as ([] & p1 & H1 & H). inversion H1; subst. clear H1.
  apply bind_Ok in H as ([] & p2 & H2 & H). inversion H2; subst. clear H2.
  fold (with_io_commands arguments p) in H.
  apply bind_Ok in H as ([] & q & Hdef & H).
  apply bind_Ok in H as ([] & p3 & H3 & H). inversion H3; subst. clear H3.
  fold (with_include_path abspath dirname arguments q) in H.
  apply bind_Ok in H as ([] & p4 & Hdepth & H).
  apply bind_Ok in H as ([] & p5 & Hbegin & H).
  apply bind_Ok in H as ([] & p6 & Hend & H).
  apply bind_Ok in H as ([] & p7 & Hmode & H). inversion Hmode; subst. clear Hmode.
  apply bind_Ok in H as (silent & p8 & Hsilent & H).
  apply firsts_returns in Hsilent as [-> Hsilent].
  apply bind_Ok in H as ([] & p9 & H9 & H). inversion H9; subst. clear H9.
  apply bind_Ok in H as ([] & p10 & Hver & H).
  exists q, silent. split; [exact Hdef|]. split; [exact Hsilent|].
  destruct (Main.arg_version arguments); [discriminate Hver|].
  inversion Hver; subst. clear Hver. split; [reflexivity|].
  destruct (Main.arg_help arguments) as [h|]; [discriminate H|].
  inversion H; subst. clear H. split; [reflexivity|].
  unfold with_delimiters, with_recursion_depth.
  destruct (Main.arg_recursion_depth arguments) as [[|r l]|].
  - discriminate Hdepth.
  - apply bind_Ok in Hdepth as (r' & p' & Hr & Hdepth). inversion Hr; subst.
    destruct (r' <? -1) eqn:E; [discriminate Hdepth|]. inversion Hdepth; subst.
    apply Z.ltb_ge in E. split; [exists r', l; auto|].
    destruct (Main.arg_begin arguments), (Main.arg_end arguments);
      inversion Hbegin; inversion Hend; subst; reflexivity.
  - inversion Hdepth; subst. split; [exact I|].
    destruct (Main.arg_begin arguments), (Main.arg_end arguments);
      inversion Hbegin; inversion Hend; subst; reflexivity.
Qed.

End OptionsEnd.

(** X15.  How [process_options] ends, for a namespace with the names of
    its two files.  It never sends an error of the preprocessor.  It exits
    with status 2 only for a define or a recursion depth that is refused,
    and with status 0 only for the version or the help; the version comes
    first, so the help is printed only when the version was not asked
    for.  Both come last: when the call returns, neither was asked for,
    and an option that is refused wins over them.  It raises only at a
    subscript: [TypeError] for a define without a string, which a bare
    [-D] gives, and [IndexError] for an empty define or an empty list. *)
Theorem process_options_outcomes :
  forall (abspath dirname : string -> string)
         (get_help : Preprocessor -> string -> string)
         (NAME VERSION : string) (arguments : Main.Namespace),
    ends_as (options_exit get_help NAME VERSION arguments)
      (options_exception arguments)
      (Main.process_options abspath dirname get_help NAME VERSION arguments)
    /\ (forall p p',
          Main.process_options abspath dirname get_help NAME VERSION
            arguments p = Ok tt p' ->
          Main.arg_version arguments = false
          /\ Main.arg_help arguments = None)
    /\ (forall p r l,
          Main.arg_version arguments = true ->
          Main.arg_recursion_depth arguments = Some (r :: l) ->
          r < -1 ->
          forall st out q,
            Main.process_options abspath dirname get_help NAME VERSION
              arguments p = Exited st out q ->
            st = 2)
    /\ (forall p,
          first_refused (Main.arg_define arguments) = Some None ->
          exists q,
            Main.process_options abspath dirname get_help NAME VERSION
              arguments p = Raised "TypeError" q).
Proof.
  intros abspath dirname get_help NAME VERSION arguments.
  split; [apply process_options_ends|]. split; [|split].
  - intros p p' H.
    apply process_options_returns in H as (q & silent & _ & _ & Hv & Hh & _).
    auto.
  - intros p r l Hver Hr Hlt st out q H.
    rewrite (process_options_below_minus_one abspath dirname get_help NAME
               VERSION arguments p r l Hr Hlt) in H.
    rewrite process_defines_run in H. unfold defines_end in H.
    destruct (first_refused (Main.arg_define arguments)) as [[[|c rest]|]|];
      inversion H; reflexivity.
  - intros p Hf. unfold Main.process_options.
    unfold bind at 1, modify at 1. unfold bind at 1, modify at 1.
    unfold bind at 1. rewrite process_defines_run. unfold defines_end.
    rewrite Hf. eexists. reflexivity.
Qed.

Lemma process_options_outcomes_witness :
  (exists st out q,
     Main.process_options (fun s => s) (fun s => s) (fun _ _ => "") "pproc" "1"
       {| Main.arg_begin := None; Main.arg_end := None;
          Main.arg_warnings := None; Main.arg_version := true;
          Main.arg_output := "out"; Main.arg_help := None;
          Main.arg_define := []; Main.arg_include := []; Main.arg_silent := [];
          Main.arg_recursion_depth := Some [-2]; Main.arg_input := "in" |}
       (initial "f" 20)
     = Exited st out q
     /\ st = 2)
  /\ exists q,
       Main.process_options (fun s => s) (fun s => s) (fun _ _ => "")
         "pproc" "1"
         {| Main.arg_begin := None; Main.arg_end := None;
            Main.arg_warnings := None; Main.arg_version := true;
            Main.arg_output := "out"; Main.arg_help := None;
            Main.arg_define := [Some "a"; None]; Main.arg_include := [];
            Main.arg_silent := [];
            Main.arg_recursion_depth := None; Main.arg_input := "in" |}
         (initial "f" 20)
       = Raised "TypeError" q.
Proof.
  split.
  - eexists. eexists. eexists. split; [vm_compute; reflexivity|].
    refine (proj1 (proj2 (proj2 (process_options_outcomes (fun s => s)
              (fun s => s) (fun _ _ => "") "pproc" "1"
              {| Main.arg_begin := None; Main.arg_end := None;
                 Main.arg_warnings := None; Main.arg_version := true;
                 Main.arg_output := "out"; Main.arg_help := None;
                 Main.arg_define := []; Main.arg_include := [];
                 Main.arg_silent := [];
                 Main.arg_recursion_depth := Some [-2];
                 Main.arg_input := "in" |})))
              (initial "f" 20) (-2) [] _ _ _ _ _ _ _).
    + reflexivity.
    + reflexivity.
    + lia.
    + vm_compute. reflexivity.
  - refine (proj2 (proj2 (proj2 (process_options_outcomes (fun s => s)
              (fun s => s) (fun _ _ => "") "pproc" "1"
              {| Main.arg_begin := None; Main.arg_end := None;
                 Main.arg_warnings := None; Main.arg_version := true;
                 Main.arg_output := "out"; Main.arg_help := None;
                 Main.arg_define := [Some "a"; None]; Main.arg_include := [];
                 Main.arg_silent := [];
                 Main.arg_recursion_depth := None;
                 Main.arg_input := "in" |})))
              (initial "f" 20) _).
    reflexivity.
Defined.

(** X16.  What [process_options] has set when it returns.  The delimiters
    are those of the command line where it gives them and are kept where it
    does not; the warning mode is the one the option names, whatever it was
    before; the recursion limit is the depth given, which is at least [-1];
    the warnings to silence are added after those already there; the search
    path is replaced by the working directory, the directories of the input
    and of the output, and the includes, in that order.  The commands
    [input] and [output] return the two file names and no define shadows
    them; the registry is otherwise the one the defines left.  The context
    stack, the labels, the command variables and the log are untouched. *)
Theorem process_options_settings :
  forall (abspath dirname : string -> string)
         (get_help : Preprocessor -> string -> string)
         (NAME VERSION : string) (arguments : Main.Namespace)
         (p p' : Preprocessor),
    Main.process_options abspath dirname get_help NAME VERSION arguments p
    = Ok tt p' ->
    token_begin p' = default (token_begin p) (Main.arg_begin arguments)
    /\ token_end p' = default (token_end p) (Main.arg_end arguments)
    /\ token_endblock p' = token_endblock p
    /\ warning_mode p' = warning_mode_of (Main.arg_warnings arguments)
    /\ match Main.arg_recursion_depth arguments with
       | Some l => exists r l', l = r :: l' /\ -1 <= r
                               /\ max_recursion_depth p' = r
       | None => max_recursion_depth p' = max_recursion_depth p
       end
    /\ (exists silent,
          Forall2 (fun x s => head x = Some s) (Main.arg_silent arguments) silent
          /\ silent_warnings p' = silent_warnings p ++ silent)
    /\ include_path p'
       = [inl (abspath ""); inl (dirname (abspath (Main.arg_input arguments)));
          inl (dirname (abspath (Main.arg_output arguments)))]
         ++ (inr <$> Main.arg_include arguments)
    /\ commands p'
       = register_defines (Main.arg_define arguments)
           (commands (with_io_commands arguments p))
    /\ commands p' !! "input"
       = Some (cmd_lambda (Main.arg_input arguments) "Prints name of input file")
    /\ commands p' !! "output"
       = Some (cmd_lambda (Main.arg_output arguments) "Prints name of output file")
    /\ context p' = context p /\ labels p' = labels p
    /\ command_vars p' = command_vars p /\ log p' = log p.
Proof.
  intros abspath dirname get_help NAME VERSION arguments p p' H.
  apply process_options_returns in H
    as (q & silent & Hdef & Hsilent & _ & _ & Hdepth & ->).
  apply process_defines_returns in Hdef as [Hvalid ->].
  unfold with_delimiters, with_recursion_depth, with_include_path.
  assert (Hcmd : forall q0, commands (set_silent_warnings (fun l => l ++ silent)
                   (set_warning_mode (warning_mode_of (Main.arg_warnings arguments))
                      q0)) = commands q0) by reflexivity.
  destruct (Main.arg_recursion_depth arguments) as [l|];
    [destruct Hdepth as (r & l' & -> & Hr)|];
    destruct (Main.arg_begin arguments), (Main.arg_end arguments);
    cbn -[register_defines with_io_commands warning_mode_of lookup];
    (repeat split;
     try reflexivity;
     try (exists silent; split; [exact Hsilent | reflexivity]);
     try (exists r, l'; split; [reflexivity|]; split;
          [exact Hr | reflexivity]);
     try (rewrite register_defines_other by (first [exact Hvalid | simpl; lia]);
          unfold with_io_commands; cbn [commands set_commands];
          first [ apply lookup_insert_eq
                | rewrite lookup_insert_ne by discriminate;
                  apply lookup_insert_eq ])).
Qed.

Lemma process_options_settings_witness :
  exists p',
    Main.process_options (fun s => s) (fun s => s) (fun _ _ => "") "pproc" "1"
      {| Main.arg_begin := Some "<<"; Main.arg_end := None;
         Main.arg_warnings := Some "error"; Main.arg_version := false;
         Main.arg_output := "out"; Main.arg_help := None;
         Main.arg_define := [Some "input=x"; Some "o"];
         Main.arg_include := [["inc"]];
         Main.arg_silent := [["w1"]];
         Main.arg_recursion_depth := Some [5]; Main.arg_input := "in" |}
      (initial "f" 20)
    = Ok tt p'
    /\ token_begin p' = "<<" /\ token_end p' = "%}"
    /\ warning_mode p' = AS_ERROR
    /\ max_recursion_depth p' = 5
    /\ silent_warnings p' = silent_warnings (initial "f" 20) ++ ["w1"]
    /\ include_path p' = [inl ""; inl "in"; inl "out"; inr ["inc"]]
    /\ commands p' !! "input" = Some (cmd_lambda "in" "Prints name of input file")
    /\ commands p' !! "output"
       = Some (cmd_lambda "out" "Prints name of output file")
    /\ commands p' !! "i" = Some (cmd_lambda "" "Command line defined command i=")
    /\ log p' = [].
Proof.
  eexists. split; [vm_compute; reflexivity|].
  edestruct (process_options_settings (fun s => s) (fun s => s)
               (fun _ _ => "") "pproc" "1"
               {| Main.arg_begin := Some "<<"; Main.arg_end := None;
                  Main.arg_warnings := Some "error"; Main.arg_version := false;
                  Main.arg_output := "out"; Main.arg_help := None;
                  Main.arg_define := [Some "input=x"; Some "o"];
                  Main.arg_include := [["inc"]];
                  Main.arg_silent := [["w1"]];
                  Main.arg_recursion_depth := Some [5]; Main.arg_input := "in" |}
               (initial "f" 20))
    as (Hb & He & _ & Hw & Hdepth & Hsilent & Hpath & Hcmds & Hin & Hout
        & _ & _ & _ & Hlog).
  - vm_compute. reflexivity.
  - split; [exact Hb|]. split; [exact He|]. split; [exact Hw|].
    split.
    { destruct Hdepth as (r & l' & Hl & _ & Hmax).
      inversion Hl as [[Hr Hl']]. rewrite <- Hr in Hmax. exact Hmax. }
    split.
    { destruct Hsilent as (silent & Hall & Hs). rewrite Hs.
      apply Forall2_cons_inv_l in Hall as (s & k & Hhead & Hrest & ->).
      apply Forall2_nil_inv_l in Hrest as ->. simpl in Hhead.
      inversion Hhead; subst. reflexivity. }
    split; [exact Hpath|]. split; [exact Hin|]. split; [exact Hout|].
    split; [rewrite Hcmds; vm_compute; reflexivity | exact Hlog].
Defined.
